(** * certmagic-storage-tests: the conformance suite of [suite.go]

    The suite drives an arbitrary [certmagic.Storage] through a scripted
    sequence of calls and fails the test on any deviation.  The embedding
    keeps the shape of the Go code: each test function is a program in a
    small effect monad whose operations are the storage methods, the
    suite's random generator, the tracked-key list, [t.Fatalf] and the
    [sync.WaitGroup] used by the lock stress test.  Programs are given two
    readings: a sequential one ([exec], the test goroutine alone) and an
    interleaving one ([step], one atomic operation of one goroutine). *)

From Stdlib Require Import ZArith String List Ascii Bool Lia Arith.
From Stdlib Require Import DecimalString.
From Stdlib Require DecimalPos DecimalZ.
From Stdlib Require Import Permutation.
Import ListNotations.

Local Open Scope string_scope.
Local Open Scope list_scope.

(** ** Go values *)

(** A non-nil [error], identified with its [Error()] text; the Go value
    [nil] of type [error] is [None] of type [option error]. *)
Definition error := string.

(** A [[]byte]: [None] is the nil slice, [Some s] a slice holding the bytes
    of [s]. *)
Definition bytes := option string.

Definition content (b : bytes) : string :=
  match b with
  | Some s => s
  | None => ""
  end.

(** [bytes.Equal]: a nil argument is equivalent to an empty slice. *)
Definition bytes_Equal (a b : bytes) : bool := String.eqb (content a) (content b).

(** The conversion [[]byte(s)]. *)
Definition bytes_of_string (s : string) : bytes := Some s.

(** [strconv.Itoa]: signed decimal. *)
Definition Itoa (n : Z) : string := NilZero.string_of_int (Z.to_int n).

(** [sort.Strings]: increasing byte-wise order.  Equal strings are
    indistinguishable, so the sorted slice does not depend on the sorting
    algorithm; insertion sort stands for it. *)
Fixpoint insert_sorted (s : string) (l : list string) : list string :=
  match l with
  | [] => [s]
  | x :: l' => if String.leb s x then s :: l else x :: insert_sorted s l'
  end.

Definition sort_Strings (l : list string) : list string :=
  fold_right insert_sorted [] l.

(** The arguments handed to [t.Fatalf] after its format string. *)
Inductive fmt_arg : Type :=
| AString (s : string)
| AError (e : error)
| ABytes (b : bytes).

(** ** The certmagic interface (declared outside this repository) *)

Module certmagic.

(** [certmagic.KeyInfo]. *)
Record KeyInfo : Type := {
  Key : string;
  Modified : Z;
  Size : Z;
  IsTerminal : bool
}.

(** [certmagic.Storage] (with the embedded [Locker]): every method takes
    the storage's state and returns its results with the next state.  The
    context argument is always [t.Context()] and is left implicit.  A
    call is one atomic step that returns; a [Lock] that waits is a call
    that is scheduled later. *)
Record Storage (St : Type) : Type := {
  Lock : string -> St -> option error * St;
  Unlock : string -> St -> option error * St;
  Store : string -> bytes -> St -> option error * St;
  Load : string -> St -> bytes * option error * St;
  Delete : string -> St -> option error * St;
  Exists : string -> St -> bool * St;
  List : string -> bool -> St -> list string * option error * St;
  Stat : string -> St -> KeyInfo * option error * St
}.

Arguments Lock {St}.
Arguments Unlock {St}.
Arguments Store {St}.
Arguments Load {St}.
Arguments Delete {St}.
Arguments Exists {St}.
Arguments List {St}.
Arguments Stat {St}.

End certmagic.

(** The [Rng interface{ Int() int }] field of [Suite]. *)
Record RngImpl (G : Type) : Type := {
  Int : G -> Z * G
}.
Arguments Int {G}.

(** ** Effects of the test code *)

(** A method call on [ts.S]. *)
Inductive call : Type :=
| CLock (key : string)
| CUnlock (key : string)
| CStore (key : string) (value : bytes)
| CLoad (key : string)
| CDelete (key : string)
| CExists (key : string)
| CList (key : string) (recursive : bool)
| CStat (key : string).

(** What an operation hands back to the code that issued it. *)
Inductive value : Type :=
| VUnit
| VErr (err : option error)
| VBool (b : bool)
| VBytes (v : bytes) (err : option error)
| VInfo (inf : certmagic.KeyInfo) (err : option error)
| VStrings (ls : list string) (err : option error)
| VInt (n : Z).

Inductive op : Type :=
| OCall (c : call)                               (* ts.S.<method>(t.Context(), ...) *)
| ORngInt                                        (* ts.Rng.Int() *)
| OAppendRandKeys (ks : list string)             (* ts.mu.Lock(); ts.randKeys = append(ts.randKeys, ks...); ts.mu.Unlock() *)
| ORandKeys                                      (* reading ts.randKeys under ts.mu *)
| OGosched                                       (* runtime.Gosched() *)
| OFail (format : string) (args : list fmt_arg)  (* the logging and marking half of t.Fatalf *)
| OWgAdd (delta : nat)                           (* wg.Add(delta) *)
| OWgDone                                        (* wg.Done() *)
| OWgWait.                                       (* wg.Wait() *)

(** Programs: [Ret] returns from the function, [Goexit] is the
    [runtime.Goexit] that ends [t.FailNow], [Go g k] is the statement
    [go g()] followed by [k]. *)
Inductive prog (A : Type) : Type :=
| Ret (a : A)
| Goexit
| Op (o : op) (k : value -> prog A)
| Go (g : prog unit) (k : prog A).

Arguments Ret {A}.
Arguments Goexit {A}.
Arguments Op {A}.
Arguments Go {A}.

Fixpoint bind {A B : Type} (p : prog A) (f : A -> prog B) : prog B :=
  match p with
  | Ret a => f a
  | Goexit => Goexit
  | Op o k => Op o (fun v => bind (k v) f)
  | Go g k => Go g (bind k f)
  end.

Declare Scope prog_scope.
Delimit Scope prog_scope with prog.
Bind Scope prog_scope with prog.

Notation "x <- c ;; k" := (bind c (fun x => k))
  (at level 61, c at next level, right associativity) : prog_scope.
Notation "c ;; k" := (bind c (fun _ => k))
  (at level 61, right associativity) : prog_scope.

Local Open Scope prog_scope.

(** [defer d] in front of the rest [p] of a function body: [d] runs when
    [p] returns and also when the goroutine exits through [Goexit]. *)
Fixpoint defer_ {A : Type} (d : prog unit) (p : prog A) : prog A :=
  match p with
  | Ret a => d ;; Ret a
  | Goexit => d ;; Goexit
  | Op o k => Op o (fun v => defer_ d (k v))
  | Go g k => Go g (defer_ d k)
  end.

(** [t.Cleanup(f)]: [f] runs once the test function has completed, by
    returning or by [t.FailNow]. *)
Definition t_Cleanup {A : Type} (f : prog unit) (p : prog A) : prog A := defer_ f p.

(** [for _, x := range l { body }]. *)
Fixpoint range_ {X : Type} (l : list X) (body : X -> prog unit) : prog unit :=
  match l with
  | [] => Ret tt
  | x :: l' => body x ;; range_ l' body
  end.

(** Projections of an operation's result to the Go type of the call. *)
Definition err_of (v : value) : option error :=
  match v with
  | VErr e | VBytes _ e | VInfo _ e | VStrings _ e => e
  | _ => None
  end.

Definition bool_of (v : value) : bool :=
  match v with
  | VBool b => b
  | _ => false
  end.

Definition bytes_of (v : value) : bytes :=
  match v with
  | VBytes b _ => b
  | _ => None
  end.

Definition no_info : certmagic.KeyInfo :=
  {| certmagic.Key := ""; certmagic.Modified := 0; certmagic.Size := 0;
     certmagic.IsTerminal := false |}.

Definition info_of (v : value) : certmagic.KeyInfo :=
  match v with
  | VInfo i _ => i
  | _ => no_info
  end.

Definition strings_of (v : value) : list string :=
  match v with
  | VStrings l _ => l
  | _ => []
  end.

Definition int_of (v : value) : Z :=
  match v with
  | VInt n => n
  | _ => 0%Z
  end.

Definition S_Lock (key : string) : prog (option error) :=
  Op (OCall (CLock key)) (fun v => Ret (err_of v)).
Definition S_Unlock (key : string) : prog (option error) :=
  Op (OCall (CUnlock key)) (fun v => Ret (err_of v)).
Definition S_Store (key : string) (value : bytes) : prog (option error) :=
  Op (OCall (CStore key value)) (fun v => Ret (err_of v)).
Definition S_Load (key : string) : prog (bytes * option error) :=
  Op (OCall (CLoad key)) (fun v => Ret (bytes_of v, err_of v)).
Definition S_Delete (key : string) : prog (option error) :=
  Op (OCall (CDelete key)) (fun v => Ret (err_of v)).
Definition S_Exists (key : string) : prog bool :=
  Op (OCall (CExists key)) (fun v => Ret (bool_of v)).
Definition S_List (key : string) (recursive : bool) : prog (list string * option error) :=
  Op (OCall (CList key recursive)) (fun v => Ret (strings_of v, err_of v)).
Definition S_Stat (key : string) : prog (certmagic.KeyInfo * option error) :=
  Op (OCall (CStat key)) (fun v => Ret (info_of v, err_of v)).

Definition Rng_Int : prog Z := Op ORngInt (fun v => Ret (int_of v)).
Definition appendRandKeys (ks : list string) : prog unit :=
  Op (OAppendRandKeys ks) (fun _ => Ret tt).
Definition readRandKeys : prog (list string) :=
  Op ORandKeys (fun v => Ret (strings_of v)).
Definition Gosched : prog unit := Op OGosched (fun _ => Ret tt).
Definition wg_Add (delta : nat) : prog unit := Op (OWgAdd delta) (fun _ => Ret tt).
Definition wg_Done : prog unit := Op OWgDone (fun _ => Ret tt).
Definition wg_Wait : prog unit := Op OWgWait (fun _ => Ret tt).

(** [t.Fatalf(format, args...)]: log, mark the test failed, leave the
    goroutine. *)
Definition Fatalf {A : Type} (format : string) (args : list fmt_arg) : prog A :=
  Op (OFail format args) (fun _ => Goexit).

(** ** suite.go *)

(** KeyPrefix is prepended to all tested keys.
    If changed, it must not contain a forward slash (/) *)
Definition KeyPrefix : string := "__test__key__".

Definition randKey : prog string :=
  n <- Rng_Int ;;
  Ret (KeyPrefix ++ Itoa n)%string.

(** The closure [test] of [testLocker]; [n] is the number of iterations of
    [for i := 0; i < 5; i++] still to run. *)
Fixpoint test_loop (key : string) (n : nat) : prog unit :=
  match n with
  | O => Ret tt
  | S n' =>
      err <- S_Lock key ;;
      match err with
      | Some _ =>
          (* certmagic lockers can timeout *)
          test_loop key n'
      | None =>
          Gosched ;;
          err <- S_Unlock key ;;
          match err with
          | Some e => Fatalf "Storage.Unlock failed: %s" [AError e]
          | None => test_loop key n'
          end
      end
  end.

Definition test (key : string) : prog unit := test_loop key 5.

(** [go func() { defer wg.Done(); test(key) }()]. *)
Definition worker (key : string) : prog unit := defer_ wg_Done (test key).

(** [for j := 0; j < 2; j++ { wg.Add(1); go ... }], [j] iterations left. *)
Fixpoint spawn_workers (key : string) (j : nat) : prog unit :=
  match j with
  | O => Ret tt
  | S j' =>
      wg_Add 1 ;;
      Go (worker key) (spawn_workers key j')
  end.

(** [for i := 0; i < 5; i++ { key := ts.randKey(); ... }], [i] iterations
    left. *)
Fixpoint spawn_keys (i : nat) : prog unit :=
  match i with
  | O => Ret tt
  | S i' =>
      key <- randKey ;;
      spawn_workers key 2 ;;
      spawn_keys i'
  end.

(** Lines 81-104 of [testLocker]. *)
Definition lock_stress : prog unit :=
  spawn_keys 5 ;;
  wg_Wait.

Definition testLocker : prog unit :=
  n <- Rng_Int ;;
  let key := Itoa n in
  err <- S_Unlock key ;;
  match err with
  | None => Fatalf "Storage successfully unlocks unlocked key" []
  | Some _ => Ret tt
  end ;;
  err <- S_Lock key ;;
  match err with
  | Some e => Fatalf "Storage fails to lock key: %s" [AError e]
  | None => Ret tt
  end ;;
  err <- S_Unlock key ;;
  match err with
  | Some e => Fatalf "Storage fails to unlock locked key: %s" [AError e]
  | None => Ret tt
  end ;;
  lock_stress.

(** The statements of [testStorageSingleKey] after [defer sto.Unlock]. *)
Definition singleKey_body (key : string) (val : bytes) : prog unit :=
  b <- S_Exists key ;;
  (if b then Fatalf "Un-stored key %s exists" [AString key] else Ret tt) ;;
  r <- S_Load key ;;
  match snd r with
  | None => Fatalf "Load(%s) should fail: the key was not stored" [AString key]
  | Some _ => Ret tt
  end ;;
  r <- S_Stat key ;;
  match snd r with
  | None => Fatalf "Stat(%s) should fail: the key doesn't exist" [AString key]
  | Some _ => Ret tt
  end ;;
  err <- S_Store "" (Some "") ;;
  match err with
  | None => Fatalf "Store() with empty key should fail" []
  | Some _ => Ret tt
  end ;;
  err <- S_Store key None ;;
  match err with
  | Some e => Fatalf "Store(%s) with `nil` value failed: %s" [AString key; AError e]
  | None => Ret tt
  end ;;
  err <- S_Store key (Some "") ;;
  match err with
  | Some e => Fatalf "Store(%s) with empty value failed: %s" [AString key; AError e]
  | None => Ret tt
  end ;;
  err <- S_Store key val ;;
  match err with
  | Some e => Fatalf "Store(%s) failed: %s" [AString key; AError e]
  | None => Ret tt
  end ;;
  b <- S_Exists key ;;
  (if negb b then Fatalf "Stored key %s doesn't exists" [AString key] else Ret tt) ;;
  r <- S_Load key ;;
  match snd r with
  | Some e => Fatalf "Load(%s) failed: %s" [AString key; AError e]
  | None =>
      if negb (bytes_Equal val (fst r))
      then Fatalf "Load(%s) failed: loaded %#v != stored %#v"
                  [AString key; ABytes (fst r); ABytes val]
      else Ret tt
  end ;;
  err <- S_Delete key ;;
  match err with
  | Some e => Fatalf "Delete(%s) failed: %s" [AString key; AError e]
  | None => Ret tt
  end ;;
  b <- S_Exists key ;;
  (if b then Fatalf "Deleted key still %s exists" [AString key] else Ret tt).

Definition testStorageSingleKey : prog unit :=
  key <- randKey ;;
  let val := bytes_of_string key in
  _ <- S_Lock key ;;
  defer_ (_ <- S_Unlock key ;; Ret tt) (singleKey_body key val).

Section Dir.

(** [fmt.Sprintf("%#v", ls)] for a [[]string]; the suite compares two
    such renderings as strings. *)
Variable Sprintf_v : list string -> string.

(** The statements of [testStorageDir] after [ts.mu.Unlock()]. *)
Definition storageDir_body (dir : string) (val : bytes) : prog unit :=
  let k1 := (dir ++ "/k1")%string in
  let k2 := (dir ++ "/k/a/b")%string in
  let k3 := (dir ++ "/k/c")%string in
  r <- S_List k1 true ;;
  match snd r with
  | None => Fatalf "List(%s, true) should fail: the key doesn't exist" [AString k1]
  | Some _ => Ret tt
  end ;;
  r <- S_List k2 false ;;
  match snd r with
  | None => Fatalf "List(%s, false) should fail: the key doesn't exist" [AString k2]
  | Some _ => Ret tt
  end ;;
  err <- S_Store k1 val ;;
  match err with
  | Some e => Fatalf "Store(%s) failed: %s" [AString k1; AError e]
  | None => Ret tt
  end ;;
  err <- S_Store k2 val ;;
  match err with
  | Some e => Fatalf "Store(%s) failed: %s" [AString k2; AError e]
  | None => Ret tt
  end ;;
  err <- S_Store k3 val ;;
  match err with
  | Some e => Fatalf "Store(%s) failed: %s" [AString k3; AError e]
  | None => Ret tt
  end ;;
  r <- S_Stat dir ;;
  match snd r with
  | Some e => Fatalf "Stat(%s) failed: %s" [AString dir; AError e]
  | None =>
      if negb (String.eqb (certmagic.Key (fst r)) dir)
      then Fatalf "Stat(%s) failed: Key is set to %#v"
                  [AString dir; AString (certmagic.Key (fst r))]
      else if certmagic.IsTerminal (fst r)
      then Fatalf "Stat(%s) failed: IsTerminal should be false for directory keys"
                  [AString dir]
      else Ret tt
  end ;;
  r <- S_Stat k2 ;;
  match snd r with
  | Some e => Fatalf "Stat(%s) failed: %s" [AString k2; AError e]
  | None =>
      if negb (String.eqb (certmagic.Key (fst r)) k2)
      then Fatalf "Stat(%s) failed: Key is set to %#v, but should be %#v"
                  [AString k2; AString (certmagic.Key (fst r)); AString k2]
      else if negb (certmagic.IsTerminal (fst r))
      then Fatalf "Stat(%s) failed: IsTerminal should be true for non-directory keys"
                  [AString k2]
      else Ret tt
  end ;;
  r <- S_List dir false ;;
  match snd r with
  | Some e => Fatalf "List(%s, false) failed: %s" [AString dir; AError e]
  | None =>
      let ls := sort_Strings (fst r) in
      let got := Sprintf_v ls in
      let exp := Sprintf_v [(dir ++ "/k")%string; k1] in
      if negb (String.eqb got exp)
      then Fatalf "List(%s, false) failed: it should return %s, not %s"
                  [AString dir; AString exp; AString got]
      else Ret tt
  end ;;
  r <- S_List dir true ;;
  match snd r with
  | Some e => Fatalf "List(%s, true) failed: %s" [AString dir; AError e]
  | None =>
      let ls := sort_Strings (fst r) in
      let got := Sprintf_v ls in
      let exp := Sprintf_v [(dir ++ "/k")%string;
                            (dir ++ "/k/a")%string;
                            (dir ++ "/k/a/b")%string;
                            (dir ++ "/k/c")%string;
                            k1] in
      if negb (String.eqb got exp)
      then Fatalf "List(%s, true) failed: it should return %s, not %s"
                  [AString dir; AString exp; AString got]
      else Ret tt
  end.

Definition testStorageDir : prog unit :=
  dir <- randKey ;;
  let val := bytes_of_string dir in
  let k1 := (dir ++ "/k1")%string in
  let k2 := (dir ++ "/k/a/b")%string in
  let k3 := (dir ++ "/k/c")%string in
  appendRandKeys [k1; k2; k3] ;;
  storageDir_body dir val.

(** The function registered by [t.Cleanup] in [Run]. *)
Definition cleanup : prog unit :=
  ks <- readRandKeys ;;
  range_ ks (fun k => _ <- S_Delete k ;; Ret tt).

Definition Run : prog unit :=
  t_Cleanup cleanup
    (testLocker ;;
     testStorageSingleKey ;;
     testStorageDir).

End Dir.

(** ** Running programs *)

(** The [Suite] struct: the state behind [S] and [Rng], and [randKeys].
    The mutex [mu] only guards [randKeys]; its critical sections are the
    atomic operations [OAppendRandKeys] and [ORandKeys]. *)
Module Suite.

Record t (St G : Type) : Type := {
  S : St;
  Rng : G;
  randKeys : list string
}.

Arguments S {St G}.
Arguments Rng {St G}.
Arguments randKeys {St G}.

End Suite.

Section Semantics.

Context {St G : Type}.
Variable Sto : certmagic.Storage St.
Variable R : RngImpl G.


(** The state of one run of a test: the suite, what [t.Fatalf] recorded
    (goroutine, format, arguments), the counter of the wait group, the
    rest of every goroutine (number 0 is the test's own) and the storage
    calls made so far with their results, oldest first. *)
Record World : Type := {
  ts : Suite.t St G;
  failures : list (nat * string * list fmt_arg);
  wg : nat;
  goroutines : list (prog unit);
  trace : list (nat * call * value)
}.

Definition do_call (c : call) (st : St) : value * St :=
  match c with
  | CLock key => let '(e, st') := certmagic.Lock Sto key st in (VErr e, st')
  | CUnlock key => let '(e, st') := certmagic.Unlock Sto key st in (VErr e, st')
  | CStore key v => let '(e, st') := certmagic.Store Sto key v st in (VErr e, st')
  | CLoad key => let '(v, e, st') := certmagic.Load Sto key st in (VBytes v e, st')
  | CDelete key => let '(e, st') := certmagic.Delete Sto key st in (VErr e, st')
  | CExists key => let '(b, st') := certmagic.Exists Sto key st in (VBool b, st')
  | CList key r => let '(l, e, st') := certmagic.List Sto key r st in (VStrings l e, st')
  | CStat key => let '(i, e, st') := certmagic.Stat Sto key st in (VInfo i e, st')
  end.

Definition with_ts (w : World) (s : Suite.t St G) : World :=
  {| ts := s; failures := failures w; wg := wg w;
     goroutines := goroutines w; trace := trace w |}.

Definition with_wg (w : World) (n : nat) : World :=
  {| ts := ts w; failures := failures w; wg := n;
     goroutines := goroutines w; trace := trace w |}.

Definition with_goroutines (w : World) (gs : list (prog unit)) : World :=
  {| ts := ts w; failures := failures w; wg := wg w;
     goroutines := gs; trace := trace w |}.

(** One operation of goroutine [tid]; [None] when it cannot proceed:
    [wg.Wait()] on a non-zero counter blocks, and [wg.Done()] on a zero
    counter panics, which ends the model's run. *)
Definition do_op (tid : nat) (o : op) (w : World) : option (value * World) :=
  match o with
  | OCall c =>
      let '(v, st') := do_call c (Suite.S (ts w)) in
      Some (v, {| ts := {| Suite.S := st'; Suite.Rng := Suite.Rng (ts w); Suite.randKeys := Suite.randKeys (ts w) |};
                  failures := failures w; wg := wg w; goroutines := goroutines w;
                  trace := trace w ++ [(tid, c, v)] |})
  | ORngInt =>
      let '(n, g') := Int R (Suite.Rng (ts w)) in
      Some (VInt n, with_ts w {| Suite.S := Suite.S (ts w); Suite.Rng := g'; Suite.randKeys := Suite.randKeys (ts w) |})
  | OAppendRandKeys ks =>
      Some (VUnit, with_ts w {| Suite.S := Suite.S (ts w); Suite.Rng := Suite.Rng (ts w);
                                Suite.randKeys := Suite.randKeys (ts w) ++ ks |})
  | ORandKeys => Some (VStrings (Suite.randKeys (ts w)) None, w)
  | OGosched => Some (VUnit, w)
  | OFail format args =>
      Some (VUnit, {| ts := ts w; failures := failures w ++ [(tid, format, args)];
                      wg := wg w; goroutines := goroutines w; trace := trace w |})
  | OWgAdd delta => Some (VUnit, with_wg w (wg w + delta))
  | OWgDone =>
      match wg w with
      | O => None
      | S n => Some (VUnit, with_wg w n)
      end
  | OWgWait =>
      match wg w with
      | O => Some (VUnit, w)
      | S _ => None
      end
  end.

(** The next step of a program run by goroutine [tid]. *)
Definition step_prog {A : Type} (tid : nat) (p : prog A) (w : World)
  : option (prog A * World) :=
  match p with
  | Ret _ => None
  | Goexit => None
  | Op o k =>
      match do_op tid o w with
      | Some (v, w') => Some (k v, w')
      | None => None
      end
  | Go g k => Some (k, with_goroutines w (goroutines w ++ [g]))
  end.

Fixpoint set_nth {X : Type} (n : nat) (x : X) (l : list X) : list X :=
  match l, n with
  | [], _ => []
  | _ :: l', O => x :: l'
  | y :: l', S n' => y :: set_nth n' x l'
  end.

(** One step of the whole run: goroutine [tid] performs its next
    operation. *)
Definition step (tid : nat) (w : World) : option World :=
  match nth_error (goroutines w) tid with
  | None => None
  | Some p =>
      match step_prog tid p w with
      | None => None
      | Some (p', w') => Some (with_goroutines w' (set_nth tid p' (goroutines w')))
      end
  end.

(** A schedule names the goroutine to run at each step; a goroutine that
    cannot proceed is passed over. *)
Definition run_step (w : World) (tid : nat) : World :=
  match step tid w with
  | Some w' => w'
  | None => w
  end.

Definition run_sched (sched : list nat) (w : World) : World :=
  fold_left run_step sched w.

Definition finished (p : prog unit) : bool :=
  match p with
  | Ret _ | Goexit => true
  | _ => false
  end.

(** The test is over when every goroutine has ended. *)
Definition all_finished (w : World) : bool := forallb finished (goroutines w).

(** The run of a test function [main] on suite [s]. *)
Definition start (s : Suite.t St G) (main : prog unit) : World :=
  {| ts := s; failures := []; wg := 0; goroutines := [main]; trace := [] |}.

(** The sequential reading: the test goroutine runs alone until it returns,
    exits or blocks; goroutines it starts are only recorded. *)
Inductive outcome (A : Type) : Type :=
| Returned (a : A)
| Exited
| Blocked.

Arguments Returned {A}.
Arguments Exited {A}.
Arguments Blocked {A}.

Fixpoint exec {A : Type} (p : prog A) (w : World) : outcome A * World :=
  match p with
  | Ret a => (Returned a, w)
  | Goexit => (Exited, w)
  | Op o k =>
      match do_op 0 o w with
      | Some (v, w') => exec (k v) w'
      | None => (Blocked, w)
      end
  | Go g k => exec k (with_goroutines w (goroutines w ++ [g]))
  end.

(** The storage calls of goroutine [tid] in a trace. *)
Definition calls_of (tid : nat) (tr : list (nat * call * value)) : list (call * value) :=
  map (fun e => (snd (fst e), snd e)) (filter (fun e => Nat.eqb (fst (fst e)) tid) tr).

Definition tagged (tid : nat) (evs : list (call * value)) : list (nat * call * value) :=
  map (fun e => (tid, fst e, snd e)) evs.

End Semantics.

Arguments Returned {A}.
Arguments Exited {A}.
Arguments Blocked {A}.
Arguments World : clear implicits.
Arguments ts {St G}.
Arguments failures {St G}.
Arguments wg {St G}.
Arguments goroutines {St G}.
Arguments trace {St G}.

(** [NewTestSuite]: the suite over storage [s] with the generator
    [rand.New(rand.NewSource(0))].  The package [math/rand] lies outside
    the repository: [rand_New_NewSource seed] stands for the generator's
    initial state, and its [Int] method is an [RngImpl]. *)
Definition NewTestSuite {St Rand : Type} (rand_New_NewSource : Z -> Rand) (s : St)
  : Suite.t St Rand :=
  {| Suite.S := s; Suite.Rng := rand_New_NewSource 0%Z; Suite.randKeys := [] |}.

(** The first [n] results of [Int] from generator state [g]. *)
Fixpoint draws {G : Type} (R : RngImpl G) (n : nat) (g : G) : list Z :=
  match n with
  | O => []
  | S n' => let '(x, g') := Int R g in x :: draws R n' g'
  end.

(** The generator state after [n] calls of [Int]. *)
Fixpoint after_draws {G : Type} (R : RngImpl G) (n : nat) (g : G) : G :=
  match n with
  | O => g
  | S n' => after_draws R n' (snd (Int R g))
  end.

(** The names returned by [n] successive calls of [ts.randKey()]. *)
Fixpoint randKey_names {St G : Type} (Sto : certmagic.Storage St) (R : RngImpl G)
  (n : nat) (w : World St G) : list string :=
  match n with
  | O => []
  | S n' =>
      match exec Sto R randKey w with
      | (Returned key, w') => key :: randKey_names Sto R n' w'
      | _ => []
      end
  end.

(** ** Sample collaborators

    A storage, a generator and a renderer to run the suite on.  None of
    them is code of the repository. *)

Module MemStorage.

(** An in-memory storage with the behaviour the suite asks of a
    [certmagic.Storage] (the repository itself only runs the suite on
    [certmagic.FileStorage], which is certmagic's code).
    Keys with a value are [files]; a key is a directory when a stored key
    continues it after a slash; [locks] are the names held. *)
Record t : Type := {
  files : list (string * string);
  locks : list string
}.

Definition empty : t := {| files := []; locks := [] |}.

Definition has_file (key : string) (m : t) : bool :=
  existsb (fun kv => String.eqb (fst kv) key) (files m).

Definition is_dir (key : string) (m : t) : bool :=
  existsb (fun kv => String.prefix (key ++ "/") (fst kv)) (files m).

Definition remove_file (key : string) (fs : list (string * string)) :=
  filter (fun kv => negb (String.eqb (fst kv) key)) fs.

Definition slash : ascii := "/"%char.

(** Every proper cut of [pre ++ s] at a slash of [s], and [pre ++ s]. *)
Fixpoint cuts (pre s : string) : list string :=
  match s with
  | EmptyString => [pre]
  | String c s' =>
      if Ascii.eqb c slash
      then pre :: cuts (pre ++ "/") s'
      else cuts (pre ++ String c "") s'
  end.

(** The keys that stored key [key] contributes to a listing of [dir]. *)
Definition below (dir : string) (recursive : bool) (key : string) : list string :=
  if String.prefix (dir ++ "/") key
  then
    let n := String.length dir + 1 in
    let cs := cuts (dir ++ "/") (substring n (String.length key - n) key) in
    if recursive then cs else firstn 1 cs
  else [].

Definition Lock (name : string) (m : t) : option error * t :=
  if existsb (String.eqb name) (locks m)
  then (Some "lock timeout", m)
  else (None, {| files := files m; locks := name :: locks m |}).

Definition Unlock (name : string) (m : t) : option error * t :=
  if existsb (String.eqb name) (locks m)
  then (None, {| files := files m;
                 locks := filter (fun l => negb (String.eqb name l)) (locks m) |})
  else (Some "not locked", m).

Definition Store (key : string) (value : bytes) (m : t) : option error * t :=
  if String.eqb key ""
  then (Some "invalid key", m)
  else (None, {| files := (key, content value) :: remove_file key (files m);
                 locks := locks m |}).

Definition Load (key : string) (m : t) : bytes * option error * t :=
  match find (fun kv => String.eqb (fst kv) key) (files m) with
  | Some kv => (Some (snd kv), None, m)
  | None => (None, Some "not found", m)
  end.

Definition Delete (key : string) (m : t) : option error * t :=
  if has_file key m
  then (None, {| files := remove_file key (files m); locks := locks m |})
  else (Some "not found", m).

Definition Exists (key : string) (m : t) : bool * t :=
  (has_file key m || is_dir key m, m).

Definition List (dir : string) (recursive : bool) (m : t) : list string * option error * t :=
  if has_file dir m || is_dir dir m
  then (nodup string_dec (flat_map (below dir recursive) (map fst (files m))), None, m)
  else ([], Some "not found", m).

Definition Stat (key : string) (m : t) : certmagic.KeyInfo * option error * t :=
  match find (fun kv => String.eqb (fst kv) key) (files m) with
  | Some kv =>
      ({| certmagic.Key := key; certmagic.Modified := 0;
          certmagic.Size := Z.of_nat (String.length (snd kv));
          certmagic.IsTerminal := true |}, None, m)
  | None =>
      if is_dir key m
      then ({| certmagic.Key := key; certmagic.Modified := 0; certmagic.Size := 0;
               certmagic.IsTerminal := false |}, None, m)
      else (no_info, Some "not found", m)
  end.

Definition storage : certmagic.Storage t :=
  {| certmagic.Lock := Lock; certmagic.Unlock := Unlock; certmagic.Store := Store;
     certmagic.Load := Load; certmagic.Delete := Delete; certmagic.Exists := Exists;
     certmagic.List := List; certmagic.Stat := Stat |}.

End MemStorage.

(** A generator that counts upwards from its state. *)
Definition counter : RngImpl Z := {| Int := fun n => (n, (n + 1)%Z) |}.

(** A generator that always returns its state. *)
Definition constant : RngImpl Z := {| Int := fun n => (n, n) |}.

Module GoSyntax.

(** The Go-syntax rendering of a [[]string] as [fmt] prints it for
    [%#v], for strings of printable ASCII: each element between double
    quotes with quote and backslash escaped, elements separated by a comma
    and a blank, the whole between [[]string{] and [}]. *)
Definition dquote : ascii := "034"%char.
Definition backslash : ascii := "092"%char.

Fixpoint escape (s : string) : string :=
  match s with
  | EmptyString => EmptyString
  | String c s' =>
      if Ascii.eqb c dquote || Ascii.eqb c backslash
      then String backslash (String c (escape s'))
      else String c (escape s')
  end.

(** [quoted s rest] is the quoted [s] followed by [rest]. *)
Definition quoted (s rest : string) : string :=
  String dquote (escape s ++ String dquote rest).

Fixpoint elements (l : list string) (rest : string) : string :=
  match l with
  | [] => rest
  | [x] => quoted x rest
  | x :: l' => quoted x (", " ++ elements l' rest)
  end.

Definition Sprintf_v (l : list string) : string :=
  "[]string{" ++ elements l "}".

End GoSyntax.

(** ** The checks as the specification words them *)

(** A check is a storage call with what its result must satisfy. *)
Record check : Type := {
  chk_call : call;
  chk_ok : value -> bool
}.

(** Running a list of checks in order against a storage: the calls made
    with their results, whether every check held, and the storage
    afterwards.  The first check that does not hold is the last call. *)
Fixpoint run_checks {St : Type} (Sto : certmagic.Storage St) (cs : list check) (st : St)
  : list (call * value) * bool * St :=
  match cs with
  | [] => ([], true, st)
  | c :: cs' =>
      let '(v, st') := do_call Sto (chk_call c) st in
      if chk_ok c v
      then let '(evs, ok, st'') := run_checks Sto cs' st' in
           ((chk_call c, v) :: evs, ok, st'')
      else ([(chk_call c, v)], false, st')
  end.

Definition fails (v : value) : bool :=
  match err_of v with
  | Some _ => true
  | None => false
  end.

Definition succeeds (v : value) : bool := negb (fails v).

Definition is_false (v : value) : bool := negb (bool_of v).
Definition is_true (v : value) : bool := bool_of v.

(** The eleven steps of the single-key lifecycle. *)
Definition lifecycle_checks (key : string) (val : bytes) : list check :=
  [ {| chk_call := CExists key; chk_ok := is_false |};
    {| chk_call := CLoad key; chk_ok := fails |};
    {| chk_call := CStat key; chk_ok := fails |};
    {| chk_call := CStore "" (Some ""); chk_ok := fails |};
    {| chk_call := CStore key None; chk_ok := succeeds |};
    {| chk_call := CStore key (Some ""); chk_ok := succeeds |};
    {| chk_call := CStore key val; chk_ok := succeeds |};
    {| chk_call := CExists key; chk_ok := is_true |};
    {| chk_call := CLoad key;
       chk_ok := fun v => succeeds v && bytes_Equal val (bytes_of v) |};
    {| chk_call := CDelete key; chk_ok := succeeds |};
    {| chk_call := CExists key; chk_ok := is_false |} ].

Fixpoint strings_eqb (a b : list string) : bool :=
  match a, b with
  | [], [] => true
  | x :: a', y :: b' => String.eqb x y && strings_eqb a' b'
  | _, _ => false
  end.

(** The hierarchical listing check on directory [dir]: what precedes the
    stores, the stores, and what follows them.  [same got exp] decides
    whether a sorted listing is the expected one. *)
Definition dir_before (dir : string) : list check :=
  [ {| chk_call := CList (dir ++ "/k1")%string true; chk_ok := fails |};
    {| chk_call := CList (dir ++ "/k/a/b")%string false; chk_ok := fails |} ].

Definition dir_stores (dir : string) (val : bytes) : list check :=
  [ {| chk_call := CStore (dir ++ "/k1")%string val; chk_ok := succeeds |};
    {| chk_call := CStore (dir ++ "/k/a/b")%string val; chk_ok := succeeds |};
    {| chk_call := CStore (dir ++ "/k/c")%string val; chk_ok := succeeds |} ].

Definition dir_after (same : list string -> list string -> bool) (dir : string)
  : list check :=
  [ {| chk_call := CStat dir;
       chk_ok := fun v => succeeds v
                          && String.eqb (certmagic.Key (info_of v)) dir
                          && negb (certmagic.IsTerminal (info_of v)) |};
    {| chk_call := CStat (dir ++ "/k/a/b")%string;
       chk_ok := fun v => succeeds v
                          && String.eqb (certmagic.Key (info_of v)) (dir ++ "/k/a/b")%string
                          && certmagic.IsTerminal (info_of v) |};
    {| chk_call := CList dir false;
       chk_ok := fun v => succeeds v
                          && same (sort_Strings (strings_of v))
                                  [(dir ++ "/k")%string; (dir ++ "/k1")%string] |};
    {| chk_call := CList dir true;
       chk_ok := fun v => succeeds v
                          && same (sort_Strings (strings_of v))
                                  [(dir ++ "/k")%string; (dir ++ "/k/a")%string; (dir ++ "/k/a/b")%string;
                                   (dir ++ "/k/c")%string; (dir ++ "/k1")%string] |} ].

Definition dir_checks (same : list string -> list string -> bool) (dir : string)
  (val : bytes) : list check :=
  dir_before dir ++ dir_stores dir val ++ dir_after same dir.

(** The comparison the code makes: of the two renderings. *)
Definition same_rendering (Sprintf_v : list string -> string) (got exp : list string)
  : bool :=
  String.eqb (Sprintf_v got) (Sprintf_v exp).

Definition is_store (c : call) : bool :=
  match c with
  | CStore _ _ => true
  | _ => false
  end.

Definition is_stat (c : call) : bool :=
  match c with
  | CStat _ => true
  | _ => false
  end.

(** The calls of a trace that come before its first [Store]. *)
Fixpoint before_first_store (evs : list (call * value)) : list (call * value) :=
  match evs with
  | [] => []
  | e :: evs' => if is_store (fst e) then [] else e :: before_first_store evs'
  end.

(** The test goroutine's part of a state, for results of [exec]. *)
Definition failures_of {St G : Type} (tid : nat) (w : World St G)
  : list (string * list fmt_arg) :=
  map (fun f => (snd (fst f), snd f))
      (filter (fun f => Nat.eqb (fst (fst f)) tid) (failures w)).

(** [scripted next p cs]: program [p] makes the calls of [cs] in order,
    goes on after each result that satisfies its check, calls [t.Fatalf]
    on any other result, and continues as [next] after the last check. *)
Inductive scripted (next : prog unit) : prog unit -> list check -> Prop :=
| scripted_nil : scripted next next []
| scripted_cons (c : check) (cs : list check) (k : value -> prog unit) :
    (forall v, chk_ok c v = true -> scripted next (k v) cs) ->
    (forall v, chk_ok c v = false -> exists format args, k v = Fatalf format args) ->
    scripted next (Op (OCall (chk_call c)) k) (c :: cs).

(** The state after the test goroutine made the calls [evs], left the
    storage in [st] and recorded the failures [fl]. *)
Definition after_calls {St G : Type} (w : World St G) (st : St)
  (evs : list (call * value)) (fl : list (string * list fmt_arg)) : World St G :=
  {| ts := {| Suite.S := st; Suite.Rng := Suite.Rng (ts w);
              Suite.randKeys := Suite.randKeys (ts w) |};
     failures := failures w ++ map (fun f => (0, fst f, snd f)) fl;
     wg := wg w;
     goroutines := goroutines w;
     trace := trace w ++ tagged 0 evs |}.

(** ** Sample runs *)

(** The suite [NewTestSuite] builds over the empty in-memory storage when
    the generator seeded with [seed] is the counter starting at [seed]. *)
Definition sample_suite : Suite.t MemStorage.t Z :=
  NewTestSuite (fun seed => seed) MemStorage.empty.

(** A state in which no goroutine but the test's own exists. *)
Definition sample_world : World MemStorage.t Z := start sample_suite (Ret tt).

(** The in-memory storage with a fault: [Load] returns other bytes than
    were stored. *)
Definition corrupting : certmagic.Storage MemStorage.t :=
  {| certmagic.Lock := MemStorage.Lock;
     certmagic.Unlock := MemStorage.Unlock;
     certmagic.Store := MemStorage.Store;
     certmagic.Load := fun key m =>
       match MemStorage.Load key m with
       | (Some _, None, m') => (Some "corrupt", None, m')
       | r => r
       end;
     certmagic.Delete := MemStorage.Delete;
     certmagic.Exists := MemStorage.Exists;
     certmagic.List := MemStorage.List;
     certmagic.Stat := MemStorage.Stat |}.

(** A schedule for [Run]: the test goroutine as far as it gets, each of
    the ten workers to its end, the test goroutine again. *)
Definition workers_in_turn : list nat :=
  repeat 0 40 ++ flat_map (fun tid => repeat tid 20) (seq 1 10) ++ repeat 0 80.

Definition is_delete (c : call) : bool :=
  match c with
  | CDelete _ => true
  | _ => false
  end.

(** ** What the goroutines of [testLocker] have done so far *)

(** A key as [randKey] builds it from a result of the generator. *)
Definition mk_key (n : Z) : string := (KeyPrefix ++ Itoa n)%string.

(** Every key twice, in order: the keys of the workers started for them. *)
Fixpoint twice (l : list string) : list string :=
  match l with
  | [] => []
  | k :: l' => k :: k :: twice l'
  end.

(** The three checks [testLocker] makes itself, on its key [K]. *)
Definition locker_checks (K : string) : list check :=
  [ {| chk_call := CUnlock K; chk_ok := fails |};
    {| chk_call := CLock K; chk_ok := succeeds |};
    {| chk_call := CUnlock K; chk_ok := succeeds |} ].

(** A call with its result is what check [c] accepts. *)
Definition passed (c : check) (e : call * value) : Prop :=
  fst e = chk_call c /\ chk_ok c (snd e) = true.

(** What is left of one iteration of [test] once [Lock] has succeeded and
    [runtime.Gosched] has returned; [n] iterations follow. *)
Definition unlock_rest (key : string) (n : nat) : prog unit :=
  err <- S_Unlock key ;;
  match err with
  | Some e => Fatalf "Storage.Unlock failed: %s" [AError e]
  | None => test_loop key n
  end.

(** The calls of one completed iteration of a worker: a [Lock] that
    returned an error, or a [Lock] and an [Unlock] that both succeeded. *)
Inductive iteration (key : string) : list (call * value) -> Prop :=
| iteration_timeout (e : error) :
    iteration key [(CLock key, VErr (Some e))]
| iteration_locked :
    iteration key [(CLock key, VErr None); (CUnlock key, VErr None)].

Inductive iterations (key : string) : nat -> list (call * value) -> Prop :=
| iterations_O : iterations key 0 []
| iterations_S (n : nat) (h it : list (call * value)) :
    iterations key n h -> iteration key it -> iterations key (S n) (h ++ it).

(** The calls of the iteration in which [Unlock] returned error [e]. *)
Definition failed_iteration (key : string) (e : error) : list (call * value) :=
  [(CLock key, VErr None); (CUnlock key, VErr (Some e))].

Definition unlock_failure (e : error) : string * list fmt_arg :=
  ("Storage.Unlock failed: %s", [AError e]).

(** [worker_at key p h f]: a worker for [key] that has made the calls [h]
    and recorded the failures [f] has [p] left to run. *)
Inductive worker_at (key : string)
  : prog unit -> list (call * value) -> list (string * list fmt_arg) -> Prop :=
| at_lock (n : nat) (h : list (call * value)) :
    n <= 5 -> iterations key (5 - n) h ->
    worker_at key (defer_ wg_Done (test_loop key n)) h []
| at_sched (n : nat) (h : list (call * value)) :
    n < 5 -> iterations key (4 - n) h ->
    worker_at key (defer_ wg_Done (Gosched ;; unlock_rest key n))
              (h ++ [(CLock key, VErr None)]) []
| at_unlock (n : nat) (h : list (call * value)) :
    n < 5 -> iterations key (4 - n) h ->
    worker_at key (defer_ wg_Done (unlock_rest key n))
              (h ++ [(CLock key, VErr None)]) []
| at_fail (n : nat) (h : list (call * value)) (e : error) :
    n < 5 -> iterations key (4 - n) h ->
    worker_at key (defer_ wg_Done (Fatalf "Storage.Unlock failed: %s" [AError e]))
              (h ++ failed_iteration key e) []
| at_exit (n : nat) (h : list (call * value)) (e : error) :
    n < 5 -> iterations key (4 - n) h ->
    worker_at key (defer_ wg_Done Goexit)
              (h ++ failed_iteration key e) [unlock_failure e]
| at_gone (n : nat) (h : list (call * value)) (e : error) :
    n < 5 -> iterations key (4 - n) h ->
    worker_at key Goexit (h ++ failed_iteration key e) [unlock_failure e]
| at_ret (h : list (call * value)) :
    iterations key 5 h ->
    worker_at key (Ret tt) h [].

(** The goroutines that have not ended. *)
Definition pending (ps : list (prog unit)) : nat :=
  List.length (filter (fun p => negb (finished p)) ps).

Section LockerInvariant.

Context {St G : Type}.
Variable Sto : certmagic.Storage St.
Variable R : RngImpl G.

(** The generator state [g0] with which [testLocker] starts. *)
Variable g0 : G.

(** [main_at p h f g keys extra]: the test goroutine running [testLocker]
    has [p] left to run after making the calls [h] and recording the
    failures [f]; the generator is then in state [g], workers have been
    started for [keys], and [extra] counts a [wg.Add(1)] whose goroutine is
    not started yet.  [c] keys have gone through the outer loop, [i] are to
    come, [j] workers are to come for the current key. *)
Inductive main_at
  : prog unit -> list (call * value) -> list (string * list fmt_arg) -> G
    -> list string -> nat -> Prop :=
| main_start :
    main_at testLocker [] [] g0 [] 0
| main_check (done rest : list check) (c : check) (p : prog unit)
    (h : list (call * value)) :
    locker_checks (Itoa (fst (Int R g0))) = done ++ c :: rest ->
    scripted lock_stress p (c :: rest) ->
    Forall2 passed done h ->
    main_at p h [] (snd (Int R g0)) [] 0
| main_failing (done rest : list check) (c : check) (h : list (call * value))
    (v : value) (format : string) (args : list fmt_arg) :
    locker_checks (Itoa (fst (Int R g0))) = done ++ c :: rest ->
    Forall2 passed done h ->
    chk_ok c v = false ->
    main_at (Fatalf format args) (h ++ [(chk_call c, v)]) [] (snd (Int R g0)) [] 0
| main_exited (done rest : list check) (c : check) (h : list (call * value))
    (v : value) (format : string) (args : list fmt_arg) :
    locker_checks (Itoa (fst (Int R g0))) = done ++ c :: rest ->
    Forall2 passed done h ->
    chk_ok c v = false ->
    main_at Goexit (h ++ [(chk_call c, v)]) [(format, args)] (snd (Int R g0)) [] 0
| main_keys (c i : nat) (h : list (call * value)) (keys : list string) :
    c + i = 5 ->
    Forall2 passed (locker_checks (Itoa (fst (Int R g0)))) h ->
    keys = twice (map mk_key (draws R c (snd (Int R g0)))) ->
    main_at (spawn_keys i ;; wg_Wait) h []
            (after_draws R c (snd (Int R g0))) keys 0
| main_add (c i j : nat) (h : list (call * value)) (keys : list string) :
    c + S i = 5 -> j < 2 ->
    Forall2 passed (locker_checks (Itoa (fst (Int R g0)))) h ->
    keys = twice (map mk_key (draws R c (snd (Int R g0))))
           ++ repeat (mk_key (fst (Int R (after_draws R c (snd (Int R g0)))))) (1 - j) ->
    main_at ((spawn_workers (mk_key (fst (Int R (after_draws R c (snd (Int R g0))))))
                            (S j) ;;
              spawn_keys i) ;;
             wg_Wait)
            h [] (after_draws R (S c) (snd (Int R g0))) keys 0
| main_go (c i j : nat) (h : list (call * value)) (keys : list string) :
    c + S i = 5 -> j < 2 ->
    Forall2 passed (locker_checks (Itoa (fst (Int R g0)))) h ->
    keys = twice (map mk_key (draws R c (snd (Int R g0))))
           ++ repeat (mk_key (fst (Int R (after_draws R c (snd (Int R g0)))))) (1 - j) ->
    main_at (Go (worker (mk_key (fst (Int R (after_draws R c (snd (Int R g0)))))))
                ((spawn_workers (mk_key (fst (Int R (after_draws R c (snd (Int R g0))))))
                                j ;;
                  spawn_keys i) ;;
                 wg_Wait))
            h [] (after_draws R (S c) (snd (Int R g0))) keys 1
| main_ret (h : list (call * value)) (keys : list string) :
    Forall2 passed (locker_checks (Itoa (fst (Int R g0)))) h ->
    keys = twice (map mk_key (draws R 5 (snd (Int R g0)))) ->
    main_at (Ret tt) h [] (after_draws R 5 (snd (Int R g0))) keys 0.

(** The workers [ps], numbered from [tid], run for [keys], each with its
    own calls and failures in state [w]. *)
Fixpoint workers_at (w : World St G) (tid : nat) (keys : list string)
  (ps : list (prog unit)) : Prop :=
  match keys, ps with
  | [], [] => True
  | key :: keys', p :: ps' =>
      worker_at key p (calls_of tid (trace w)) (failures_of tid w)
      /\ workers_at w (S tid) keys' ps'
  | _, _ => False
  end.

(** What holds of every state of a run of [testLocker]. *)
Definition locker_inv (w : World St G) : Prop :=
  exists (main : prog unit) (ws : list (prog unit)) (keys : list string) (extra : nat),
    goroutines w = main :: ws
    /\ main_at main (calls_of 0 (trace w)) (failures_of 0 w) (Suite.Rng (ts w))
               keys extra
    /\ workers_at w 1 keys ws
    /\ wg w = pending ws + extra
    /\ (forall tid, List.length (goroutines w) <= tid ->
                    calls_of tid (trace w) = [] /\ failures_of tid w = [])
    /\ (main = Ret tt -> pending ws = 0).

End LockerInvariant.

(** The in-memory storage with a lenient [Unlock]: a name once locked can
    be unlocked again and again. *)
Definition lenient : certmagic.Storage MemStorage.t :=
  {| certmagic.Lock := MemStorage.Lock;
     certmagic.Unlock := fun name m =>
       if existsb (String.eqb name) (MemStorage.locks m)
       then (None, m)
       else (Some "not locked", m);
     certmagic.Store := MemStorage.Store;
     certmagic.Load := MemStorage.Load;
     certmagic.Delete := MemStorage.Delete;
     certmagic.Exists := MemStorage.Exists;
     certmagic.List := MemStorage.List;
     certmagic.Stat := MemStorage.Stat |}.

Definition is_unlock_of (K : string) (e : nat * call * value) : bool :=
  match snd (fst e) with
  | CUnlock key => String.eqb key K
  | _ => false
  end.

(** A schedule in which the test goroutine starts the first four workers
    and the third of them, the first for the second key, then runs one
    step. *)
Definition second_key_first : list nat := repeat 0 14 ++ [3].

(** ** Further properties of the suite *)

(** Byte [c] occurs in [s]. *)
Fixpoint contains (c : ascii) (s : string) : bool :=
  match s with
  | EmptyString => false
  | String x s' => Ascii.eqb x c || contains c s'
  end.

(** The key (or lock name) a storage call is made on. *)
Definition key_of (c : call) : string :=
  match c with
  | CLock key | CUnlock key | CStore key _ | CLoad key | CDelete key
  | CExists key | CList key _ | CStat key => key
  end.

(** The methods the hierarchical listing check uses. *)
Definition list_store_stat (c : call) : bool :=
  match c with
  | CList _ _ | CStore _ _ | CStat _ => true
  | _ => false
  end.

(** The lock discipline of one goroutine on the lock [key]: following its
    calls [h] in order, [Lock] is only called while the goroutine does not
    hold the lock and [Unlock] only while it does; the goroutine holds the
    lock after a [Lock] that returned no error, and may still hold it
    after an [Unlock] that returned one.  The result is [None] when a call
    is out of turn or on another key, and otherwise tells whether the lock
    is held after [h]. *)
Fixpoint holds_after (key : string) (held : bool) (h : list (call * value))
  : option bool :=
  match h with
  | [] => Some held
  | (c, v) :: h' =>
      match c with
      | CLock k =>
          if negb held && String.eqb k key
          then holds_after key (succeeds v) h'
          else None
      | CUnlock k =>
          if held && String.eqb k key
          then holds_after key (fails v) h'
          else None
      | _ => None
      end
  end.

(** [length (calls_of 0 tr) + ... + length (calls_of (n - 1) tr)]. *)
Definition calls_below (n : nat) (tr : list (nat * call * value)) : nat :=
  list_sum (map (fun tid => List.length (calls_of tid tr)) (seq 0 n)).

(** The in-memory storage with a lock that does not exclude: [Lock]
    succeeds whoever holds the name. *)
Definition unguarded : certmagic.Storage MemStorage.t :=
  {| certmagic.Lock := fun name m =>
       (None, {| MemStorage.files := MemStorage.files m;
                 MemStorage.locks :=
                   name :: filter (fun l => negb (String.eqb name l)) (MemStorage.locks m) |});
     certmagic.Unlock := MemStorage.Unlock;
     certmagic.Store := MemStorage.Store;
     certmagic.Load := MemStorage.Load;
     certmagic.Delete := MemStorage.Delete;
     certmagic.Exists := MemStorage.Exists;
     certmagic.List := MemStorage.List;
     certmagic.Stat := MemStorage.Stat |}.

(** A schedule in which the test goroutine starts the two workers of the
    first key, both call [Lock], and then each goes on to its [Unlock]. *)
Definition both_lock_first : list nat := repeat 0 9 ++ [1; 2; 1; 1; 2; 2; 2].

(** The in-memory storage with an [Unlock] that never complains. *)
Definition always_unlocks : certmagic.Storage MemStorage.t :=
  {| certmagic.Lock := MemStorage.Lock;
     certmagic.Unlock := fun name m =>
       (None, {| MemStorage.files := MemStorage.files m;
                 MemStorage.locks :=
                   filter (fun l => negb (String.eqb name l)) (MemStorage.locks m) |});
     certmagic.Store := MemStorage.Store;
     certmagic.Load := MemStorage.Load;
     certmagic.Delete := MemStorage.Delete;
     certmagic.Exists := MemStorage.Exists;
     certmagic.List := MemStorage.List;
     certmagic.Stat := MemStorage.Stat |}.

(** [cost_le p n]: whatever its operations return, [p] and the goroutines
    it starts take [n] steps at most together. *)
Fixpoint cost_le {A : Type} (p : prog A) (n : nat) : Prop :=
  match p with
  | Ret _ => True
  | Goexit => True
  | Op _ k => exists m, S m <= n /\ forall v, cost_le (k v) m
  | Go g k => exists a b, S (a + b) <= n /\ cost_le g a /\ cost_le k b
  end.

(** The steps all goroutines of a state can still take together. *)
Definition world_cost {St G : Type} (w : World St G) (n : nat) : Prop :=
  exists ns, Forall2 (fun m p => cost_le p m) ns (goroutines w) /\ list_sum ns = n.

(** The turns of a schedule at which the goroutine named does take a
    step. *)
Fixpoint steps_taken {St G : Type} (Sto : certmagic.Storage St) (R : RngImpl G)
  (sched : list nat) (w : World St G) : nat :=
  match sched with
  | [] => 0
  | tid :: sched' =>
      match step Sto R tid w with
      | Some w' => S (steps_taken Sto R sched' w')
      | None => steps_taken Sto R sched' w
      end
  end.

(** ** The phases of [Run] *)

(** What [Run] has left to do when its call of [testLocker] has [p] left:
    the rest of [testLocker], the two storage checks, and the function
    registered by [t.Cleanup]. *)
Definition Run_from (Sprintf_v : list string -> string) (p : prog unit) : prog unit :=
  t_Cleanup cleanup
    (bind p (fun _ => bind testStorageSingleKey (fun _ => testStorageDir Sprintf_v))).

(** The state [w] with [F] applied to what the test goroutine has left. *)
Definition map_main {St G : Type} (F : prog unit -> prog unit) (w : World St G)
  : World St G :=
  with_goroutines w
    match goroutines w with
    | [] => []
    | main :: ws => F main :: ws
    end.

(** The test goroutine has ended. *)
Definition main_done {St G : Type} (w : World St G) : bool :=
  match goroutines w with
  | [] => true
  | main :: _ => finished main
  end.

(** A program that starts no goroutine. *)
Fixpoint sequential {A : Type} (p : prog A) : Prop :=
  match p with
  | Ret _ => True
  | Goexit => True
  | Op _ k => forall v, sequential (k v)
  | Go _ _ => False
  end.

(** The number of steps the test goroutine takes in the sequential
    reading. *)
Fixpoint exec_steps {St G A : Type} (Sto : certmagic.Storage St) (R : RngImpl G)
  (p : prog A) (w : World St G) : nat :=
  match p with
  | Ret _ => 0
  | Goexit => 0
  | Op o k =>
      match do_op Sto R 0 o w with
      | Some (v, w') => S (exec_steps Sto R (k v) w')
      | None => 0
      end
  | Go g k => S (exec_steps Sto R k (with_goroutines w (goroutines w ++ [g])))
  end.

(** [seq_inv_of Sto R ws out wf w]: in state [w] the test goroutine runs
    alone beside the ended goroutines [ws], starts no goroutine, and its
    sequential reading from [w] ends with [out] in state [wf]. *)
Definition seq_inv_of {St G : Type} (Sto : certmagic.Storage St) (R : RngImpl G)
  (ws : list (prog unit)) (out : outcome unit) (wf w : World St G) : Prop :=
  exists p,
    goroutines w = p :: ws
    /\ sequential p
    /\ exec Sto R p w = (out, with_goroutines wf (p :: ws)).

(** The three keys the listing check stores below [dir]. *)
Definition dir_keys (dir : string) : list string :=
  [dir ++ "/k1"; dir ++ "/k/a/b"; dir ++ "/k/c"]%string.

(** Every operation of [p] and of the goroutines it starts satisfies
    [P]. *)
Fixpoint ops_in {A : Type} (P : op -> Prop) (p : prog A) : Prop :=
  match p with
  | Ret _ => True
  | Goexit => True
  | Op o k => P o /\ forall v, ops_in P (k v)
  | Go g k => ops_in P g /\ ops_in P k
  end.

(** The operations of [testLocker] and its workers: of the storage only
    [Lock] and [Unlock], and nothing on the tracked keys. *)
Definition lock_op (o : op) : Prop :=
  match o with
  | OCall (CLock _) | OCall (CUnlock _) => True
  | OCall _ => False
  | OAppendRandKeys _ | ORandKeys => False
  | _ => True
  end.

(** ** Tactics for scripted programs *)

(** Case analysis on what a check says of result [v]. *)
Ltac scrutinise v H :=
  unfold succeeds, fails, is_false, is_true in H; cbn [negb andb] in H;
  repeat match type of H with
         | context [err_of v] => destruct (err_of v) eqn:?; cbn [negb andb] in H
         | context [bool_of v] => destruct (bool_of v) eqn:?; cbn [negb andb] in H
         | context [certmagic.IsTerminal (info_of v)] =>
             destruct (certmagic.IsTerminal (info_of v)) eqn:?; cbn [negb andb] in H
         | context [if ?b then _ else _] => destruct b eqn:?; cbn [negb andb] in H
         | context [(?b && _)%bool] => destruct b eqn:?; cbn [negb andb] in H
         | context [negb ?b] => destruct b eqn:?; cbn [negb andb] in H
         end;
  try discriminate H.

(** One call of a scripted program, with both ways on. *)
Ltac script_step :=
  lazymatch goal with
  | |- scripted _ _ [] => apply scripted_nil
  | |- scripted ?next (Op (OCall _) ?k) (?c :: ?cs) =>
      apply (scripted_cons next c cs k);
      [ let v := fresh "v" in let H := fresh "Hv" in
        intros v H; cbn [chk_ok] in H; cbn [fst snd]; scrutinise v H; try rewrite H;
        cbn [bind fst snd negb andb]
      | let v := fresh "v" in let H := fresh "Hv" in
        intros v H; cbn [chk_ok] in H; cbn [fst snd]; scrutinise v H; try rewrite H;
        cbn [bind fst snd negb andb]; unfold Fatalf; cbn [bind];
        eexists; eexists; reflexivity ]
  end.


(** * Properties *)

(** ** The sequential reading *)

Section Sequential.

Context {St G : Type}.
Variable Sto : certmagic.Storage St.
Variable R : RngImpl G.

Lemma exec_bind {A B : Type} (p : prog A) (f : A -> prog B) (w : World St G) :
  exec Sto R (bind p f) w =
  match exec Sto R p w with
  | (Returned a, w') => exec Sto R (f a) w'
  | (Exited, w') => (Exited, w')
  | (Blocked, w') => (Blocked, w')
  end.
Proof.
  revert w.
  induction p as [A a | A | A o k IH | A g _ k IH]; intros w; cbn [bind exec].
  - reflexivity.
  - reflexivity.
  - destruct (do_op Sto R 0 o w) as [[v w'] |]; [apply IH | reflexivity].
  - apply IH.
Qed.

Lemma exec_defer {A : Type} (d : prog unit) (p : prog A) (w : World St G) :
  exec Sto R (defer_ d p) w =
  match exec Sto R p w with
  | (Returned a, w') => exec Sto R (d ;; Ret a) w'
  | (Exited, w') => exec Sto R (d ;; Goexit) w'
  | (Blocked, w') => (Blocked, w')
  end.
Proof.
  revert w.
  induction p as [A a | A | A o k IH | A g _ k IH]; intros w; cbn [defer_ exec].
  - reflexivity.
  - reflexivity.
  - destruct (do_op Sto R 0 o w) as [[v w'] |]; [apply IH | reflexivity].
  - apply IH.
Qed.

Lemma after_calls_nil (w : World St G) :
  after_calls w (Suite.S (ts w)) [] [] = w.
Proof.
  destruct w as [[s g ks] fl n gs tr]; unfold after_calls; cbn.
  now rewrite !app_nil_r.
Qed.

Lemma tagged_app (tid : nat) (a b : list (call * value)) :
  tagged tid (a ++ b) = tagged tid a ++ tagged tid b.
Proof. apply map_app. Qed.

(** A scripted program run alone does what [run_checks] says. *)
Lemma exec_scripted_then (next p : prog unit) (cs : list check) :
  scripted next p cs ->
  forall w : World St G,
    exists fl,
      exec Sto R p w =
      (if snd (fst (run_checks Sto cs (Suite.S (ts w))))
       then exec Sto R next
                 (after_calls w (snd (run_checks Sto cs (Suite.S (ts w))))
                              (fst (fst (run_checks Sto cs (Suite.S (ts w))))) fl)
       else (Exited,
             after_calls w (snd (run_checks Sto cs (Suite.S (ts w))))
                         (fst (fst (run_checks Sto cs (Suite.S (ts w))))) fl))
      /\ List.length fl =
         (if snd (fst (run_checks Sto cs (Suite.S (ts w)))) then 0 else 1).
Proof.
  induction 1 as [| c cs k Hok IH Hko]; intros w.
  - exists []. cbn. now rewrite after_calls_nil.
  - cbn [exec do_op run_checks].
    destruct (do_call Sto (chk_call c) (Suite.S (ts w))) as [v st'] eqn:Hcall.
    destruct (chk_ok c v) eqn:Hv.
    + specialize (IH v Hv
        {| ts := {| Suite.S := st'; Suite.Rng := Suite.Rng (ts w);
                    Suite.randKeys := Suite.randKeys (ts w) |};
           failures := failures w; wg := wg w; goroutines := goroutines w;
           trace := trace w ++ [(0, chk_call c, v)] |}).
      destruct IH as (fl & IH & Hlen). cbn [ts Suite.S] in IH, Hlen.
      destruct (run_checks Sto cs st') as [[evs ok] st''].
      exists fl. cbn [fst snd] in *. split; [| exact Hlen].
      rewrite IH.
      assert (E : forall x y : World St G, x = y ->
                  (if ok then exec Sto R next x else (Exited, x))
                  = (if ok then exec Sto R next y else (Exited, y)))
        by (now intros x y ->).
      apply E. unfold after_calls. cbn. now rewrite <- app_assoc.
    + destruct (Hko v Hv) as (format & args & Hk).
      exists [(format, args)]. rewrite Hk. cbn. split; reflexivity.
Qed.

Lemma exec_scripted (p : prog unit) (cs : list check) :
  scripted (Ret tt) p cs ->
  forall w : World St G,
    exists fl,
      exec Sto R p w =
      (if snd (fst (run_checks Sto cs (Suite.S (ts w)))) then Returned tt else Exited,
       after_calls w (snd (run_checks Sto cs (Suite.S (ts w))))
                   (fst (fst (run_checks Sto cs (Suite.S (ts w))))) fl)
      /\ List.length fl =
         (if snd (fst (run_checks Sto cs (Suite.S (ts w)))) then 0 else 1).
Proof.
  intros Hs w. destruct (exec_scripted_then _ _ _ Hs w) as (fl & Hex & Hlen).
  exists fl. split; [| exact Hlen]. rewrite Hex.
  now destruct (snd (fst (run_checks Sto cs (Suite.S (ts w))))).
Qed.

End Sequential.

(** ** The single-key lifecycle check *)

Lemma singleKey_body_scripted (key : string) (val : bytes) :
  scripted (Ret tt) (singleKey_body key val) (lifecycle_checks key val).
Proof.
  unfold singleKey_body, lifecycle_checks, S_Exists, S_Load, S_Stat, S_Store, S_Delete.
  cbn [bind].
  do 12 script_step.
Qed.

Section SingleKey.

Context {St G : Type}.
Variable Sto : certmagic.Storage St.
Variable R : RngImpl G.

(** The whole of [testStorageSingleKey] run by the test goroutine. *)
Lemma testStorageSingleKey_exec (w : World St G) :
  let key := (KeyPrefix ++ Itoa (fst (Int R (Suite.Rng (ts w)))))%string in
  let lk := certmagic.Lock Sto key (Suite.S (ts w)) in
  let chk := run_checks Sto (lifecycle_checks key (Some key)) (snd lk) in
  let ul := certmagic.Unlock Sto key (snd chk) in
  exists fl,
    exec Sto R testStorageSingleKey w =
    (if snd (fst chk) then Returned tt else Exited,
     {| ts := {| Suite.S := snd ul;
                 Suite.Rng := snd (Int R (Suite.Rng (ts w)));
                 Suite.randKeys := Suite.randKeys (ts w) |};
        failures := failures w ++ map (fun f => (0, fst f, snd f)) fl;
        wg := wg w;
        goroutines := goroutines w;
        trace := trace w ++
                 tagged 0 ((CLock key, VErr (fst lk)) :: fst (fst chk)
                           ++ [(CUnlock key, VErr (fst ul))]) |})
    /\ List.length fl = (if snd (fst chk) then 0 else 1).
Proof.
  intros key lk chk ul.
  unfold testStorageSingleKey, randKey, Rng_Int, S_Lock, bytes_of_string.
  cbn [bind exec do_op do_call int_of err_of].
  destruct (Int R (Suite.Rng (ts w))) as [n g'] eqn:Hint.
  cbn [fst snd] in key |- *. fold key.
  cbn [bind exec do_op do_call int_of err_of with_ts ts Suite.S Suite.Rng Suite.randKeys
       failures wg goroutines trace].
  fold key.
  destruct (certmagic.Lock Sto key (Suite.S (ts w))) as [e1 st1] eqn:Hlk.
  rewrite exec_defer.
  match goal with
  | |- context [exec Sto R (singleKey_body key (Some key)) ?w1] =>
      destruct (exec_scripted Sto R _ _ (singleKey_body_scripted key (Some key)) w1)
        as (fl & Hex & Hlen)
  end.
  cbn [ts Suite.S] in Hex, Hlen. rewrite Hex. clear Hex.
  subst lk. cbn [fst snd] in chk. subst chk ul.
  destruct (run_checks Sto (lifecycle_checks key (Some key)) st1) as [[evs ok] st2].
  cbn [fst snd] in *.
  exists fl. split; [| exact Hlen].
  destruct ok; unfold S_Unlock, after_calls;
    cbn [bind exec do_op do_call ts Suite.S Suite.Rng Suite.randKeys
         failures wg goroutines trace];
    destruct (certmagic.Unlock Sto key st2) as [e2 st3]; cbn [fst snd];
    (f_equal; f_equal; unfold tagged; cbn [map];
     rewrite <- !app_assoc; cbn [app]; rewrite map_app; reflexivity).
Qed.

End SingleKey.

(** ** Facts about [run_checks] *)

Section Checks.

Context {St : Type}.
Variable Sto : certmagic.Storage St.

(** The calls made are an initial part of the script, and every check
    held exactly when each call of the script has a result that
    satisfies it. *)
Lemma run_checks_sound (cs : list check) (st : St) :
  map fst (fst (fst (run_checks Sto cs st))) =
    firstn (List.length (fst (fst (run_checks Sto cs st)))) (map chk_call cs)
  /\ (snd (fst (run_checks Sto cs st)) = true <->
      Forall2 (fun c e => fst e = chk_call c /\ chk_ok c (snd e) = true)
              cs (fst (fst (run_checks Sto cs st)))).
Proof.
  revert st. induction cs as [| c cs IH]; intros st; cbn [run_checks].
  - cbn. split; [reflexivity | split; [constructor | reflexivity]].
  - destruct (do_call Sto (chk_call c) st) as [v st'].
    destruct (chk_ok c v) eqn:Hv.
    + specialize (IH st').
      destruct (run_checks Sto cs st') as [[evs ok] st'']. cbn [fst snd] in *.
      destruct IH as [IH1 IH2]. split.
      * cbn. now rewrite IH1 at 1.
      * split.
        -- intros Hok. constructor; [now split | now apply IH2].
        -- intros HF. inversion HF; subst. now apply IH2.
    + cbn [fst snd]. split.
      * reflexivity.
      * split; [discriminate |].
        intros HF. inversion HF as [| ? ? ? ? [_ Hc] _]; subst.
        cbn in Hc. congruence.
Qed.

Lemma run_checks_app (a b : list check) (st : St) :
  run_checks Sto (a ++ b) st =
  (if snd (fst (run_checks Sto a st))
   then (fst (fst (run_checks Sto a st))
           ++ fst (fst (run_checks Sto b (snd (run_checks Sto a st)))),
         snd (fst (run_checks Sto b (snd (run_checks Sto a st)))),
         snd (run_checks Sto b (snd (run_checks Sto a st))))
   else run_checks Sto a st).
Proof.
  revert st. induction a as [| c a IH]; intros st.
  - cbn. now destruct (run_checks Sto b st) as [[? ?] ?].
  - change ((c :: a) ++ b) with (c :: (a ++ b)). cbn [run_checks].
    destruct (do_call Sto (chk_call c) st) as [v st'].
    destruct (chk_ok c v).
    + rewrite IH.
      destruct (run_checks Sto a st') as [[ea oka] sta]. cbn [fst snd].
      destruct oka; reflexivity.
    + reflexivity.
Qed.

(** Checks that decide alike run alike. *)
Lemma run_checks_ext (cs cs' : list check) :
  Forall2 (fun c c' => chk_call c = chk_call c' /\ forall v, chk_ok c v = chk_ok c' v)
          cs cs' ->
  forall st, run_checks Sto cs st = run_checks Sto cs' st.
Proof.
  induction 1 as [| c c' cs cs' [Hc Hk] _ IH]; intros st; cbn [run_checks].
  - reflexivity.
  - rewrite <- Hc. destruct (do_call Sto (chk_call c) st) as [v st'].
    rewrite <- Hk. destruct (chk_ok c v); [now rewrite IH | reflexivity].
Qed.

Lemma run_checks_cons (c : check) (cs : list check) (st : St) :
  run_checks Sto (c :: cs) st =
  (if chk_ok c (fst (do_call Sto (chk_call c) st))
   then ((chk_call c, fst (do_call Sto (chk_call c) st))
           :: fst (fst (run_checks Sto cs (snd (do_call Sto (chk_call c) st)))),
         snd (fst (run_checks Sto cs (snd (do_call Sto (chk_call c) st)))),
         snd (run_checks Sto cs (snd (do_call Sto (chk_call c) st))))
   else ([(chk_call c, fst (do_call Sto (chk_call c) st))], false,
         snd (do_call Sto (chk_call c) st))).
Proof.
  cbn [run_checks]. destruct (do_call Sto (chk_call c) st) as [v st'].
  cbn [fst snd]. destruct (chk_ok c v); [| reflexivity].
  now destruct (run_checks Sto cs st') as [[? ?] ?].
Qed.

(** A non-empty script makes at least its first call. *)
Lemma run_checks_head (c : check) (cs : list check) (st : St) :
  exists rest,
    fst (fst (run_checks Sto (c :: cs) st))
    = (chk_call c, fst (do_call Sto (chk_call c) st)) :: rest.
Proof.
  rewrite run_checks_cons. destruct (chk_ok c _); cbn [fst]; eauto.
Qed.

(** The last call of a run is never missing: a non-empty script makes at
    least its first call. *)
Lemma run_checks_nonempty (c : check) (cs : list check) (st : St) :
  fst (fst (run_checks Sto (c :: cs) st)) <> [].
Proof.
  cbn [run_checks]. destruct (do_call Sto (chk_call c) st) as [v st'].
  destruct (chk_ok c v).
  - destruct (run_checks Sto cs st') as [[? ?] ?]. discriminate.
  - discriminate.
Qed.

(** Every call made belongs to the script. *)
Lemma run_checks_calls_in (cs : list check) (st : St) (e : call * value) :
  In e (fst (fst (run_checks Sto cs st))) -> In (fst e) (map chk_call cs).
Proof.
  intros Hin. apply (in_map fst) in Hin.
  rewrite (proj1 (run_checks_sound cs st)) in Hin.
  revert Hin. generalize (List.length (fst (fst (run_checks Sto cs st)))).
  intros n Hin. rewrite <- (firstn_skipn n (map chk_call cs)).
  apply in_or_app. now left.
Qed.

End Checks.

Lemma strings_eqb_eq (a b : list string) : strings_eqb a b = true <-> a = b.
Proof.
  revert b. induction a as [| x a IH]; intros [| y b]; cbn; try easy.
  rewrite andb_true_iff, String.eqb_eq, IH. split.
  - now intros [-> ->].
  - intros H. now inversion H.
Qed.

(** For an injective rendering, comparing renderings is comparing slices. *)
Lemma same_rendering_eqb (Sprintf_v : list string -> string) :
  (forall a b, Sprintf_v a = Sprintf_v b -> a = b) ->
  forall got exp, same_rendering Sprintf_v got exp = strings_eqb got exp.
Proof.
  intros Hinj got exp. unfold same_rendering.
  destruct (strings_eqb got exp) eqn:E.
  - apply strings_eqb_eq in E. subst. apply String.eqb_refl.
  - apply String.eqb_neq. intros H. apply Hinj in H.
    apply strings_eqb_eq in H. congruence.
Qed.

(** ** The hierarchical listing check *)

Lemma storageDir_body_scripted (Sprintf_v : list string -> string) (dir : string)
  (val : bytes) :
  scripted (Ret tt) (storageDir_body Sprintf_v dir val)
           (dir_checks (same_rendering Sprintf_v) dir val).
Proof.
  unfold storageDir_body, dir_checks, dir_before, dir_stores, dir_after,
    same_rendering, S_List, S_Stat, S_Store.
  cbn [bind app].
  do 10 script_step.
Qed.

Section StorageDir.

Context {St G : Type}.
Variable Sto : certmagic.Storage St.
Variable R : RngImpl G.
Variable Sprintf_v : list string -> string.

(** The whole of [testStorageDir] run by the test goroutine. *)
Lemma testStorageDir_exec (w : World St G) :
  let dir := (KeyPrefix ++ Itoa (fst (Int R (Suite.Rng (ts w)))))%string in
  let chk := run_checks Sto (dir_checks (same_rendering Sprintf_v) dir (Some dir))
                        (Suite.S (ts w)) in
  exists fl,
    exec Sto R (testStorageDir Sprintf_v) w =
    (if snd (fst chk) then Returned tt else Exited,
     {| ts := {| Suite.S := snd chk;
                 Suite.Rng := snd (Int R (Suite.Rng (ts w)));
                 Suite.randKeys := Suite.randKeys (ts w)
                                   ++ [(dir ++ "/k1")%string; (dir ++ "/k/a/b")%string;
                                       (dir ++ "/k/c")%string] |};
        failures := failures w ++ map (fun f => (0, fst f, snd f)) fl;
        wg := wg w;
        goroutines := goroutines w;
        trace := trace w ++ tagged 0 (fst (fst chk)) |})
    /\ List.length fl = (if snd (fst chk) then 0 else 1).
Proof.
  intros dir chk.
  unfold testStorageDir, randKey, Rng_Int, appendRandKeys, bytes_of_string.
  cbn [bind exec do_op do_call int_of].
  destruct (Int R (Suite.Rng (ts w))) as [n g'] eqn:Hint.
  cbn [fst snd] in dir |- *. fold dir.
  cbn [bind exec do_op do_call int_of with_ts ts Suite.S Suite.Rng Suite.randKeys
       failures wg goroutines trace].
  fold dir.
  match goal with
  | |- context [exec Sto R (storageDir_body Sprintf_v dir (Some dir)) ?w1] =>
      destruct (exec_scripted Sto R _ _
                  (storageDir_body_scripted Sprintf_v dir (Some dir)) w1)
        as (fl & Hex & Hlen)
  end.
  cbn [ts Suite.S] in Hex, Hlen. fold chk in Hex, Hlen.
  exists fl. split; [| exact Hlen]. rewrite Hex. reflexivity.
Qed.

End StorageDir.

(** ** The sample renderer is injective *)

Module GoSyntaxFacts.

Import GoSyntax.

Lemma escape_inj (a b r1 r2 : string) :
  (escape a ++ String dquote r1 = escape b ++ String dquote r2)%string ->
  a = b /\ r1 = r2.
Proof.
  revert b. induction a as [| c a IH]; intros [| d b]; cbn [escape String.append].
  - intros H. now inversion H.
  - destruct (Ascii.eqb d dquote) eqn:E1; cbn [orb].
    + intros H. inversion H.
    + destruct (Ascii.eqb d backslash) eqn:E2; intros H; inversion H.
      subst d. now rewrite Ascii.eqb_refl in E1.
  - destruct (Ascii.eqb c dquote) eqn:E1; cbn [orb].
    + intros H. inversion H.
    + destruct (Ascii.eqb c backslash) eqn:E2; intros H; inversion H.
      subst c. now rewrite Ascii.eqb_refl in E1.
  - destruct (Ascii.eqb c dquote || Ascii.eqb c backslash) eqn:Ec;
      destruct (Ascii.eqb d dquote || Ascii.eqb d backslash) eqn:Ed;
      cbn [String.append]; intros H; inversion H; subst.
    + destruct (IH b) as [-> ->]; [assumption | now split].
    + rewrite Ascii.eqb_refl, orb_true_r in Ed. discriminate.
    + rewrite Ascii.eqb_refl, orb_true_r in Ec. discriminate.
    + destruct (IH b) as [-> ->]; [assumption | now split].
Qed.

Lemma quoted_inj (x y r1 r2 : string) :
  quoted x r1 = quoted y r2 -> x = y /\ r1 = r2.
Proof.
  unfold quoted. intros H. inversion H. now apply escape_inj.
Qed.

Lemma elements_cons (x : string) (l : list string) (rest : string) :
  elements (x :: l) rest =
  quoted x (match l with [] => rest | _ :: _ => ", " ++ elements l rest end)%string.
Proof. destruct l; reflexivity. Qed.

Lemma elements_inj (l l' : list string) :
  elements l "}" = elements l' "}" -> l = l'.
Proof.
  revert l'. induction l as [| x l IH]; intros [| y l'].
  - reflexivity.
  - rewrite elements_cons. unfold quoted. cbn. intros H. inversion H.
  - rewrite elements_cons. unfold quoted. cbn. intros H. inversion H.
  - rewrite !elements_cons. intros H. apply quoted_inj in H. destruct H as [-> H].
    f_equal. destruct l as [| x' l]; destruct l' as [| y' l'].
    + reflexivity.
    + cbn in H. inversion H.
    + cbn in H. inversion H.
    + apply IH. cbn [String.append] in H. now inversion H.
Qed.

Lemma Sprintf_v_inj (a b : list string) : Sprintf_v a = Sprintf_v b -> a = b.
Proof.
  unfold Sprintf_v. cbn [String.append]. intros H. inversion H.
  now apply elements_inj.
Qed.

End GoSyntaxFacts.

(** ** Claims about the single-key lifecycle check *)

Section SingleKeyClaims.

Context {St G : Type}.
Variable Sto : certmagic.Storage St.
Variable R : RngImpl G.

(** C2.  On its fresh key the single-key lifecycle check makes, between
    its [Lock] and its deferred [Unlock], the eleven calls of the lifecycle
    in this order: Exists, Load, Stat, Store with the empty key, Store of
    nil, Store of the empty value, Store of the value, Exists, Load, Delete,
    Exists.  The calls made are an initial part of that sequence; the test
    function returns exactly when each of the eleven calls was made and had
    the result the lifecycle asks for (false, error, error, error, no
    error three times, true, no error with bytes equal to the stored ones,
    no error, false); otherwise it stops through [t.Fatalf] with one
    failure recorded. *)
Theorem testStorageSingleKey_lifecycle (w : World St G) :
  let key := (KeyPrefix ++ Itoa (fst (Int R (Suite.Rng (ts w)))))%string in
  let val := bytes_of_string key in
  let out := fst (exec Sto R testStorageSingleKey w) in
  let w' := snd (exec Sto R testStorageSingleKey w) in
  map chk_call (lifecycle_checks key val) =
    [CExists key; CLoad key; CStat key; CStore "" (Some ""); CStore key None;
     CStore key (Some ""); CStore key val; CExists key; CLoad key; CDelete key;
     CExists key]
  /\ exists lock unlock evs,
      trace w' = trace w ++ tagged 0 (lock :: evs ++ [unlock])
      /\ fst lock = CLock key
      /\ fst unlock = CUnlock key
      /\ map fst evs = firstn (List.length evs) (map chk_call (lifecycle_checks key val))
      /\ (out = Returned tt <->
          Forall2 (fun c e => fst e = chk_call c /\ chk_ok c (snd e) = true)
                  (lifecycle_checks key val) evs)
      /\ (out = Returned tt /\ failures w' = failures w
          \/ out = Exited /\ List.length (failures w') = S (List.length (failures w))).
Proof.
  intros key val out w'. split; [reflexivity |].
  destruct (testStorageSingleKey_exec Sto R w) as (fl & Hex & Hlen).
  fold key in Hex, Hlen.
  set (lk := certmagic.Lock Sto key (Suite.S (ts w))) in *.
  set (chk := run_checks Sto (lifecycle_checks key (Some key)) (snd lk)) in *.
  set (ul := certmagic.Unlock Sto key (snd chk)) in *.
  exists (CLock key, VErr (fst lk)), (CUnlock key, VErr (fst ul)), (fst (fst chk)).
  subst out w'. rewrite Hex. cbn [fst snd trace failures].
  destruct (run_checks_sound Sto (lifecycle_checks key (Some key)) (snd lk))
    as [Hcalls Hok].
  fold chk in Hcalls, Hok.
  repeat split; try assumption.
  - intros Hout. apply Hok. now destruct (snd (fst chk)).
  - intros HF. apply Hok in HF. fold val in HF. unfold val, bytes_of_string in HF.
    now rewrite HF.
  - destruct (snd (fst chk)).
    + left. destruct fl; [| discriminate]. cbn. now rewrite app_nil_r.
    + right. split; [reflexivity |].
      rewrite length_app, length_map, Hlen. lia.
Qed.

(** C10.  The single-key lifecycle check first calls [Lock] on its key and
    last, through [defer], [Unlock] on it; the results of both calls are
    dropped.  Whatever [Lock] returned, an error included, the lifecycle
    calls are made after it (at least the first of them, none of them a
    [Lock] or [Unlock]), and whether the test function returns or stops is
    decided by the lifecycle checks alone. *)
Theorem testStorageSingleKey_lock_ignored (w : World St G) :
  let key := (KeyPrefix ++ Itoa (fst (Int R (Suite.Rng (ts w)))))%string in
  let lk := certmagic.Lock Sto key (Suite.S (ts w)) in
  let chk := run_checks Sto (lifecycle_checks key (bytes_of_string key)) (snd lk) in
  let ul := certmagic.Unlock Sto key (snd chk) in
  let out := fst (exec Sto R testStorageSingleKey w) in
  let w' := snd (exec Sto R testStorageSingleKey w) in
  trace w' = trace w ++ tagged 0 ((CLock key, VErr (fst lk)) :: fst (fst chk)
                                  ++ [(CUnlock key, VErr (fst ul))])
  /\ fst (fst chk) <> []
  /\ Forall (fun e => forall k, fst e <> CLock k /\ fst e <> CUnlock k) (fst (fst chk))
  /\ out = (if snd (fst chk) then Returned tt else Exited)
  /\ List.length (failures w') =
     List.length (failures w) + (if snd (fst chk) then 0 else 1)
  /\ Suite.S (ts w') = snd ul.
Proof.
  intros key lk chk ul out w'.
  destruct (testStorageSingleKey_exec Sto R w) as (fl & Hex & Hlen).
  fold key in Hex, Hlen. fold lk in Hex, Hlen.
  unfold bytes_of_string in chk. fold chk in Hex, Hlen. fold ul in Hex.
  subst out w'. rewrite Hex. cbn [fst snd trace failures ts Suite.S].
  repeat split.
  - apply run_checks_nonempty.
  - apply Forall_forall. intros e Hin k.
    apply run_checks_calls_in in Hin. cbn in Hin.
    split; intros Heq; rewrite Heq in Hin;
      repeat (destruct Hin as [Hin | Hin]; [discriminate |]); exact Hin.
  - rewrite length_app, length_map, Hlen. reflexivity.
Qed.

End SingleKeyClaims.

(** The held lock of the sample run below: [Lock] on the key fails. *)
Example testStorageSingleKey_runs_when_Lock_fails :
  let w := {| ts := {| Suite.S := {| MemStorage.files := [];
                                     MemStorage.locks := ["__test__key__0"] |};
                       Suite.Rng := 0%Z; Suite.randKeys := [] |};
              failures := []; wg := 0; goroutines := []; trace := [] |} in
  let r := exec MemStorage.storage counter testStorageSingleKey w in
  fst r = Returned tt
  /\ nth_error (trace (snd r)) 0
     = Some (0, CLock "__test__key__0", VErr (Some "lock timeout"))
  /\ List.length (trace (snd r)) = 13.
Proof. vm_compute. repeat split. Qed.

(** ** Claims about the hierarchical listing check *)

Section StorageDirClaims.

Context {St G : Type}.
Variable Sto : certmagic.Storage St.
Variable R : RngImpl G.
Variable Sprintf_v : list string -> string.

(** What the nine checks of the listing script say of nine results. *)
Lemma dir_checks_explicit (dir : string) (val : bytes) (evs : list (call * value)) :
  Forall2 (fun c e => fst e = chk_call c /\ chk_ok c (snd e) = true)
          (dir_checks strings_eqb dir val) evs
  <->
  exists v1 v2 v3 v4 v5 v6 v7 v8 v9,
    evs = [(CList (dir ++ "/k1") true, v1); (CList (dir ++ "/k/a/b") false, v2);
           (CStore (dir ++ "/k1") val, v3); (CStore (dir ++ "/k/a/b") val, v4);
           (CStore (dir ++ "/k/c") val, v5);
           (CStat dir, v6); (CStat (dir ++ "/k/a/b"), v7);
           (CList dir false, v8); (CList dir true, v9)]%string
    /\ (fails v1 = true /\ fails v2 = true)
    /\ (err_of v3 = None /\ err_of v4 = None /\ err_of v5 = None)
    /\ (err_of v6 = None /\ certmagic.Key (info_of v6) = dir
        /\ certmagic.IsTerminal (info_of v6) = false)
    /\ (err_of v7 = None /\ certmagic.Key (info_of v7) = (dir ++ "/k/a/b")%string
        /\ certmagic.IsTerminal (info_of v7) = true)
    /\ (err_of v8 = None
        /\ sort_Strings (strings_of v8) = [dir ++ "/k"; dir ++ "/k1"]%string)
    /\ (err_of v9 = None
        /\ sort_Strings (strings_of v9)
           = [dir ++ "/k"; dir ++ "/k/a"; dir ++ "/k/a/b"; dir ++ "/k/c";
              dir ++ "/k1"]%string).
Proof.
  assert (Hs : forall v, succeeds v = true <-> err_of v = None).
  { intros v. unfold succeeds, fails. destruct (err_of v); cbn; split; congruence. }
  unfold dir_checks, dir_before, dir_stores, dir_after. cbn [app].
  split.
  - intros HF.
    repeat match goal with
           | H : Forall2 _ (_ :: _) _ |- _ => inversion H; subst; clear H
           | H : Forall2 _ [] _ |- _ => inversion H; subst; clear H
           end.
    repeat match goal with
           | e : (call * value)%type |- _ => destruct e
           | H : _ /\ _ |- _ => destruct H
           end.
    cbn [fst snd chk_call chk_ok] in *. subst.
    repeat match goal with
           | H : (_ && _)%bool = true |- _ => apply andb_true_iff in H; destruct H
           | H : succeeds _ = true |- _ => apply Hs in H
           | H : String.eqb _ _ = true |- _ => apply String.eqb_eq in H
           | H : negb _ = true |- _ => apply negb_true_iff in H
           | H : strings_eqb _ _ = true |- _ => apply strings_eqb_eq in H
           end.
    do 9 eexists. repeat split; eassumption.
  - intros (v1 & v2 & v3 & v4 & v5 & v6 & v7 & v8 & v9 & -> & [H1 H2] & (H3 & H4 & H5)
            & (H6 & K6 & T6) & (H7 & K7 & T7) & (H8 & L8) & (H9 & L9)).
    repeat constructor; cbn [fst snd chk_call chk_ok];
      repeat (apply andb_true_iff; split);
      try assumption; try (now apply Hs);
      try (now apply String.eqb_eq);
      try (now apply negb_true_iff);
      try (now apply strings_eqb_eq).
Qed.

(** C1.  For a rendering that tells any two slices apart (as Go's [%#v]
    does), the hierarchical listing check returns exactly when it made
    its nine calls in order (List of dir/k1 and of dir/k/a/b, the three
    stores, Stat of dir, Stat of dir/k/a/b, List of dir without and with
    recursion) and, after the three stores succeeded: Stat(dir) gave no
    error, Key = dir and IsTerminal = false; Stat(dir/k/a/b) gave no
    error, Key = dir/k/a/b and IsTerminal = true; the sorted List(dir,
    false) is [dir/k, dir/k1]; the sorted List(dir, true) is [dir/k,
    dir/k/a, dir/k/a/b, dir/k/c, dir/k1].  With any other results the
    test function stops through [t.Fatalf] and one failure is recorded. *)
Theorem testStorageDir_asserts
  (Hinj : forall a b, Sprintf_v a = Sprintf_v b -> a = b) (w : World St G) :
  let dir := (KeyPrefix ++ Itoa (fst (Int R (Suite.Rng (ts w)))))%string in
  let val := bytes_of_string dir in
  let out := fst (exec Sto R (testStorageDir Sprintf_v) w) in
  let w' := snd (exec Sto R (testStorageDir Sprintf_v) w) in
  exists evs,
    trace w' = trace w ++ tagged 0 evs
    /\ (out = Returned tt /\ failures w' = failures w
        \/ out = Exited /\ List.length (failures w') = S (List.length (failures w)))
    /\ (out = Returned tt <->
        exists v1 v2 v3 v4 v5 v6 v7 v8 v9,
          evs = [(CList (dir ++ "/k1") true, v1); (CList (dir ++ "/k/a/b") false, v2);
                 (CStore (dir ++ "/k1") val, v3); (CStore (dir ++ "/k/a/b") val, v4);
                 (CStore (dir ++ "/k/c") val, v5);
                 (CStat dir, v6); (CStat (dir ++ "/k/a/b"), v7);
                 (CList dir false, v8); (CList dir true, v9)]%string
          /\ (fails v1 = true /\ fails v2 = true)
          /\ (err_of v3 = None /\ err_of v4 = None /\ err_of v5 = None)
          /\ (err_of v6 = None /\ certmagic.Key (info_of v6) = dir
              /\ certmagic.IsTerminal (info_of v6) = false)
          /\ (err_of v7 = None /\ certmagic.Key (info_of v7) = (dir ++ "/k/a/b")%string
              /\ certmagic.IsTerminal (info_of v7) = true)
          /\ (err_of v8 = None
              /\ sort_Strings (strings_of v8) = [dir ++ "/k"; dir ++ "/k1"]%string)
          /\ (err_of v9 = None
              /\ sort_Strings (strings_of v9)
                 = [dir ++ "/k"; dir ++ "/k/a"; dir ++ "/k/a/b"; dir ++ "/k/c";
                    dir ++ "/k1"]%string)).
Proof.
  intros dir val out w'.
  destruct (testStorageDir_exec Sto R Sprintf_v w) as (fl & Hex & Hlen).
  fold dir in Hex, Hlen.
  assert (Hsame : run_checks Sto (dir_checks (same_rendering Sprintf_v) dir (Some dir))
                             (Suite.S (ts w))
                  = run_checks Sto (dir_checks strings_eqb dir (Some dir))
                               (Suite.S (ts w))).
  { apply run_checks_ext. unfold dir_checks, dir_before, dir_stores, dir_after.
    cbn [app].
    repeat constructor; cbn [chk_ok]; intros v;
      now rewrite (same_rendering_eqb Sprintf_v Hinj). }
  rewrite Hsame in Hex, Hlen. clear Hsame.
  set (chk := run_checks Sto (dir_checks strings_eqb dir (Some dir)) (Suite.S (ts w)))
    in *.
  exists (fst (fst chk)). subst out w'. rewrite Hex. cbn [fst snd trace failures].
  destruct (run_checks_sound Sto (dir_checks strings_eqb dir (Some dir))
                             (Suite.S (ts w))) as [_ Hok].
  fold chk in Hok.
  split; [reflexivity |]. split.
  - destruct (snd (fst chk)).
    + left. destruct fl; [| discriminate]. cbn. now rewrite app_nil_r.
    + right. split; [reflexivity |].
      rewrite length_app, length_map, Hlen. lia.
  - unfold val, bytes_of_string. rewrite <- dir_checks_explicit, <- Hok.
    destruct (snd (fst chk)); split; congruence.
Qed.

(** C6, as the code has it.  Before the first store the hierarchical
    listing check makes two calls at most, and no [Stat]: List(dir/k1,
    true), which must return an error, then List(dir/k/a/b, false), which
    must return an error; an error-free return of either stops the test
    through [t.Fatalf], and after two errors the next call is the store of
    dir/k1. *)
Theorem testStorageDir_before_stores (w : World St G) :
  let dir := (KeyPrefix ++ Itoa (fst (Int R (Suite.Rng (ts w)))))%string in
  let out := fst (exec Sto R (testStorageDir Sprintf_v) w) in
  let w' := snd (exec Sto R (testStorageDir Sprintf_v) w) in
  exists evs,
    trace w' = trace w ++ tagged 0 evs
    /\ Forall (fun e => is_stat (fst e) = false) (before_first_store evs)
    /\ ((exists v1,
           evs = [(CList (dir ++ "/k1") true, v1)]%string
           /\ fails v1 = false /\ out = Exited
           /\ List.length (failures w') = S (List.length (failures w)))
        \/ (exists v1 v2,
              evs = [(CList (dir ++ "/k1") true, v1);
                     (CList (dir ++ "/k/a/b") false, v2)]%string
              /\ fails v1 = true /\ fails v2 = false /\ out = Exited
              /\ List.length (failures w') = S (List.length (failures w)))
        \/ (exists v1 v2 v3 rest,
              evs = ((CList (dir ++ "/k1") true, v1)
                     :: (CList (dir ++ "/k/a/b") false, v2)
                     :: (CStore (dir ++ "/k1") (bytes_of_string dir), v3)
                     :: rest)%string
              /\ fails v1 = true /\ fails v2 = true
              /\ before_first_store evs
                 = [(CList (dir ++ "/k1") true, v1);
                    (CList (dir ++ "/k/a/b") false, v2)]%string)).
Proof.
  intros dir out w'.
  destruct (testStorageDir_exec Sto R Sprintf_v w) as (fl & Hex & Hlen).
  fold dir in Hex, Hlen.
  set (chk := run_checks Sto (dir_checks (same_rendering Sprintf_v) dir (Some dir))
                         (Suite.S (ts w))) in *.
  exists (fst (fst chk)). subst out w'. rewrite Hex. cbn [fst snd trace failures].
  split; [reflexivity |].
  assert (Hfail : snd (fst chk) = false ->
                  List.length (failures w ++ map (fun f => (0, fst f, snd f)) fl)
                  = S (List.length (failures w))).
  { intros E. rewrite E in Hlen. rewrite length_app, length_map, Hlen. lia. }
  revert Hfail. clear Hex Hlen. subst chk.
  unfold dir_checks, dir_before, dir_stores. cbn [app].
  rewrite run_checks_cons. cbn [chk_call chk_ok].
  destruct (do_call Sto (CList (dir ++ "/k1") true) (Suite.S (ts w))) as [v1 s1].
  cbn [fst snd].
  destruct (fails v1) eqn:F1; cbn [fst snd].
  2:{ intros Hfail. split; [repeat constructor |].
      left. exists v1. repeat split; auto. }
  rewrite run_checks_cons. cbn [chk_call chk_ok].
  destruct (do_call Sto (CList (dir ++ "/k/a/b") false) s1) as [v2 s2].
  cbn [fst snd].
  destruct (fails v2) eqn:F2; cbn [fst snd].
  2:{ intros Hfail. split; [repeat constructor |].
      right; left. exists v1, v2. repeat split; auto. }
  intros _.
  match goal with
  | |- context [run_checks Sto (?c :: ?cs) s2] =>
      destruct (run_checks_head Sto c cs s2) as (rest & Hrest);
      rewrite Hrest
  end.
  cbn [chk_call before_first_store fst is_store].
  split; [repeat constructor |].
  right; right. unfold bytes_of_string. eexists v1, v2, _, rest. repeat split; auto.
Qed.

End StorageDirClaims.

(** The sample run of the listing check: the renderer is injective, the
    check passes on the in-memory storage, and its last two calls returned
    the listings the theorem speaks of. *)
Lemma testStorageDir_asserts_witness :
  let r := exec MemStorage.storage counter (testStorageDir GoSyntax.Sprintf_v)
                sample_world in
  (forall a b, GoSyntax.Sprintf_v a = GoSyntax.Sprintf_v b -> a = b)
  /\ fst r = Returned tt
  /\ exists evs v8 v9,
       trace (snd r) = trace sample_world ++ tagged 0 evs
       /\ nth_error evs 7 = Some (CList "__test__key__0" false, v8)
       /\ sort_Strings (strings_of v8) = ["__test__key__0/k"; "__test__key__0/k1"]
       /\ nth_error evs 8 = Some (CList "__test__key__0" true, v9)
       /\ sort_Strings (strings_of v9)
          = ["__test__key__0/k"; "__test__key__0/k/a"; "__test__key__0/k/a/b";
             "__test__key__0/k/c"; "__test__key__0/k1"].
Proof.
  intros r. split; [exact GoSyntaxFacts.Sprintf_v_inj |].
  assert (Hout : fst r = Returned tt) by (vm_compute; reflexivity).
  split; [exact Hout |].
  destruct (testStorageDir_asserts MemStorage.storage counter GoSyntax.Sprintf_v
              GoSyntaxFacts.Sprintf_v_inj sample_world)
    as (evs & Htr & _ & Hiff).
  destruct (proj1 Hiff Hout)
    as (v1 & v2 & v3 & v4 & v5 & v6 & v7 & v8 & v9 & Hevs & _ & _ & _ & _
        & (_ & L8) & (_ & L9)).
  exists evs, v8, v9. subst evs.
  repeat split; [exact Htr | exact L8 | exact L9].
Defined.

(** C6, the claim as worded fails: in the sample run, which passes, no
    [Stat] is called before the first store. *)
Lemma testStorageDir_no_Stat_before_stores :
  let r := exec MemStorage.storage counter (testStorageDir GoSyntax.Sprintf_v)
                sample_world in
  fst r = Returned tt
  /\ before_first_store (calls_of 0 (trace (snd r)))
     = [(CList "__test__key__0/k1" true, VStrings [] (Some "not found"));
        (CList "__test__key__0/k/a/b" false, VStrings [] (Some "not found"))]
  /\ ~ (exists key v,
          In (CStat key, v) (before_first_store (calls_of 0 (trace (snd r))))).
Proof.
  intros r.
  assert (E : before_first_store (calls_of 0 (trace (snd r)))
              = [(CList "__test__key__0/k1" true, VStrings [] (Some "not found"));
                 (CList "__test__key__0/k/a/b" false, VStrings [] (Some "not found"))])
    by (vm_compute; reflexivity).
  split; [vm_compute; reflexivity |]. split; [exact E |].
  rewrite E. intros (key & v & [H | [H | []]]); discriminate H.
Qed.

(** ** Key names *)

Lemma Itoa_unprefixed (n : Z) : String.prefix KeyPrefix (Itoa n) = false.
Proof.
  unfold Itoa, NilZero.string_of_int, NilZero.string_of_uint.
  destruct (Z.to_int n) as [d | d]; [destruct d | ]; reflexivity.
Qed.

Lemma prefix_append (a b : string) : String.prefix a (a ++ b) = true.
Proof.
  induction a as [| c a IH]; cbn [String.append String.prefix].
  - now destruct b.
  - now destruct (ascii_dec c c).
Qed.

Lemma randKey_prefixed (n : Z) : String.prefix KeyPrefix (KeyPrefix ++ Itoa n) = true.
Proof. apply prefix_append. Qed.

Lemma Itoa_inj (n m : Z) : Itoa n = Itoa m -> n = m.
Proof.
  unfold Itoa. intros H. apply DecimalZ.to_int_inj.
  assert (Hn : forall z, Z.to_int z <> Decimal.Pos Decimal.Nil
                         /\ Z.to_int z <> Decimal.Neg Decimal.Nil).
  { intros [| p | p]; cbn; (split; [| try discriminate]); try discriminate;
      intros E; inversion E as [E']; now apply DecimalPos.Unsigned.to_uint_nonnil in E'. }
  pose proof (NilZero.isi (Z.to_int n) (proj1 (Hn n)) (proj2 (Hn n))) as E1.
  pose proof (NilZero.isi (Z.to_int m) (proj1 (Hn m)) (proj2 (Hn m))) as E2.
  rewrite H in E1. congruence.
Qed.

Lemma randKey_name_inj (n m : Z) :
  (KeyPrefix ++ Itoa n)%string = (KeyPrefix ++ Itoa m)%string -> n = m.
Proof.
  unfold KeyPrefix. cbn [String.append]. intros H. inversion H. now apply Itoa_inj.
Qed.

Section Keys.

Context {St G : Type}.
Variable Sto : certmagic.Storage St.
Variable R : RngImpl G.

Lemma exec_randKey (w : World St G) :
  exec Sto R randKey w =
  (Returned (KeyPrefix ++ Itoa (fst (Int R (Suite.Rng (ts w)))))%string,
   with_ts w {| Suite.S := Suite.S (ts w);
                Suite.Rng := snd (Int R (Suite.Rng (ts w)));
                Suite.randKeys := Suite.randKeys (ts w) |}).
Proof.
  unfold randKey, Rng_Int. cbn [bind exec do_op].
  now destruct (Int R (Suite.Rng (ts w))).
Qed.

Lemma randKey_names_draws (n : nat) (w : World St G) :
  randKey_names Sto R n w
  = map (fun x => (KeyPrefix ++ Itoa x)%string) (draws R n (Suite.Rng (ts w))).
Proof.
  revert w. induction n as [| n IH]; intros w; cbn [randKey_names draws].
  - reflexivity.
  - rewrite exec_randKey, IH. cbn [with_ts ts Suite.Rng].
    now destruct (Int R (Suite.Rng (ts w))).
Qed.

(** The teardown function calls [Delete] on the tracked keys, in order,
    whatever the calls return. *)
Lemma exec_range_Delete (ks : list string) (w : World St G) :
  exists evs,
    exec Sto R (range_ ks (fun k => _ <- S_Delete k ;; Ret tt)) w
    = (Returned tt,
       {| ts := {| Suite.S := snd (fold_left
                                     (fun acc k => (tt, snd (certmagic.Delete Sto k (snd acc))))
                                     ks (tt, Suite.S (ts w)));
                   Suite.Rng := Suite.Rng (ts w);
                   Suite.randKeys := Suite.randKeys (ts w) |};
          failures := failures w; wg := wg w; goroutines := goroutines w;
          trace := trace w ++ tagged 0 evs |})
    /\ map fst evs = map CDelete ks.
Proof.
  revert w. induction ks as [| k ks IH]; intros w; cbn [range_ fold_left].
  - exists []. cbn. rewrite app_nil_r. now destruct w as [[? ? ?] ? ? ? ?].
  - rewrite exec_bind. unfold S_Delete at 1. cbn [bind exec do_op do_call fst snd].
    destruct (certmagic.Delete Sto k (Suite.S (ts w))) as [e st'] eqn:Hd.
    cbn [err_of fst snd].
    match goal with
    | |- context [exec Sto R _ ?w1] => destruct (IH w1) as (evs & Hex & Hm)
    end.
    cbn [ts Suite.S Suite.Rng Suite.randKeys failures wg goroutines trace] in Hex.
    exists ((CDelete k, VErr e) :: evs). rewrite Hex. split.
    + rewrite <- app_assoc. reflexivity.
    + cbn. now rewrite Hm.
Qed.

End Keys.

(** ** Claims about generated keys *)

Section KeyClaims.

Context {St G : Type}.
Variable Sto : certmagic.Storage St.
Variable R : RngImpl G.
Variable Sprintf_v : list string -> string.

(** Running a program only adds to the trace. *)
Lemma exec_trace_extends {A : Type} (p : prog A) (w : World St G) :
  exists evs, trace (snd (exec Sto R p w)) = trace w ++ evs.
Proof.
  revert w. induction p as [A a | A | A o k IH | A g _ k IH]; intros w; cbn [exec].
  - exists []. now rewrite app_nil_r.
  - exists []. now rewrite app_nil_r.
  - destruct (do_op Sto R 0 o w) as [[v w1] |] eqn:Hop.
    + destruct (IH v w1) as (evs & Hevs). rewrite Hevs.
      destruct o; cbn [do_op] in Hop;
        try (injection Hop as _ <-; now exists evs).
      * destruct (do_call Sto c (Suite.S (ts w))) as [v' st'].
        injection Hop as _ <-. cbn [trace]. rewrite <- app_assoc. eauto.
      * destruct (Int R (Suite.Rng (ts w))) as [n g'].
        injection Hop as _ <-. now exists evs.
      * destruct (wg w); [discriminate |]. injection Hop as _ <-. now exists evs.
      * destruct (wg w); [| discriminate]. injection Hop as _ <-. now exists evs.
    + exists []. now rewrite app_nil_r.
  - destruct (IH (with_goroutines w (goroutines w ++ [g]))) as (evs & Hevs).
    now exists evs.
Qed.

(** C9.  [NewTestSuite] installs the generator [rand.New(rand.NewSource(0))],
    whatever the storage; the names that successive calls of [randKey]
    return are the prefixed decimal renderings of that generator's
    successive results, so two suites built by [NewTestSuite], over any two
    storages and with any test functions, are given the same names. *)
Theorem NewTestSuite_same_names
  (rand_New_NewSource : Z -> G)
  {St' : Type} (Sto' : certmagic.Storage St')
  (s : St) (s' : St') (main main' : prog unit) (n : nat) :
  Suite.Rng (NewTestSuite rand_New_NewSource s) = rand_New_NewSource 0%Z
  /\ Suite.Rng (NewTestSuite rand_New_NewSource s') = rand_New_NewSource 0%Z
  /\ randKey_names Sto R n (start (NewTestSuite rand_New_NewSource s) main)
     = map (fun x => (KeyPrefix ++ Itoa x)%string) (draws R n (rand_New_NewSource 0%Z))
  /\ randKey_names Sto R n (start (NewTestSuite rand_New_NewSource s) main)
     = randKey_names Sto' R n (start (NewTestSuite rand_New_NewSource s') main').
Proof.
  repeat split; try reflexivity.
  - apply randKey_names_draws.
  - now rewrite !randKey_names_draws.
Qed.

(** C4, evaluated on the code.  The first storage call of [testLocker],
    and so of [Run], is [Unlock] on the bare decimal rendering of the
    generator's first result: a key that does not begin with [KeyPrefix]. *)
Theorem testLocker_key_unprefixed (w : World St G) :
  let key := Itoa (fst (Int R (Suite.Rng (ts w)))) in
  String.prefix KeyPrefix key = false
  /\ (exists v rest,
        trace (snd (exec Sto R testLocker w)) = trace w ++ (0, CUnlock key, v) :: rest)
  /\ (exists v rest,
        trace (snd (exec Sto R (Run Sprintf_v) w))
        = trace w ++ (0, CUnlock key, v) :: rest).
Proof.
  intros key. split; [apply Itoa_unprefixed |].
  split.
  - unfold testLocker, Rng_Int, S_Unlock. cbn [bind exec do_op do_call int_of].
    destruct (Int R (Suite.Rng (ts w))) as [n g'] eqn:Hint.
    cbn [fst] in key.
    cbn [with_ts ts Suite.S Suite.Rng Suite.randKeys failures wg goroutines trace
         bind defer_ exec do_op do_call int_of].
    fold key.
    destruct (certmagic.Unlock Sto key (Suite.S (ts w))) as [e st'].
    match goal with
    | |- context [exec Sto R ?p ?w1] => destruct (exec_trace_extends p w1) as (evs & Hevs)
    end.
    exists (VErr e), evs. rewrite Hevs. cbn [trace]. now rewrite <- app_assoc.
  - unfold Run, t_Cleanup, testLocker, Rng_Int, S_Unlock.
    cbn [bind defer_ exec do_op do_call int_of].
    destruct (Int R (Suite.Rng (ts w))) as [n g'] eqn:Hint.
    cbn [fst] in key.
    cbn [with_ts ts Suite.S Suite.Rng Suite.randKeys failures wg goroutines trace
         bind defer_ exec do_op do_call int_of].
    fold key.
    destruct (certmagic.Unlock Sto key (Suite.S (ts w))) as [e st'].
    match goal with
    | |- context [exec Sto R ?p ?w1] => destruct (exec_trace_extends p w1) as (evs & Hevs)
    end.
    exists (VErr e), evs. rewrite Hevs. cbn [trace]. now rewrite <- app_assoc.
Qed.

(** C3, evaluated on the code.  [randKey] returns a fresh name and leaves
    the tracked list as it was; the single-key check leaves it as it was
    too; the listing check adds the three keys it stores, and not its
    directory key; and the teardown function calls [Delete] on exactly the
    tracked keys.  So a generated key is deleted at teardown only if it is
    one of dir/k1, dir/k/a/b, dir/k/c. *)
Theorem teardown_deletes_only_tracked (w : World St G) :
  let n := fst (Int R (Suite.Rng (ts w))) in
  let key := (KeyPrefix ++ Itoa n)%string in
  fst (exec Sto R randKey w) = Returned key
  /\ Suite.randKeys (ts (snd (exec Sto R randKey w))) = Suite.randKeys (ts w)
  /\ Suite.randKeys (ts (snd (exec Sto R testStorageSingleKey w)))
     = Suite.randKeys (ts w)
  /\ Suite.randKeys (ts (snd (exec Sto R (testStorageDir Sprintf_v) w)))
     = Suite.randKeys (ts w)
       ++ [(key ++ "/k1")%string; (key ++ "/k/a/b")%string; (key ++ "/k/c")%string]
  /\ exists evs,
       fst (exec Sto R cleanup w) = Returned tt
       /\ trace (snd (exec Sto R cleanup w)) = trace w ++ tagged 0 evs
       /\ map fst evs = map CDelete (Suite.randKeys (ts w)).
Proof.
  intros n key. rewrite exec_randKey. fold n. fold key.
  split; [reflexivity |]. split; [reflexivity |].
  split.
  { destruct (testStorageSingleKey_exec Sto R w) as (fl & Hex & _).
    rewrite Hex. reflexivity. }
  split.
  { destruct (testStorageDir_exec Sto R Sprintf_v w) as (fl & Hex & _).
    rewrite Hex. reflexivity. }
  unfold cleanup, readRandKeys. cbn [bind exec do_op strings_of].
  destruct (exec_range_Delete Sto R (Suite.randKeys (ts w)) w) as (evs & Hex & Hm).
  exists evs. rewrite Hex. now repeat split.
Qed.

End KeyClaims.

(** A failing run of the whole suite: [Run] on the suite over a storage whose
    [Load] corrupts values.  The first key is "0"; the single-key check
    stops after its store; when every goroutine has ended the tracked list
    is empty, no [Delete] was called and the generated key is still
    stored. *)
Example Run_leaves_generated_key :
  let w := run_sched corrupting counter workers_in_turn
             (start sample_suite (Run GoSyntax.Sprintf_v)) in
  all_finished w = true
  /\ nth_error (trace w) 0 = Some (0, CUnlock "0", VErr (Some "not locked"))
  /\ List.length (failures w) = 1
  /\ Suite.randKeys (ts w) = []
  /\ existsb (fun e => is_delete (snd (fst e))) (trace w) = false
  /\ MemStorage.has_file "__test__key__6" (Suite.S (ts w)) = true.
Proof. vm_compute. repeat split. Qed.

(** On the faultless storage the same schedule ends with the suite passed
    and only the three keys of the listing check deleted at teardown. *)
Example Run_sample_teardown :
  let w := run_sched MemStorage.storage counter workers_in_turn
             (start sample_suite (Run GoSyntax.Sprintf_v)) in
  all_finished w = true
  /\ failures w = []
  /\ Suite.randKeys (ts w)
     = ["__test__key__7/k1"; "__test__key__7/k/a/b"; "__test__key__7/k/c"]
  /\ map (fun e => snd (fst e)) (skipn (List.length (trace w) - 3) (trace w))
     = map CDelete (Suite.randKeys (ts w)).
Proof. vm_compute. repeat split. Qed.

(** ** Goroutines taking turns *)

Section Interleaving.

Context {St G : Type}.
Variable Sto : certmagic.Storage St.
Variable R : RngImpl G.

Lemma calls_of_app (tid : nat) (a b : list (nat * call * value)) :
  calls_of tid (a ++ b) = calls_of tid a ++ calls_of tid b.
Proof. unfold calls_of. now rewrite filter_app, map_app. Qed.

Lemma calls_of_one (tid t : nat) (c : call) (v : value) :
  calls_of tid [(t, c, v)] = if Nat.eqb t tid then [(c, v)] else [].
Proof. unfold calls_of. cbn. now destruct (Nat.eqb t tid). Qed.

Lemma failures_of_eq (tid : nat) (w : World St G) :
  failures_of tid w
  = map (fun f => (snd (fst f), snd f))
        (filter (fun f => Nat.eqb (fst (fst f)) tid) (failures w)).
Proof. reflexivity. Qed.

(** What one operation changes. *)
Lemma do_op_effect (tid : nat) (o : op) (w w1 : World St G) (v : value) :
  do_op Sto R tid o w = Some (v, w1) ->
  goroutines w1 = goroutines w
  /\ (forall t, t <> tid ->
        calls_of t (trace w1) = calls_of t (trace w)
        /\ failures_of t w1 = failures_of t w)
  /\ match o with
     | OCall c =>
         v = fst (do_call Sto c (Suite.S (ts w)))
         /\ calls_of tid (trace w1) = calls_of tid (trace w) ++ [(c, v)]
         /\ failures_of tid w1 = failures_of tid w
         /\ wg w1 = wg w /\ Suite.Rng (ts w1) = Suite.Rng (ts w)
     | ORngInt =>
         v = VInt (fst (Int R (Suite.Rng (ts w))))
         /\ Suite.Rng (ts w1) = snd (Int R (Suite.Rng (ts w)))
         /\ calls_of tid (trace w1) = calls_of tid (trace w)
         /\ failures_of tid w1 = failures_of tid w
         /\ wg w1 = wg w
     | OFail format args =>
         calls_of tid (trace w1) = calls_of tid (trace w)
         /\ failures_of tid w1 = failures_of tid w ++ [(format, args)]
         /\ wg w1 = wg w /\ Suite.Rng (ts w1) = Suite.Rng (ts w)
     | OWgAdd delta =>
         calls_of tid (trace w1) = calls_of tid (trace w)
         /\ failures_of tid w1 = failures_of tid w
         /\ wg w1 = wg w + delta /\ Suite.Rng (ts w1) = Suite.Rng (ts w)
     | OWgDone =>
         calls_of tid (trace w1) = calls_of tid (trace w)
         /\ failures_of tid w1 = failures_of tid w
         /\ wg w = S (wg w1) /\ Suite.Rng (ts w1) = Suite.Rng (ts w)
     | OWgWait =>
         calls_of tid (trace w1) = calls_of tid (trace w)
         /\ failures_of tid w1 = failures_of tid w
         /\ wg w = 0 /\ wg w1 = 0 /\ Suite.Rng (ts w1) = Suite.Rng (ts w)
     | _ =>
         calls_of tid (trace w1) = calls_of tid (trace w)
         /\ failures_of tid w1 = failures_of tid w
         /\ wg w1 = wg w /\ Suite.Rng (ts w1) = Suite.Rng (ts w)
     end.
Proof.
  intros Hop. destruct o; cbn [do_op] in Hop.
  - destruct (do_call Sto c (Suite.S (ts w))) as [v' st'] eqn:Hc.
    injection Hop as <- <-. cbn [goroutines trace wg ts Suite.Rng fst].
    split; [reflexivity |]. split.
    + intros t Ht. rewrite calls_of_app, calls_of_one.
      destruct (Nat.eqb_spec tid t); [congruence |].
      rewrite app_nil_r. now split.
    + rewrite calls_of_app, calls_of_one, Nat.eqb_refl. now repeat split.
  - destruct (Int R (Suite.Rng (ts w))) as [n g'].
    injection Hop as <- <-. cbn. now repeat split.
  - injection Hop as <- <-. cbn. now repeat split.
  - injection Hop as <- <-. now repeat split.
  - injection Hop as <- <-. now repeat split.
  - injection Hop as <- <-. cbn [goroutines trace wg ts Suite.Rng].
    split; [reflexivity |]. split.
    + intros t Ht. split; [reflexivity |].
      rewrite !failures_of_eq. cbn [failures]. rewrite filter_app, map_app.
      cbn [filter fst snd]. destruct (Nat.eqb_spec tid t); [congruence |].
      cbn. now rewrite app_nil_r.
    + rewrite !failures_of_eq. cbn [failures]. rewrite filter_app, map_app.
      cbn [filter fst snd]. rewrite Nat.eqb_refl. now repeat split.
  - injection Hop as <- <-. cbn. now repeat split.
  - destruct (wg w) as [| m] eqn:Hwg; [discriminate |].
    injection Hop as <- <-. cbn. now repeat split.
  - destruct (wg w) as [| m] eqn:Hwg; [| discriminate].
    injection Hop as <- <-. now repeat split.
Qed.

Lemma iterations_timeout (key : string) (n : nat) (h : list (call * value)) (e : error) :
  iterations key n h -> iterations key (S n) (h ++ [(CLock key, VErr (Some e))]).
Proof. intros H. apply iterations_S; [exact H | constructor]. Qed.

Lemma iterations_locked (key : string) (n : nat) (h : list (call * value)) :
  iterations key n h ->
  iterations key (S n) ((h ++ [(CLock key, VErr None)]) ++ [(CUnlock key, VErr None)]).
Proof.
  intros H. rewrite <- app_assoc. apply iterations_S; [exact H | constructor].
Qed.

Lemma defer_wg_Done_pending (q : prog unit) : finished (defer_ wg_Done q) = false.
Proof. now destruct q. Qed.

(** One step of a worker. *)
Lemma worker_step (key : string) (tid : nat) (p p' : prog unit) (w w1 : World St G) :
  worker_at key p (calls_of tid (trace w)) (failures_of tid w) ->
  step_prog Sto R tid p w = Some (p', w1) ->
  worker_at key p' (calls_of tid (trace w1)) (failures_of tid w1)
  /\ goroutines w1 = goroutines w
  /\ (forall t, t <> tid ->
        calls_of t (trace w1) = calls_of t (trace w)
        /\ failures_of t w1 = failures_of t w)
  /\ Suite.Rng (ts w1) = Suite.Rng (ts w)
  /\ finished p = false
  /\ wg w = wg w1 + (if finished p' then 1 else 0).
Proof.
  intros Hat Hstep.
  inversion Hat as [n h Hn Hit Hp Hh Hf | n h Hn Hit Hp Hh Hf | n h Hn Hit Hp Hh Hf
                    | n h e Hn Hit Hp Hh Hf | n h e Hn Hit Hp Hh Hf
                    | n h e Hn Hit Hp Hh Hf | h Hit Hp Hh Hf];
    subst p; try discriminate Hstep.
  - (* about to lock, or to leave the loop *)
    subst h. destruct n as [| n].
    + cbn -[do_op] in Hstep.
      destruct (do_op Sto R tid OWgDone w) as [[v w2] |] eqn:Hop; [| discriminate].
      injection Hstep as <- <-.
      destruct (do_op_effect tid _ _ _ _ Hop) as (Hg & Hfr & Hc & Hfl & Hwg & Hr).
      rewrite Hc, Hfl, <- Hf. cbn [finished].
      repeat split; try assumption; try (apply Hfr; assumption).
      * apply at_ret. exact Hit.
      * lia.
    + cbn -[do_op] in Hstep.
      destruct (do_op Sto R tid (OCall (CLock key)) w) as [[v w2] |] eqn:Hop;
        [| discriminate].
      injection Hstep as <- <-.
      destruct (do_op_effect tid _ _ _ _ Hop) as (Hg & Hfr & Hv & Hc & Hfl & Hwg & Hr).
      assert (Hve : v = VErr (err_of v)).
      { rewrite Hv. cbn [do_call]. now destruct (certmagic.Lock Sto key _). }
      rewrite Hc, Hfl, <- Hf, Hve. cbn [err_of].
      destruct (err_of v) as [e |].
      * repeat split; try assumption; try (apply Hfr; assumption);
          try (rewrite ?defer_wg_Done_pending; cbn; lia); try apply defer_wg_Done_pending.
        apply (at_lock key n); [lia |].
        replace (5 - n) with (S (5 - S n)) by lia.
        now apply iterations_timeout.
      * repeat split; try assumption; try (apply Hfr; assumption);
          try (rewrite ?defer_wg_Done_pending; cbn; lia); try apply defer_wg_Done_pending.
        apply (at_sched key n); [lia |].
        now replace (4 - n) with (5 - S n) by lia.
  - (* about to yield *)
    cbn -[do_op] in Hstep. injection Hstep as <- <-.
    rewrite <- Hh, <- Hf.
    repeat split; try reflexivity;
      try (rewrite ?defer_wg_Done_pending; cbn; lia).
    now apply (at_unlock key n).
  - (* about to unlock *)
    cbn -[do_op] in Hstep.
    destruct (do_op Sto R tid (OCall (CUnlock key)) w) as [[v w2] |] eqn:Hop;
      [| discriminate].
    injection Hstep as <- <-.
    destruct (do_op_effect tid _ _ _ _ Hop) as (Hg & Hfr & Hv & Hc & Hfl & Hwg & Hr).
    assert (Hve : v = VErr (err_of v)).
    { rewrite Hv. cbn [do_call]. now destruct (certmagic.Unlock Sto key _). }
    rewrite Hc, Hfl, <- Hh, <- Hf, Hve. cbn [err_of].
    destruct (err_of v) as [e |].
    + repeat split; try assumption; try (apply Hfr; assumption); try (rewrite ?defer_wg_Done_pending; cbn; lia); try apply defer_wg_Done_pending.
      rewrite <- app_assoc. now apply (at_fail key n).
    + repeat split; try assumption; try (apply Hfr; assumption); try (rewrite ?defer_wg_Done_pending; cbn; lia); try apply defer_wg_Done_pending.
      apply (at_lock key n); [lia |].
      replace (5 - n) with (S (4 - n)) by lia.
      now apply iterations_locked.
  - (* about to record the failure *)
    cbn -[do_op] in Hstep.
    match type of Hstep with
    | context [do_op Sto R tid ?o w] =>
        destruct (do_op Sto R tid o w) as [[v w2] |] eqn:Hop; [| discriminate]
    end.
    injection Hstep as <- <-.
    destruct (do_op_effect tid _ _ _ _ Hop) as (Hg & Hfr & Hc & Hfl & Hwg & Hr).
    rewrite Hc, Hfl, <- Hh, <- Hf.
    repeat split; try assumption; try (apply Hfr; assumption); try (rewrite ?defer_wg_Done_pending; cbn; lia); try apply defer_wg_Done_pending.
    now apply (at_exit key n).
  - (* about to run the deferred wg.Done after the failure *)
    cbn -[do_op] in Hstep.
    destruct (do_op Sto R tid OWgDone w) as [[v w2] |] eqn:Hop; [| discriminate].
    injection Hstep as <- <-.
    destruct (do_op_effect tid _ _ _ _ Hop) as (Hg & Hfr & Hc & Hfl & Hwg & Hr).
    rewrite Hc, Hfl, <- Hh, <- Hf. cbn [finished].
    repeat split; try assumption; try (apply Hfr; assumption); try lia.
    now apply (at_gone key n).
Qed.

Lemma after_draws_S (c : nat) (g : G) :
  after_draws R (S c) g = snd (Int R (after_draws R c g)).
Proof.
  revert g. induction c as [| c IH]; intros g; [reflexivity |].
  change (after_draws R (S (S c)) g) with (after_draws R (S c) (snd (Int R g))).
  now rewrite IH.
Qed.

Lemma draws_S (c : nat) (g : G) :
  draws R (S c) g = draws R c g ++ [fst (Int R (after_draws R c g))].
Proof.
  revert g. induction c as [| c IH]; intros g.
  - cbn. now destruct (Int R g).
  - change (draws R (S (S c)) g)
      with (let '(x, g') := Int R g in x :: draws R (S c) g').
    change (draws R (S c) g) with (let '(x, g') := Int R g in x :: draws R c g').
    change (after_draws R (S c) g) with (after_draws R c (snd (Int R g))).
    destruct (Int R g) as [x g']. cbn [snd]. now rewrite IH.
Qed.

Lemma twice_app (a b : list string) : twice (a ++ b) = twice a ++ twice b.
Proof. induction a as [| x a IH]; cbn; [reflexivity | now rewrite IH]. Qed.

Lemma testLocker_after_draw (n : Z) :
  scripted lock_stress
    (err <- S_Unlock (Itoa n) ;;
     match err with
     | None => Fatalf "Storage successfully unlocks unlocked key" []
     | Some _ => Ret tt
     end ;;
     err <- S_Lock (Itoa n) ;;
     match err with
     | Some e => Fatalf "Storage fails to lock key: %s" [AError e]
     | None => Ret tt
     end ;;
     err <- S_Unlock (Itoa n) ;;
     match err with
     | Some e => Fatalf "Storage fails to unlock locked key: %s" [AError e]
     | None => Ret tt
     end ;;
     lock_stress)
    (locker_checks (Itoa n)).
Proof.
  unfold locker_checks, S_Unlock, S_Lock. cbn [bind].
  do 4 script_step.
Qed.

(** One step of the test goroutine. *)
Lemma main_step (g0 : G) (p p' : prog unit) (w w1 : World St G)
  (keys : list string) (extra : nat) :
  main_at R g0 p (calls_of 0 (trace w)) (failures_of 0 w) (Suite.Rng (ts w))
          keys extra ->
  step_prog Sto R 0 p w = Some (p', w1) ->
  (forall t, t <> 0 ->
     calls_of t (trace w1) = calls_of t (trace w)
     /\ failures_of t w1 = failures_of t w)
  /\ exists keys' extra',
       main_at R g0 p' (calls_of 0 (trace w1)) (failures_of 0 w1)
               (Suite.Rng (ts w1)) keys' extra'
       /\ (goroutines w1 = goroutines w /\ keys' = keys
           /\ wg w1 + extra = wg w + extra'
           \/ exists key,
                goroutines w1 = goroutines w ++ [worker key]
                /\ keys' = keys ++ [key] /\ wg w1 = wg w
                /\ extra = 1 /\ extra' = 0)
       /\ (p' = Ret tt -> wg w = 0 /\ extra = 0).
Proof.
  intros Hat Hstep.
  inversion Hat as [Hp Hh Hf Hg Hk He
                   | done rest c q h Hsplit Hscr Hdone Hp Hh Hf Hg Hk He
                   | done rest c h v format args Hsplit Hdone Hv Hp Hh Hf Hg Hk He
                   | done rest c h v format args Hsplit Hdone Hv Hp Hh Hf Hg Hk He
                   | c i h ks Hci Hpass Hks Hp Hh Hf Hg Hk He
                   | c i j h ks Hci Hj Hpass Hks Hp Hh Hf Hg Hk He
                   | c i j h ks Hci Hj Hpass Hks Hp Hh Hf Hg Hk He
                   | h ks Hpass Hks Hp Hh Hf Hg Hk He];
    subst p; try discriminate Hstep.
  - (* the draw of the key *)
    unfold testLocker, Rng_Int in Hstep. cbn -[do_op] in Hstep.
    destruct (do_op Sto R 0 ORngInt w) as [[v w2] |] eqn:Hop; [| discriminate].
    injection Hstep as <- <-.
    destruct (do_op_effect 0 _ _ _ _ Hop) as (Hgo & Hfr & Hv & Hr & Hc & Hfl & Hwg).
    split; [exact Hfr |]. exists [], 0.
    rewrite Hc, Hfl, Hr, <- Hh, <- Hf, Hv, <- Hg. cbn [int_of].
    split; [| split; [left; repeat split; [assumption | lia] | discriminate]].
    apply (main_check R g0 [] (tl (locker_checks (Itoa (fst (Int R g0)))))
                      (hd {| chk_call := CUnlock ""; chk_ok := fails |}
                          (locker_checks (Itoa (fst (Int R g0)))))).
    + reflexivity.
    + apply testLocker_after_draw.
    + constructor.
  - (* one of the three checks *)
    subst h. subst keys extra.
    inversion Hscr as [| c0 cs0 k Hok Hko Hq Hcs]; subst.
    cbn -[do_op] in Hstep.
    destruct (do_op Sto R 0 (OCall (chk_call c)) w) as [[v w2] |] eqn:Hop;
      [| discriminate].
    injection Hstep as <- <-.
    destruct (do_op_effect 0 _ _ _ _ Hop) as (Hgo & Hfr & Hv & Hc & Hfl & Hwg & Hr).
    split; [exact Hfr |]. exists [], 0.
    rewrite Hc, Hfl, Hr, <- Hf, <- Hg.
    split; [| split; [left; repeat split; [assumption | lia] |]].
    + destruct (chk_ok c v) eqn:Hcv.
      * specialize (Hok v Hcv).
        assert (Hdone' : Forall2 passed (done ++ [c])
                                 (calls_of 0 (trace w) ++ [(chk_call c, v)])).
        { apply Forall2_app; [exact Hdone |]. repeat constructor. exact Hcv. }
        destruct rest as [| c' rest'].
        -- inversion Hok as [Hnext |]. 
           rewrite <- (app_nil_r (done ++ [c])) in Hdone'.
           rewrite <- app_assoc in Hdone'. cbn [app] in Hdone'. rewrite <- Hsplit in Hdone'.
           apply (main_keys R g0 0 5); [reflexivity | exact Hdone' | reflexivity].
        -- apply (main_check R g0 (done ++ [c]) rest' c').
           ++ rewrite <- app_assoc. exact Hsplit.
           ++ exact Hok.
           ++ exact Hdone'.
      * destruct (Hko v Hcv) as (format & args & Hk). rewrite Hk.
        now apply (main_failing R g0 done rest c).
    + intros Hret. exfalso.
      destruct (chk_ok c v) eqn:Hcv.
      * specialize (Hok v Hcv). rewrite Hret in Hok.
        inversion Hok as [Hnext |]; try discriminate Hnext.
      * destruct (Hko v Hcv) as (format & args & Hk). rewrite Hk in Hret.
        discriminate Hret.
  - (* recording the failure of a check *)
    subst keys extra. cbn -[do_op] in Hstep.
    destruct (do_op Sto R 0 (OFail format args) w) as [[v' w2] |] eqn:Hop;
      [| discriminate].
    injection Hstep as <- <-.
    destruct (do_op_effect 0 _ _ _ _ Hop) as (Hgo & Hfr & Hc & Hfl & Hwg & Hr).
    split; [exact Hfr |]. exists [], 0.
    rewrite Hc, Hfl, Hr, <- Hh, <- Hf, <- Hg. cbn [app].
    split; [| split; [left; repeat split; [assumption | lia] | discriminate]].
    now apply (main_exited R g0 done rest c).
  - (* the outer loop *)
    subst h extra. destruct i as [| i].
    + cbn -[do_op] in Hstep.
      destruct (do_op Sto R 0 OWgWait w) as [[v w2] |] eqn:Hop; [| discriminate].
      injection Hstep as <- <-.
      destruct (do_op_effect 0 _ _ _ _ Hop)
        as (Hgo & Hfr & Hc & Hfl & Hwg & Hwg1 & Hr).
      split; [exact Hfr |]. exists keys, 0.
      rewrite Hc, Hfl, Hr, <- Hf, <- Hg.
      assert (c = 5) by lia. subst c.
      split; [| split; [left; repeat split; [assumption | lia] | now split]].
      now apply main_ret.
    + unfold randKey, Rng_Int in Hstep. cbn -[do_op] in Hstep.
      destruct (do_op Sto R 0 ORngInt w) as [[v w2] |] eqn:Hop; [| discriminate].
      injection Hstep as <- <-.
      destruct (do_op_effect 0 _ _ _ _ Hop) as (Hgo & Hfr & Hv & Hr & Hc & Hfl & Hwg).
      split; [exact Hfr |]. exists keys, 0.
      rewrite Hc, Hfl, Hr, <- Hf, Hv, <- Hg, <- after_draws_S. cbn [int_of].
      split; [| split; [left; repeat split; [assumption | lia] | discriminate]].
      apply (main_add R g0 c i 1); [lia | lia | exact Hpass |].
      cbn [repeat Nat.sub]. now rewrite app_nil_r.
  - (* wg.Add(1) *)
    subst h extra. cbn -[do_op] in Hstep.
    destruct (do_op Sto R 0 (OWgAdd 1) w) as [[v w2] |] eqn:Hop; [| discriminate].
    injection Hstep as <- <-.
    destruct (do_op_effect 0 _ _ _ _ Hop) as (Hgo & Hfr & Hc & Hfl & Hwg & Hr).
    split; [exact Hfr |]. exists keys, 1.
    rewrite Hc, Hfl, Hr, <- Hf, <- Hg.
    split; [| split; [left; repeat split; [assumption | lia] | discriminate]].
    now apply (main_go R g0 c i j).
  - (* the go statement *)
    subst h extra. cbn [step_prog] in Hstep. injection Hstep as <- <-.
    set (key := mk_key (fst (Int R (after_draws R c (snd (Int R g0)))))) in *.
    change (failures_of 0 (with_goroutines w (goroutines w ++ [worker key])))
      with (failures_of 0 w).
    change (trace (with_goroutines w (goroutines w ++ [worker key]))) with (trace w).
    change (ts (with_goroutines w (goroutines w ++ [worker key]))) with (ts w).
    change (wg (with_goroutines w (goroutines w ++ [worker key]))) with (wg w).
    change (goroutines (with_goroutines w (goroutines w ++ [worker key])))
      with (goroutines w ++ [worker key]).
    split; [now split |].
    exists (keys ++ [key]), 0.
    rewrite <- Hf, <- Hg.
    split; [| split; [right; eexists; repeat split; reflexivity |]].
    + destruct j as [| j].
      * replace (keys ++ [key])
          with (twice (map mk_key (draws R (S c) (snd (Int R g0))))).
        -- apply (main_keys R g0 (S c) i); [lia | exact Hpass | reflexivity].
        -- rewrite draws_S, map_app, twice_app, Hks. cbn [map twice repeat Nat.sub].
           now rewrite <- app_assoc.
      * assert (j = 0) by lia. subst j.
        apply (main_add R g0 c i 0); [lia | lia | exact Hpass |].
        rewrite Hks. cbn [repeat Nat.sub]. now rewrite app_nil_r.
    + intros Hret. exfalso. destruct j as [| j]; [destruct i |]; discriminate Hret.
Qed.

(** *** Lists of workers *)

Lemma workers_at_frame (w w' : World St G) (keys : list string) (ps : list (prog unit))
  (tid : nat) :
  (forall t, tid <= t ->
     calls_of t (trace w') = calls_of t (trace w)
     /\ failures_of t w' = failures_of t w) ->
  workers_at w tid keys ps -> workers_at w' tid keys ps.
Proof.
  revert tid ps. induction keys as [| key keys IH]; intros tid [| p ps] Hfr;
    cbn [workers_at]; try easy.
  intros [Hp Hps]. split.
  - destruct (Hfr tid (le_n tid)) as [-> ->]. exact Hp.
  - apply IH; [| exact Hps]. intros t Ht. apply Hfr. lia.
Qed.

Lemma workers_at_length (w : World St G) (keys : list string) (ps : list (prog unit))
  (tid : nat) :
  workers_at w tid keys ps -> List.length keys = List.length ps.
Proof.
  revert tid ps. induction keys as [| key keys IH]; intros tid [| p ps];
    cbn [workers_at]; try easy.
  intros [_ Hps]. cbn. f_equal. now apply (IH (S tid)).
Qed.

Lemma workers_at_nth (w : World St G) (keys : list string) (ps : list (prog unit))
  (tid i : nat) (p : prog unit) :
  workers_at w tid keys ps ->
  nth_error ps i = Some p ->
  exists key,
    nth_error keys i = Some key
    /\ worker_at key p (calls_of (tid + i) (trace w)) (failures_of (tid + i) w).
Proof.
  revert tid ps i. induction keys as [| key keys IH]; intros tid [| q ps] i;
    cbn [workers_at]; try easy.
  - intros _ H. now destruct i.
  - intros [Hq Hps] Hi. destruct i as [| i].
    + injection Hi as <-. exists key. rewrite Nat.add_0_r. now split.
    + cbn [nth_error] in Hi. destruct (IH (S tid) ps i Hps Hi) as (k & Hk & Hat).
      exists k. split; [exact Hk |].
      now replace (tid + S i) with (S tid + i) by lia.
Qed.

Lemma workers_at_update (w w' : World St G) (keys : list string)
  (ps : list (prog unit)) (tid i : nat) (key : string) (p' : prog unit) :
  workers_at w tid keys ps ->
  nth_error keys i = Some key ->
  worker_at key p' (calls_of (tid + i) (trace w')) (failures_of (tid + i) w') ->
  (forall t, t <> tid + i ->
     calls_of t (trace w') = calls_of t (trace w)
     /\ failures_of t w' = failures_of t w) ->
  workers_at w' tid keys (set_nth i p' ps).
Proof.
  revert tid ps i. induction keys as [| k keys IH]; intros tid [| q ps] i;
    cbn [workers_at]; try easy.
  - intros _ H. now destruct i.
  - intros [Hq Hps] Hi Hnew Hfr. destruct i as [| i]; cbn [set_nth workers_at].
    + injection Hi as ->. rewrite Nat.add_0_r in *. split; [exact Hnew |].
      apply (workers_at_frame w); [| exact Hps].
      intros t Ht. apply Hfr. lia.
    + cbn [nth_error] in Hi. split.
      * destruct (Hfr tid ltac:(lia)) as [-> ->]. exact Hq.
      * apply (IH (S tid)); try assumption.
        -- now replace (S tid + i) with (tid + S i) by lia.
        -- intros t Ht. apply Hfr. lia.
Qed.

Lemma workers_at_snoc (w : World St G) (keys : list string) (ps : list (prog unit))
  (tid : nat) (key : string) (p : prog unit) :
  workers_at w tid keys ps ->
  worker_at key p (calls_of (tid + List.length ps) (trace w))
            (failures_of (tid + List.length ps) w) ->
  workers_at w tid (keys ++ [key]) (ps ++ [p]).
Proof.
  revert tid ps. induction keys as [| k keys IH]; intros tid [| q ps];
    cbn [workers_at app List.length]; try easy.
  - rewrite Nat.add_0_r. now intros _ H.
  - intros [Hq Hps] Hnew. split; [exact Hq |].
    apply IH; [exact Hps |].
    now replace (S tid + List.length ps) with (tid + S (List.length ps)) by lia.
Qed.

Lemma pending_cons (p : prog unit) (ps : list (prog unit)) :
  pending (p :: ps) = (if finished p then 0 else 1) + pending ps.
Proof. unfold pending. cbn [filter]. now destruct (finished p). Qed.

Lemma pending_set_nth (ps : list (prog unit)) (i : nat) (p p' : prog unit) :
  nth_error ps i = Some p -> finished p = false ->
  pending ps = pending (set_nth i p' ps) + (if finished p' then 1 else 0).
Proof.
  revert i. induction ps as [| q ps IH]; intros [| i] Hi Hp; try discriminate Hi.
  - injection Hi as ->. cbn [set_nth]. rewrite !pending_cons, Hp.
    destruct (finished p'); lia.
  - cbn [nth_error] in Hi. cbn [set_nth]. rewrite !pending_cons, (IH i Hi Hp). lia.
Qed.

Lemma pending_snoc (ps : list (prog unit)) (p : prog unit) :
  pending (ps ++ [p]) = pending ps + (if finished p then 0 else 1).
Proof.
  induction ps as [| q ps IH]; cbn [app].
  - rewrite pending_cons. unfold pending. cbn. lia.
  - rewrite !pending_cons, IH. lia.
Qed.

Lemma pending_zero (ps : list (prog unit)) :
  pending ps = 0 <-> forallb finished ps = true.
Proof.
  induction ps as [| q ps IH]; [easy |].
  rewrite pending_cons. cbn [forallb]. destruct (finished q); cbn.
  - exact IH.
  - split; [lia | discriminate].
Qed.

Lemma set_nth_length {X : Type} (i : nat) (x : X) (l : list X) :
  List.length (set_nth i x l) = List.length l.
Proof.
  revert i. induction l as [| y l IH]; intros [| i]; cbn; try reflexivity.
  now rewrite IH.
Qed.

(** *** The invariant of a run of [testLocker] *)

Lemma locker_inv_start (s : Suite.t St G) :
  locker_inv R (Suite.Rng s) (start s testLocker).
Proof.
  exists testLocker, [], [], 0. cbn. repeat split; try constructor.
Qed.

Lemma locker_inv_step (g0 : G) (tid : nat) (w w' : World St G) :
  locker_inv R g0 w -> step Sto R tid w = Some w' -> locker_inv R g0 w'.
Proof.
  intros (main & ws & keys & extra & Hgs & Hmain & Hws & Hwg & Hnone & Hret) Hstep.
  unfold step in Hstep. rewrite Hgs in Hstep.
  destruct (nth_error (main :: ws) tid) as [p |] eqn:Hp; [| discriminate].
  destruct (step_prog Sto R tid p w) as [[p' w1] |] eqn:Hsp; [| discriminate].
  injection Hstep as <-.
  set (w' := with_goroutines w1 (set_nth tid p' (goroutines w1))).
  assert (Hproj : forall t, calls_of t (trace w') = calls_of t (trace w1)
                            /\ failures_of t w' = failures_of t w1)
    by (intros t; split; reflexivity).
  destruct tid as [| i].
  - (* the test goroutine *)
    injection Hp as <-.
    destruct (main_step g0 _ _ _ _ _ _ Hmain Hsp)
      as (Hfr & keys' & extra' & Hmain' & Hshape & Hret').
    assert (Hfr' : forall t, 1 <= t ->
                     calls_of t (trace w') = calls_of t (trace w)
                     /\ failures_of t w' = failures_of t w).
    { intros t Ht. destruct (Hproj t) as [-> ->]. apply Hfr. lia. }
    destruct Hshape as [(Hg1 & -> & Hwg1) | (key & Hg1 & -> & Hwg1 & -> & ->)].
    + exists p', ws, keys, extra'.
      subst w'. cbn [goroutines with_goroutines]. rewrite Hg1, Hgs. cbn [set_nth].
      split; [reflexivity |]. split; [exact Hmain' |].
      split; [now apply (workers_at_frame w) |].
      split; [change (wg w1 = pending ws + extra'); lia |].
      split.
      * intros tid Hlen.
        change (calls_of tid (trace w1) = [] /\ failures_of tid w1 = []).
        destruct (Hfr tid) as [-> ->]; [cbn in Hlen; lia |].
        apply Hnone. rewrite Hgs. exact Hlen.
      * intros E. destruct (Hret' E). lia.
    + exists p', (ws ++ [worker key]), (keys ++ [key]), 0.
      subst w'. cbn [goroutines with_goroutines]. rewrite Hg1, Hgs.
      cbn [set_nth app].
      destruct (Hnone (S (List.length ws))) as [Hc0 Hf0];
        [rewrite Hgs; cbn; lia |].
      split; [reflexivity |]. split; [exact Hmain' |].
      split.
      { apply workers_at_snoc.
        - now apply (workers_at_frame w).
        - change (worker_at key (worker key)
                    (calls_of (S (List.length ws)) (trace w1))
                    (failures_of (S (List.length ws)) w1)).
          destruct (Hfr (S (List.length ws)) ltac:(lia)) as [-> ->].
          rewrite Hc0, Hf0. apply (at_lock key 5); [lia | constructor]. }
      split.
      { change (wg w1 = pending (ws ++ [worker key]) + 0).
        rewrite pending_snoc. unfold worker. rewrite defer_wg_Done_pending. lia. }
      split.
      * intros tid Hlen. cbn [List.length] in Hlen. rewrite length_app in Hlen.
        cbn [List.length] in Hlen.
        change (calls_of tid (trace w1) = [] /\ failures_of tid w1 = []).
        destruct (Hfr tid) as [-> ->]; [lia |].
        apply Hnone. rewrite Hgs. cbn [List.length]. lia.
      * intros E. destruct (Hret' E). lia.
  - (* a worker *)
    cbn [nth_error] in Hp.
    destruct (workers_at_nth _ _ _ _ _ _ Hws Hp) as (key & Hkey & Hat).
    cbn [Nat.add] in Hat.
    destruct (worker_step key (S i) _ _ _ _ Hat Hsp)
      as (Hat' & Hg1 & Hfr & Hr & Hpend & Hwg1).
    assert (Hlt : i < List.length ws) by (apply nth_error_Some; congruence).
    exists main, (set_nth i p' ws), keys, extra.
    subst w'. cbn [goroutines with_goroutines]. rewrite Hg1, Hgs. cbn [set_nth].
    split; [reflexivity |]. split.
    { change (main_at R g0 main (calls_of 0 (trace w1)) (failures_of 0 w1)
                      (Suite.Rng (ts w1)) keys extra).
      destruct (Hfr 0 ltac:(lia)) as [-> ->]. rewrite Hr. exact Hmain. }
    split.
    { apply (workers_at_update w _ keys ws 1 i key); assumption. }
    split.
    { change (wg w1 = pending (set_nth i p' ws) + extra).
      pose proof (pending_set_nth ws i p p' Hp Hpend). lia. }
    split.
    + intros tid Hlen. cbn [List.length] in Hlen. rewrite set_nth_length in Hlen.
      change (calls_of tid (trace w1) = [] /\ failures_of tid w1 = []).
      destruct (Hfr tid) as [-> ->]; [lia |].
      apply Hnone. rewrite Hgs. cbn [List.length]. lia.
    + intros E. specialize (Hret E).
      pose proof (pending_set_nth ws i p p' Hp Hpend). lia.
Qed.

Lemma locker_inv_run (g0 : G) (sched : list nat) (w : World St G) :
  locker_inv R g0 w -> locker_inv R g0 (run_sched Sto R sched w).
Proof.
  revert w. induction sched as [| tid sched IH]; intros w Hinv; [exact Hinv |].
  cbn [run_sched fold_left]. apply IH. unfold run_step.
  destruct (step Sto R tid w) as [w' |] eqn:Hstep; [| exact Hinv].
  now apply (locker_inv_step g0 tid w).
Qed.

End Interleaving.

(** ** Consequences of the invariant *)

Section LockerFacts.

Context {St G : Type}.
Variable Sto : certmagic.Storage St.
Variable R : RngImpl G.

Lemma draws_prefix (c d : nat) (g : G) :
  exists rest, draws R (c + d) g = draws R c g ++ rest.
Proof.
  induction d as [| d [rest IH]].
  - exists []. now rewrite Nat.add_0_r, app_nil_r.
  - exists (rest ++ [fst (Int R (after_draws R (c + d) g))]).
    rewrite Nat.add_succ_r, draws_S, IH. now rewrite app_assoc.
Qed.

Lemma draws_length (c : nat) (g : G) : List.length (draws R c g) = c.
Proof.
  revert g. induction c as [| c IH]; intros g; cbn [draws]; [reflexivity |].
  destruct (Int R g) as [x g']. cbn. now rewrite IH.
Qed.

Lemma twice_length (l : list string) : List.length (twice l) = 2 * List.length l.
Proof. induction l as [| x l IH]; cbn [twice List.length]; lia. Qed.

(** The keys of the workers started so far begin the list of all ten. *)
Lemma main_at_keys (g0 : G) (p : prog unit) (h : list (call * value))
  (f : list (string * list fmt_arg)) (g : G) (keys : list string) (extra : nat) :
  main_at R g0 p h f g keys extra ->
  exists rest,
    twice (map mk_key (draws R 5 (snd (Int R g0)))) = keys ++ rest.
Proof.
  intros Hat.
  inversion Hat as [| | | | c i h' ks Hci Hpass Hks | c i j h' ks Hci Hj Hpass Hks
                    | c i j h' ks Hci Hj Hpass Hks | h' ks Hpass Hks]; subst;
    try (eexists; reflexivity).
  - destruct (draws_prefix c i (snd (Int R g0))) as (rest & Hrest).
    rewrite Hci in Hrest. rewrite Hrest, map_app, twice_app. eauto.
  - destruct (draws_prefix (S c) i (snd (Int R g0))) as (rest & Hrest).
    replace (S c + i) with 5 in Hrest by lia.
    rewrite Hrest, draws_S, !map_app, !twice_app. cbn [map twice].
    set (key := mk_key (fst (Int R (after_draws R c (snd (Int R g0)))))).
    exists (repeat key (1 + j) ++ twice (map mk_key rest)).
    rewrite <- !app_assoc. f_equal. rewrite !app_assoc. f_equal.
    destruct j as [| [| j]]; [reflexivity | reflexivity | lia].
  - destruct (draws_prefix (S c) i (snd (Int R g0))) as (rest & Hrest).
    replace (S c + i) with 5 in Hrest by lia.
    rewrite Hrest, draws_S, !map_app, !twice_app. cbn [map twice].
    set (key := mk_key (fst (Int R (after_draws R c (snd (Int R g0)))))).
    exists (repeat key (1 + j) ++ twice (map mk_key rest)).
    rewrite <- !app_assoc. f_equal. rewrite !app_assoc. f_equal.
    destruct j as [| [| j]]; [reflexivity | reflexivity | lia].
  - exists []. now rewrite app_nil_r.
Qed.

(** The calls of the test goroutine so far are the first of its three. *)
Lemma main_at_calls (g0 : G) (p : prog unit) (h : list (call * value))
  (f : list (string * list fmt_arg)) (g : G) (keys : list string) (extra : nat) :
  main_at R g0 p h f g keys extra ->
  map fst h = firstn (List.length h)
                     (map chk_call (locker_checks (Itoa (fst (Int R g0)))))
  /\ List.length h <= 3
  /\ (keys <> [] \/ p = Ret tt ->
      Forall2 passed (locker_checks (Itoa (fst (Int R g0)))) h).
Proof.
  assert (Hpre : forall done rest h',
             locker_checks (Itoa (fst (Int R g0))) = done ++ rest ->
             Forall2 passed done h' ->
             map fst h' = firstn (List.length h')
                                 (map chk_call (locker_checks (Itoa (fst (Int R g0)))))
             /\ List.length h' + List.length rest = 3).
  { intros done rest h' Hsplit HF.
    assert (Hm : map fst h' = map chk_call done).
    { clear Hsplit. induction HF as [| c e done h'' [Hc _] _ IH]; cbn;
        [reflexivity | now rewrite Hc, IH]. }
    assert (Hl : List.length h' = List.length done)
      by (symmetry; eapply Forall2_length; eassumption).
    split.
    - rewrite Hsplit, map_app, Hm, Hl, <- (length_map chk_call done).
      now rewrite firstn_app, Nat.sub_diag, firstn_all, firstn_O, app_nil_r.
    - apply (f_equal (@List.length check)) in Hsplit.
      rewrite length_app in Hsplit. cbn in Hsplit. lia. }
  assert (Hall : forall h',
             Forall2 passed (locker_checks (Itoa (fst (Int R g0)))) h' ->
             map fst h' = firstn (List.length h')
                                 (map chk_call (locker_checks (Itoa (fst (Int R g0)))))
             /\ List.length h' <= 3).
  { intros h' HF.
    destruct (Hpre (locker_checks (Itoa (fst (Int R g0)))) [] h') as [H1 H2];
      [now rewrite app_nil_r | exact HF |].
    split; [exact H1 | lia]. }
  assert (Hsnoc : forall done rest c h' v,
             locker_checks (Itoa (fst (Int R g0))) = done ++ c :: rest ->
             Forall2 passed done h' ->
             map fst (h' ++ [(chk_call c, v)])
             = firstn (List.length (h' ++ [(chk_call c, v)]))
                      (map chk_call (locker_checks (Itoa (fst (Int R g0)))))
               /\ List.length (h' ++ [(chk_call c, v)]) <= 3).
  { intros done rest c h' v Hsplit HF.
    assert (Hm : map fst h' = map chk_call done).
    { clear Hsplit. induction HF as [| c0 e done h'' [Hc _] _ IH]; cbn;
        [reflexivity | now rewrite Hc, IH]. }
    assert (Hl : List.length h' = List.length done)
      by (symmetry; eapply Forall2_length; eassumption).
    split.
    - rewrite Hsplit, !map_app, Hm, length_app, Hl. cbn [map fst List.length].
      rewrite <- (length_map chk_call done), firstn_app.
      replace (List.length (map chk_call done) + 1 - List.length (map chk_call done))
        with 1 by lia.
      rewrite firstn_all2 by lia. reflexivity.
    - apply (f_equal (@List.length check)) in Hsplit.
      rewrite length_app in Hsplit. cbn in Hsplit.
      rewrite length_app. cbn. lia. }
  intros Hat.
  inversion Hat as [| done rest c q h' Hsplit Hscr Hdone
                    | done rest c h' v format args Hsplit Hdone Hv
                    | done rest c h' v format args Hsplit Hdone Hv
                    | c i h' ks Hci Hpass Hks | c i j h' ks Hci Hj Hpass Hks
                    | c i j h' ks Hci Hj Hpass Hks | h' ks Hpass Hks]; subst.
  - repeat split; cbn; try lia. intros [H | H]; [congruence | discriminate H].
  - destruct (Hpre done (c :: rest) h Hsplit Hdone) as [H1 H2].
    repeat split; [exact H1 | cbn in H2; lia |].
    intros [H | H]; [congruence |]. subst p. inversion Hscr.
  - destruct (Hsnoc done rest c h' v Hsplit Hdone) as [H1 H2].
    repeat split; [exact H1 | exact H2 |].
    intros [H | H]; [congruence | discriminate H].
  - destruct (Hsnoc done rest c h' v Hsplit Hdone) as [H1 H2].
    repeat split; [exact H1 | exact H2 |].
    intros [H | H]; [congruence | discriminate H].
  - destruct (Hall h Hpass) as [H1 H2]. split; [exact H1 | split; [exact H2 | now intros _]].
  - destruct (Hall h Hpass) as [H1 H2]. split; [exact H1 | split; [exact H2 | now intros _]].
  - destruct (Hall h Hpass) as [H1 H2]. split; [exact H1 | split; [exact H2 | now intros _]].
  - destruct (Hall h Hpass) as [H1 H2]. split; [exact H1 | split; [exact H2 | now intros _]].
Qed.

Lemma iterations_calls (key : string) (n : nat) (h : list (call * value)) :
  iterations key n h ->
  Forall (fun e => fst e = CLock key \/ fst e = CUnlock key) h
  /\ List.length (filter (fun e => match fst e with CLock _ => true | _ => false end) h)
     = n.
Proof.
  induction 1 as [| n h it Hh [IH1 IH2] Hit]; [now split |].
  rewrite filter_app, length_app, IH2. split.
  - apply Forall_app. split; [exact IH1 |].
    destruct Hit; repeat (apply Forall_cons; [cbn; auto |]); apply Forall_nil.
  - destruct Hit; cbn; lia.
Qed.

(** A worker calls nothing but [Lock] and [Unlock] on its key, and [Lock]
    five times at most. *)
Lemma worker_at_calls (key : string) (p : prog unit) (h : list (call * value))
  (f : list (string * list fmt_arg)) :
  worker_at key p h f ->
  Forall (fun e => fst e = CLock key \/ fst e = CUnlock key) h
  /\ List.length (filter (fun e => match fst e with CLock _ => true | _ => false end) h)
     <= 5.
Proof.
  intros Hat.
  inversion Hat as [n h' Hn Hit | n h' Hn Hit | n h' Hn Hit | n h' e Hn Hit
                    | n h' e Hn Hit | n h' e Hn Hit | h' Hit]; subst;
    destruct (iterations_calls _ _ _ Hit) as [HF Hc];
    rewrite ?filter_app, ?length_app, ?Hc; cbn [filter fst List.length failed_iteration];
    (split; [| lia]);
    try exact HF;
    apply Forall_app; (split; [exact HF |]);
    repeat (apply Forall_cons; [cbn; auto |]); apply Forall_nil.
Qed.

Lemma In_calls_of (tid : nat) (c : call) (v : value) (tr : list (nat * call * value)) :
  In (tid, c, v) tr -> In (c, v) (calls_of tid tr).
Proof.
  intros Hin. unfold calls_of.
  apply (in_map (fun e => (snd (fst e), snd e)) _ (tid, c, v)).
  apply filter_In. split; [exact Hin |]. cbn. apply Nat.eqb_refl.
Qed.

End LockerFacts.

Lemma In_twice (x : string) (l : list string) : In x (twice l) -> In x l.
Proof.
  induction l as [| y l IH]; cbn [twice]; [easy |].
  intros [H | [H | H]]; [now left | now left | right; now apply IH].
Qed.

Lemma nth_error_twice (l : list string) (i : nat) :
  nth_error (twice l) i = nth_error l (i / 2).
Proof.
  revert i. induction l as [| x l IH]; intros i; cbn [twice].
  - now rewrite !nth_error_nil.
  - destruct i as [| [| i]]; [reflexivity | reflexivity |].
    cbn [nth_error]. rewrite IH.
    replace (S (S i)) with (i + 1 * 2) by lia.
    rewrite Nat.div_add by lia. now rewrite Nat.add_1_r.
Qed.

(** Calls that only goroutine 0 makes are counted among its own. *)
Lemma filter_calls_of_0 (P : call -> bool) (tr : list (nat * call * value)) :
  (forall tid c v, In (tid, c, v) tr -> P c = true -> tid = 0) ->
  List.length (filter (fun e => P (snd (fst e))) tr)
  = List.length (filter P (map fst (calls_of 0 tr))).
Proof.
  induction tr as [| [[tid c] v] tr IH]; intros Hall; [reflexivity |].
  assert (IH' := IH (fun t c' v' Hin => Hall t c' v' (or_intror Hin))).
  unfold calls_of in *. cbn [filter fst snd map].
  destruct (P c) eqn:Pc.
  - rewrite (Hall tid c v (or_introl eq_refl) Pc). cbn [Nat.eqb map filter fst snd].
    rewrite Pc. cbn [List.length]. now rewrite IH'.
  - destruct (Nat.eqb tid 0); cbn [map filter fst snd]; rewrite ?Pc; exact IH'.
Qed.

Lemma NoDup_mk_key (l : list Z) : NoDup l -> NoDup (map mk_key l).
Proof.
  induction 1 as [| x l Hx Hl IH]; cbn [map]; constructor; [| exact IH].
  intros Hin. apply in_map_iff in Hin. destruct Hin as (y & Hy & Hin).
  apply randKey_name_inj in Hy. now subst y.
Qed.

Lemma own_unlocks_bound (K : string) (n : nat) :
  List.length
    (filter (fun c => match c with CUnlock key => String.eqb key K | _ => false end)
            (firstn n [CUnlock K; CLock K; CUnlock K])) <= 2.
Proof.
  destruct n as [| [| [| n]]]; cbn [firstn filter];
    rewrite ?firstn_nil, ?String.eqb_refl; cbn [filter List.length]; lia.
Qed.

Section LockerClaims.

Context {St G : Type}.
Variable Sto : certmagic.Storage St.
Variable R : RngImpl G.

(** A worker's key is one of the five generated after the check's own. *)
Lemma worker_key_generated (g0 : G) (p : prog unit) (h : list (call * value))
  (f : list (string * list fmt_arg)) (g : G) (keys : list string) (extra i : nat)
  (key : string) :
  main_at R g0 p h f g keys extra ->
  nth_error keys i = Some key ->
  nth_error (map mk_key (draws R 5 (snd (Int R g0)))) (i / 2) = Some key.
Proof.
  intros Hat Hi. destruct (main_at_keys R g0 _ _ _ _ _ _ Hat) as (rest & Hrest).
  rewrite <- nth_error_twice, Hrest, nth_error_app1; [exact Hi |].
  apply nth_error_Some. congruence.
Qed.

Lemma main_at_Ret (g0 : G) (h : list (call * value))
  (f : list (string * list fmt_arg)) (g : G) (keys : list string) (extra : nat) :
  main_at R g0 (Ret tt) h f g keys extra ->
  keys = twice (map mk_key (draws R 5 (snd (Int R g0)))).
Proof.
  intros Hat. remember (Ret tt) as p eqn:Hp.
  destruct Hat as [| done rest c q h Hsplit Hscr Hdone | | | c i h ks Hci Hpass Hks
                   | | | h ks Hpass Hks]; try discriminate Hp.
  - subst q. inversion Hscr.
  - destruct i; discriminate Hp.
  - assumption.
Qed.

(** C5, as the code has it.  In every run of the locking check, whatever
    the schedule, the test goroutine's own calls are the first of three on
    its key K: Unlock, Lock, Unlock.  Once a worker has been started, or
    the check has returned, these three were made, the first Unlock
    returned an error and the Lock and the second Unlock did not.  Every
    call of another goroutine is a Lock or Unlock on a key that begins
    with [KeyPrefix], which K does not; so Unlock(K) is called twice at
    most, and no Unlock(K) follows the successful one. *)
Theorem testLocker_own_calls (s : Suite.t St G) (sched : list nat) :
  let w := run_sched Sto R sched (start s testLocker) in
  let K := Itoa (fst (Int R (Suite.Rng s))) in
  map fst (calls_of 0 (trace w))
  = firstn (List.length (calls_of 0 (trace w))) [CUnlock K; CLock K; CUnlock K]
  /\ (1 < List.length (goroutines w) \/ nth_error (goroutines w) 0 = Some (Ret tt) ->
      exists v1 v2 v3,
        calls_of 0 (trace w) = [(CUnlock K, v1); (CLock K, v2); (CUnlock K, v3)]
        /\ fails v1 = true /\ err_of v2 = None /\ err_of v3 = None)
  /\ (forall tid c v,
        In (tid, c, v) (trace w) -> tid <> 0 ->
        exists key,
          String.prefix KeyPrefix key = true /\ key <> K
          /\ (c = CLock key \/ c = CUnlock key))
  /\ List.length (filter (is_unlock_of K) (trace w)) <= 2.
Proof.
  intros w K.
  destruct (locker_inv_run Sto R (Suite.Rng s) sched _ (locker_inv_start R s))
    as (main & ws & keys & extra & Hgs & Hmain & Hws & Hwg & Hnone & Hret).
  fold w in Hgs, Hmain, Hws, Hwg, Hnone.
  destruct (main_at_calls R _ _ _ _ _ _ _ Hmain) as (Hcalls & Hlen & Hpassed).
  fold K in Hcalls, Hpassed.
  assert (Hothers : forall tid c v,
            In (tid, c, v) (trace w) -> tid <> 0 ->
            exists key,
              String.prefix KeyPrefix key = true /\ key <> K
              /\ (c = CLock key \/ c = CUnlock key)).
  { intros [| i] c v Hin Htid; [congruence |].
    apply In_calls_of in Hin.
    destruct (nth_error ws i) as [p |] eqn:Hp.
    - destruct (workers_at_nth _ _ _ _ _ _ Hws Hp) as (key & Hkey & Hat).
      cbn [Nat.add] in Hat.
      destruct (worker_at_calls _ _ _ _ Hat) as [HF _].
      rewrite Forall_forall in HF. specialize (HF _ Hin). cbn [fst] in HF.
      pose proof (worker_key_generated _ _ _ _ _ _ _ _ _ Hmain Hkey) as Hgen.
      apply nth_error_In, in_map_iff in Hgen. destruct Hgen as (n & <- & _).
      exists (mk_key n). split; [apply randKey_prefixed |]. split; [| exact HF].
      intros E. pose proof (Itoa_unprefixed (fst (Int R (Suite.Rng s)))) as Hun.
      fold K in Hun. rewrite <- E in Hun. unfold mk_key in Hun.
      rewrite randKey_prefixed in Hun. discriminate Hun.
    - apply nth_error_None in Hp.
      destruct (Hnone (S i)) as [E _]; [rewrite Hgs; cbn; lia |].
      rewrite E in Hin. destruct Hin. }
  split; [exact Hcalls |]. split; [| split; [exact Hothers |]].
  - intros Hpast.
    assert (HF : Forall2 passed (locker_checks K) (calls_of 0 (trace w))).
    { apply Hpassed. destruct Hpast as [Hl | Hm].
      - left. intros ->. apply workers_at_length in Hws.
        rewrite Hgs in Hl. cbn in Hl, Hws. lia.
      - right. rewrite Hgs in Hm. now injection Hm. }
    unfold locker_checks in HF.
    inversion HF as [| c1 e1 l1 t1 [Hc1 Hk1] HF1]; subst.
    inversion HF1 as [| c2 e2 l2 t2 [Hc2 Hk2] HF2]; subst.
    inversion HF2 as [| c3 e3 l3 t3 [Hc3 Hk3] HF3]; subst.
    inversion HF3; subst.
    destruct e1 as [a1 v1], e2 as [a2 v2], e3 as [a3 v3].
    cbn [fst snd chk_call chk_ok] in *. subst.
    exists v1, v2, v3. split; [reflexivity |]. split; [exact Hk1 |].
    unfold succeeds, fails in Hk2, Hk3.
    split; [now destruct (err_of v2) | now destruct (err_of v3)].
  - change (is_unlock_of K)
      with (fun e : nat * call * value =>
              (fun c => match c with CUnlock key => String.eqb key K | _ => false end)
                (snd (fst e))).
    rewrite filter_calls_of_0.
    + rewrite Hcalls. apply own_unlocks_bound.
    + intros tid c v Hin HP. destruct tid as [| i]; [reflexivity |].
      destruct (Hothers (S i) c v Hin ltac:(lia)) as (key & _ & Hne & [-> | ->]).
      * discriminate HP.
      * apply String.eqb_eq in HP. contradiction.
Qed.

(** C7, as the code has it.  In every run of the locking check, whatever
    the schedule: at most ten workers exist; worker number i (goroutine
    i + 1) runs for the key of index i / 2 among the five that [randKey]
    generated in turn, two workers for each key; each worker stands where
    [worker_at] says: it has called nothing but Lock and Unlock on its
    key, Lock five times at most, an error from Lock ends the iteration
    without a failure, a successful Lock is followed by Unlock, and an
    error from that Unlock is recorded as a failure and ends the worker.  A
    worker that returned made five iterations and recorded nothing; a
    worker that exited recorded the error of its last Unlock.  When the
    check has returned there are ten workers and all have ended.  The five
    keys are pairwise distinct when the generator's five results are. *)
Theorem lock_stress_workers (s : Suite.t St G) (sched : list nat) :
  let w := run_sched Sto R sched (start s testLocker) in
  let keys := map mk_key (draws R 5 (snd (Int R (Suite.Rng s)))) in
  List.length keys = 5
  /\ List.length (goroutines w) <= 11
  /\ (forall i p,
        nth_error (goroutines w) (S i) = Some p ->
        exists key,
          nth_error keys (i / 2) = Some key
          /\ worker_at key p (calls_of (S i) (trace w)) (failures_of (S i) w)
          /\ Forall (fun e => fst e = CLock key \/ fst e = CUnlock key)
                    (calls_of (S i) (trace w))
          /\ List.length (filter (fun e => match fst e with
                                           | CLock _ => true
                                           | _ => false
                                           end)
                                 (calls_of (S i) (trace w))) <= 5
          /\ (p = Ret tt ->
              iterations key 5 (calls_of (S i) (trace w))
              /\ failures_of (S i) w = [])
          /\ (p = Goexit ->
              exists n h e,
                n < 5 /\ iterations key (4 - n) h
                /\ calls_of (S i) (trace w) = h ++ failed_iteration key e
                /\ failures_of (S i) w = [unlock_failure e]))
  /\ (nth_error (goroutines w) 0 = Some (Ret tt) ->
      List.length (goroutines w) = 11 /\ all_finished w = true)
  /\ (NoDup (draws R 5 (snd (Int R (Suite.Rng s)))) -> NoDup keys).
Proof.
  intros w keys.
  destruct (locker_inv_run Sto R (Suite.Rng s) sched _ (locker_inv_start R s))
    as (main & ws & ks & extra & Hgs & Hmain & Hws & Hwg & Hnone & Hret).
  fold w in Hgs, Hmain, Hws, Hwg, Hnone.
  destruct (main_at_keys R _ _ _ _ _ _ _ Hmain) as (rest & Hrest). fold keys in Hrest.
  assert (Hk5 : List.length keys = 5)
    by (unfold keys; now rewrite length_map, draws_length).
  assert (Hlen : List.length ws = List.length ks)
    by (symmetry; eapply workers_at_length; eassumption).
  assert (Hks : List.length ks + List.length rest = 10).
  { apply (f_equal (@List.length string)) in Hrest.
    rewrite twice_length, length_app, Hk5 in Hrest. lia. }
  split; [exact Hk5 |]. split; [rewrite Hgs; cbn; lia |].
  split; [| split].
  - intros i p Hp. rewrite Hgs in Hp. cbn [nth_error] in Hp.
    destruct (workers_at_nth _ _ _ _ _ _ Hws Hp) as (key & Hkey & Hat).
    cbn [Nat.add] in Hat.
    exists key. split; [exact (worker_key_generated _ _ _ _ _ _ _ _ _ Hmain Hkey) |].
    split; [exact Hat |].
    destruct (worker_at_calls _ _ _ _ Hat) as [HF HL].
    split; [exact HF |]. split; [exact HL |]. split.
    + intros ->. inversion Hat as [n h Hn Hit Hq | | | | | | h Hit]; subst.
      * destruct n; discriminate Hq.
      * now split.
    + intros ->. inversion Hat as [n h Hn Hit Hq | | | | | n h e Hn Hit |]; subst.
      * destruct n; discriminate Hq.
      * exists n, h, e. now repeat split.
  - intros Hm. rewrite Hgs in Hm. injection Hm as ->.
    pose proof (main_at_Ret _ _ _ _ _ _ Hmain) as Hall. fold keys in Hall.
    rewrite Hall, twice_length, Hk5 in Hlen.
    split; [rewrite Hgs; cbn; lia |].
    unfold all_finished. rewrite Hgs. cbn [forallb finished andb].
    apply pending_zero. now apply Hret.
  - intros Hnd. unfold keys. now apply NoDup_mk_key.
Qed.

(** What keeps the test goroutine from its next step. *)
Lemma main_blocked (g0 : G) (p : prog unit) (w : World St G) (keys : list string)
  (extra : nat) :
  main_at R g0 p (calls_of 0 (trace w)) (failures_of 0 w) (Suite.Rng (ts w))
          keys extra ->
  step_prog Sto R 0 p w = None ->
  finished p = true
  \/ (p = wg_Wait /\ 0 < wg w
      /\ keys = twice (map mk_key (draws R 5 (snd (Int R g0))))).
Proof.
  intros Hat Hstep.
  inversion Hat as [Hp | done rest c q h Hsplit Hscr Hdone Hp
                    | done rest c h v format args Hsplit Hdone Hv Hp
                    | done rest c h v format args Hsplit Hdone Hv Hp
                    | c i h ks Hci Hpass Hks Hp
                    | c i j h ks Hci Hj Hpass Hks Hp
                    | c i j h ks Hci Hj Hpass Hks Hp
                    | h ks Hpass Hks Hp]; subst p;
    try (left; reflexivity).
  - exfalso. unfold testLocker, Rng_Int in Hstep. cbn in Hstep.
    now destruct (Int R (Suite.Rng (ts w))).
  - exfalso. inversion Hscr; subst. cbn in Hstep.
    now destruct (do_call Sto (chk_call c) (Suite.S (ts w))).
  - discriminate Hstep.
  - destruct i as [| i].
    + right. assert (c = 5) by lia. subst c.
      cbn in Hstep. destruct (wg w); [discriminate |].
      repeat split; [lia | assumption].
    + exfalso. unfold randKey, Rng_Int in Hstep. cbn in Hstep.
      now destruct (Int R (Suite.Rng (ts w))).
  - discriminate Hstep.
  - discriminate Hstep.
Qed.

(** C8, as the code has it.  In every run of the locking check, whatever
    the schedule: the wait group counts the workers that have not ended
    (and one more between [wg.Add(1)] and the [go] statement); the test
    goroutine is kept from its next step only at the single [wg.Wait()]
    that follows the start of all ten workers, and only while one of
    them has not ended; and when the check has returned there are ten
    workers and all have ended. *)
Theorem lock_stress_single_barrier (s : Suite.t St G) (sched : list nat) :
  let w := run_sched Sto R sched (start s testLocker) in
  (wg w = pending (tl (goroutines w)) \/ wg w = S (pending (tl (goroutines w))))
  /\ (step Sto R 0 w = None ->
      exists main,
        nth_error (goroutines w) 0 = Some main
        /\ (finished main = true
            \/ (main = wg_Wait /\ List.length (goroutines w) = 11
                /\ 0 < pending (tl (goroutines w)))))
  /\ (nth_error (goroutines w) 0 = Some (Ret tt) ->
      List.length (goroutines w) = 11 /\ all_finished w = true).
Proof.
  intros w.
  destruct (locker_inv_run Sto R (Suite.Rng s) sched _ (locker_inv_start R s))
    as (main & ws & ks & extra & Hgs & Hmain & Hws & Hwg & Hnone & Hret).
  fold w in Hgs, Hmain, Hws, Hwg, Hnone.
  assert (Hlen : List.length ws = List.length ks)
    by (symmetry; eapply workers_at_length; eassumption).
  assert (Hk10 : List.length (twice (map mk_key (draws R 5 (snd (Int R (Suite.Rng s))))))
                 = 10)
    by (now rewrite twice_length, length_map, draws_length).
  rewrite Hgs. cbn [tl nth_error].
  split; [| split].
  - assert (extra <= 1) by (inversion Hmain; lia).
    destruct extra as [| [| extra]]; [left | right |]; lia.
  - intros Hblocked. exists main. split; [reflexivity |].
    unfold step in Hblocked. rewrite Hgs in Hblocked. cbn [nth_error] in Hblocked.
    destruct (step_prog Sto R 0 main w) as [[p' w1] |] eqn:Hsp; [discriminate |].
    destruct (main_blocked _ _ _ _ _ Hmain Hsp) as [Hfin | (Hm & Hpos & Hks)];
      [now left | right].
    split; [exact Hm |]. subst ks. rewrite Hk10 in Hlen.
    split; [cbn; lia |].
    assert (extra = 0).
    { subst main. remember wg_Wait as p eqn:Hp.
      destruct Hmain; try discriminate Hp; reflexivity. }
    lia.
  - intros Hm. injection Hm as ->.
    rewrite (main_at_Ret _ _ _ _ _ _ Hmain), Hk10 in Hlen.
    split; [cbn; lia |].
    unfold all_finished. rewrite Hgs. cbn [forallb finished andb].
    apply pending_zero. now apply Hret.
Qed.

End LockerClaims.

(** C5, the claim as worded fails: on the storage with the lenient
    [Unlock] the locking check passes under the sample schedule, having
    called Unlock on its key "0" twice only (the call that must fail and
    the one after Lock), although one more Unlock of that key would
    succeed. *)
Lemma testLocker_passes_lenient_Unlock :
  let w := run_sched lenient counter workers_in_turn (start sample_suite testLocker) in
  all_finished w = true
  /\ failures w = []
  /\ calls_of 0 (trace w)
     = [(CUnlock "0", VErr (Some "not locked")); (CLock "0", VErr None);
        (CUnlock "0", VErr None)]
  /\ List.length (filter (is_unlock_of "0") (trace w)) = 2
  /\ fst (certmagic.Unlock lenient "0" (Suite.S (ts w))) = None.
Proof. vm_compute. repeat split. Qed.

(** C7, the claim as worded fails: with a generator that returns 7 every
    time, the five keys of the stress check are one and the same, and the
    first workers of the first and of the second key lock the same key. *)
Lemma lock_stress_keys_coincide :
  let s := {| Suite.S := MemStorage.empty; Suite.Rng := 7%Z; Suite.randKeys := [] |} in
  let w := run_sched MemStorage.storage constant workers_in_turn (start s testLocker) in
  all_finished w = true
  /\ map mk_key (draws constant 5 (snd (Int constant (Suite.Rng s))))
     = repeat "__test__key__7" 5
  /\ ~ NoDup (map mk_key (draws constant 5 (snd (Int constant (Suite.Rng s)))))
  /\ nth_error (calls_of 1 (trace w)) 0 = Some (CLock "__test__key__7", VErr None)
  /\ nth_error (calls_of 3 (trace w)) 0 = Some (CLock "__test__key__7", VErr None).
Proof.
  intros s w.
  assert (E : map mk_key (draws constant 5 (snd (Int constant (Suite.Rng s))))
              = repeat "__test__key__7" 5) by (vm_compute; reflexivity).
  split; [vm_compute; reflexivity |]. split; [exact E |]. split.
  - rewrite E. cbn [repeat]. intros H. inversion H as [| x l Hx _]. apply Hx. now left.
  - split; vm_compute; reflexivity.
Qed.

(** C8, the claim as worded fails: under the schedule [second_key_first]
    a worker for the second key has made its first call while the two
    workers for the first key have not taken a step. *)
Lemma second_key_worker_runs_first :
  let w := run_sched MemStorage.storage counter second_key_first
             (start sample_suite testLocker) in
  map mk_key (draws counter 2 (snd (Int counter (Suite.Rng sample_suite))))
  = ["__test__key__1"; "__test__key__2"]
  /\ nth_error (goroutines w) 1 = Some (worker "__test__key__1")
  /\ nth_error (goroutines w) 2 = Some (worker "__test__key__1")
  /\ calls_of 1 (trace w) = []
  /\ calls_of 2 (trace w) = []
  /\ calls_of 3 (trace w) = [(CLock "__test__key__2", VErr None)]
  /\ option_map finished (nth_error (goroutines w) 3) = Some false.
Proof. vm_compute. repeat split. Qed.

(** ** The shape of generated keys *)

Lemma contains_append (c : ascii) (a b : string) :
  contains c (a ++ b) = contains c a || contains c b.
Proof.
  induction a as [| x a IH]; cbn [String.append contains]; [reflexivity |].
  now rewrite IH, orb_assoc.
Qed.

Lemma string_of_uint_no_slash (d : Decimal.uint) :
  contains "/" (NilZero.string_of_uint d) = false.
Proof.
  assert (H : forall u, contains "/" (NilEmpty.string_of_uint u) = false)
    by (induction u; cbn; assumption || reflexivity).
  destruct d; try apply H. reflexivity.
Qed.

Lemma Itoa_no_slash (n : Z) : contains "/" (Itoa n) = false.
Proof.
  unfold Itoa, NilZero.string_of_int.
  destruct (Z.to_int n) as [d | d]; cbn [contains];
    rewrite string_of_uint_no_slash; reflexivity.
Qed.

Lemma Itoa_nonempty (n : Z) : 0 < String.length (Itoa n).
Proof.
  unfold Itoa, NilZero.string_of_int.
  destruct n as [| p | p]; cbn [Z.to_int].
  - cbn. lia.
  - destruct (Pos.to_uint p); cbn; lia.
  - cbn. lia.
Qed.

Lemma length_append (a b : string) :
  String.length (a ++ b) = String.length a + String.length b.
Proof. induction a as [| x a IH]; cbn; [reflexivity | now rewrite IH]. Qed.

Section KeyShape.

Context {St G : Type}.
Variable Sto : certmagic.Storage St.
Variable R : RngImpl G.

(** X1.  The name [randKey] returns begins with [KeyPrefix], goes on with
    at least one more byte, and holds no forward slash: it names a
    top-level key, whatever the generator returns. *)
Theorem randKey_no_slash (w : World St G) :
  exists key,
    fst (exec Sto R randKey w) = Returned key
    /\ String.prefix KeyPrefix key = true
    /\ String.length KeyPrefix < String.length key
    /\ contains "/" key = false.
Proof.
  rewrite exec_randKey. eexists. split; [reflexivity |].
  split; [apply prefix_append |]. split.
  - rewrite length_append. pose proof (Itoa_nonempty (fst (Int R (Suite.Rng (ts w))))). lia.
  - rewrite contains_append, Itoa_no_slash. reflexivity.
Qed.

(** X2.  The names of [n] successive calls of [randKey] are pairwise
    distinct exactly when the generator's [n] results are: two names
    collide only if the generator repeats a number. *)
Theorem randKey_names_NoDup (n : nat) (w : World St G) :
  NoDup (randKey_names Sto R n w) <-> NoDup (draws R n (Suite.Rng (ts w))).
Proof.
  rewrite randKey_names_draws. split.
  - apply NoDup_map_inv.
  - apply NoDup_mk_key.
Qed.

End KeyShape.

(** ** The order of a listing *)

Lemma ascii_compare_refl (c : ascii) : Ascii.compare c c = Eq.
Proof. unfold Ascii.compare. apply N.compare_refl. Qed.

Lemma string_leb_trans (a b c : string) :
  String.leb a b = true -> String.leb b c = true -> String.leb a c = true.
Proof.
  unfold String.leb. revert b c.
  induction a as [| x a IH]; intros [| y b] [| z c]; cbn [String.compare];
    try congruence.
  destruct (Ascii.compare x y) eqn:Hxy.
  - apply Ascii.compare_eq_iff in Hxy. subst y.
    destruct (Ascii.compare x z); [apply IH | congruence | congruence].
  - destruct (Ascii.compare y z) eqn:Hyz.
    + apply Ascii.compare_eq_iff in Hyz. subst z. now rewrite Hxy.
    + unfold Ascii.compare in *. rewrite N.compare_lt_iff in Hxy, Hyz.
      assert (H : (N_of_ascii x < N_of_ascii z)%N) by lia.
      apply N.compare_lt_iff in H. now rewrite H.
    + congruence.
  - congruence.
Qed.

Lemma string_leb_false (a b : string) : String.leb a b = false -> String.leb b a = true.
Proof. intros H. destruct (String.leb_total a b) as [E | E]; congruence. Qed.

(** Insertions commute, so the order of the input does not matter. *)
Lemma insert_sorted_comm (a b : string) (l : list string) :
  insert_sorted a (insert_sorted b l) = insert_sorted b (insert_sorted a l).
Proof.
  induction l as [| x l IH]; cbn [insert_sorted].
  - destruct (String.leb a b) eqn:Hab, (String.leb b a) eqn:Hba; try reflexivity.
    + now rewrite (String.leb_antisym _ _ Hab Hba).
    + apply string_leb_false in Hab. congruence.
  - destruct (String.leb b x) eqn:Hbx, (String.leb a x) eqn:Hax; cbn [insert_sorted].
    + destruct (String.leb a b) eqn:Hab, (String.leb b a) eqn:Hba;
        rewrite ?Hax, ?Hbx; try reflexivity.
      * now rewrite (String.leb_antisym _ _ Hab Hba).
      * apply string_leb_false in Hab. congruence.
    + rewrite Hbx. destruct (String.leb a b) eqn:Hab.
      * rewrite (string_leb_trans _ _ _ Hab Hbx) in Hax. discriminate.
      * now rewrite Hax.
    + rewrite Hax. destruct (String.leb b a) eqn:Hba.
      * rewrite (string_leb_trans _ _ _ Hba Hax) in Hbx. discriminate.
      * now rewrite Hbx.
    + now rewrite Hax, Hbx, IH.
Qed.

Lemma insert_sorted_Permutation (a : string) (l : list string) :
  Permutation (insert_sorted a l) (a :: l).
Proof.
  induction l as [| x l IH]; cbn [insert_sorted]; [reflexivity |].
  destruct (String.leb a x); [reflexivity |].
  rewrite IH. apply perm_swap.
Qed.

Lemma sort_Strings_Permutation (l : list string) : Permutation (sort_Strings l) l.
Proof.
  induction l as [| x l IH]; cbn; [reflexivity |].
  fold (sort_Strings l). now rewrite insert_sorted_Permutation, IH.
Qed.

Lemma sort_Strings_invariant (l l' : list string) :
  Permutation l l' -> sort_Strings l = sort_Strings l'.
Proof.
  induction 1 as [| x l l' _ IH | x y l | l l' l'' _ IH1 _ IH2]; cbn.
  - reflexivity.
  - fold (sort_Strings l) (sort_Strings l'). now rewrite IH.
  - apply insert_sorted_comm.
  - congruence.
Qed.

Lemma string_leb_append (p a b : string) :
  String.leb (p ++ a) (p ++ b) = String.leb a b.
Proof.
  unfold String.leb. induction p as [| c p IH]; cbn [String.append String.compare];
    [reflexivity |].
  now rewrite ascii_compare_refl.
Qed.

(** The two expected listings are in increasing order whatever [dir]. *)
Lemma expected_sorted (dir : string) :
  sort_Strings [dir ++ "/k"; dir ++ "/k1"]%string = [dir ++ "/k"; dir ++ "/k1"]%string
  /\ sort_Strings [dir ++ "/k"; dir ++ "/k/a"; dir ++ "/k/a/b"; dir ++ "/k/c";
                   dir ++ "/k1"]%string
     = [dir ++ "/k"; dir ++ "/k/a"; dir ++ "/k/a/b"; dir ++ "/k/c"; dir ++ "/k1"]%string.
Proof.
  unfold sort_Strings. cbn [fold_right insert_sorted].
  split;
    repeat (rewrite string_leb_append;
            match goal with
            | |- context [String.leb ?a ?b] =>
                let v := eval vm_compute in (String.leb a b) in
                change (String.leb a b) with v
            end;
            cbn [insert_sorted]);
    reflexivity.
Qed.

Lemma sorted_is_iff (l exp : list string) :
  sort_Strings exp = exp ->
  (sort_Strings l = exp <-> Permutation l exp).
Proof.
  intros Hexp. split.
  - intros <-. symmetry. apply sort_Strings_Permutation.
  - intros HP. now rewrite (sort_Strings_invariant _ _ HP).
Qed.

Section ListingOrder.

Context {St G : Type}.
Variable Sto : certmagic.Storage St.
Variable R : RngImpl G.
Variable Sprintf_v : list string -> string.

(** X3.  The order in which [List] returns the keys does not matter to
    the hierarchical listing check, because it sorts each listing before
    comparing: for a rendering that tells any two slices apart, the check
    returns exactly when its nine calls were made with the results asked
    for and the two listings of dir are rearrangements of [dir/k, dir/k1]
    and of [dir/k, dir/k/a, dir/k/a/b, dir/k/c, dir/k1], with no key
    missing, added or repeated. *)
Theorem testStorageDir_order_irrelevant
  (Hinj : forall a b, Sprintf_v a = Sprintf_v b -> a = b) (w : World St G) :
  let dir := (KeyPrefix ++ Itoa (fst (Int R (Suite.Rng (ts w)))))%string in
  let val := bytes_of_string dir in
  let out := fst (exec Sto R (testStorageDir Sprintf_v) w) in
  let w' := snd (exec Sto R (testStorageDir Sprintf_v) w) in
  exists evs,
    trace w' = trace w ++ tagged 0 evs
    /\ (out = Returned tt <->
        exists v1 v2 v3 v4 v5 v6 v7 v8 v9,
          evs = [(CList (dir ++ "/k1") true, v1); (CList (dir ++ "/k/a/b") false, v2);
                 (CStore (dir ++ "/k1") val, v3); (CStore (dir ++ "/k/a/b") val, v4);
                 (CStore (dir ++ "/k/c") val, v5);
                 (CStat dir, v6); (CStat (dir ++ "/k/a/b"), v7);
                 (CList dir false, v8); (CList dir true, v9)]%string
          /\ (fails v1 = true /\ fails v2 = true)
          /\ (err_of v3 = None /\ err_of v4 = None /\ err_of v5 = None)
          /\ (err_of v6 = None /\ certmagic.Key (info_of v6) = dir
              /\ certmagic.IsTerminal (info_of v6) = false)
          /\ (err_of v7 = None /\ certmagic.Key (info_of v7) = (dir ++ "/k/a/b")%string
              /\ certmagic.IsTerminal (info_of v7) = true)
          /\ (err_of v8 = None
              /\ Permutation (strings_of v8) [dir ++ "/k"; dir ++ "/k1"]%string)
          /\ (err_of v9 = None
              /\ Permutation (strings_of v9)
                   [dir ++ "/k"; dir ++ "/k/a"; dir ++ "/k/a/b"; dir ++ "/k/c";
                    dir ++ "/k1"]%string)).
Proof.
  intros dir val out w'.
  destruct (testStorageDir_exec Sto R Sprintf_v w) as (fl & Hex & Hlen).
  fold dir in Hex, Hlen.
  assert (Hsame : run_checks Sto (dir_checks (same_rendering Sprintf_v) dir (Some dir))
                             (Suite.S (ts w))
                  = run_checks Sto (dir_checks strings_eqb dir (Some dir))
                               (Suite.S (ts w))).
  { apply run_checks_ext. unfold dir_checks, dir_before, dir_stores, dir_after.
    cbn [app].
    repeat constructor; cbn [chk_ok]; intros v;
      now rewrite (same_rendering_eqb Sprintf_v Hinj). }
  rewrite Hsame in Hex. clear Hsame Hlen.
  set (chk := run_checks Sto (dir_checks strings_eqb dir (Some dir)) (Suite.S (ts w)))
    in *.
  exists (fst (fst chk)). subst out w'. rewrite Hex. cbn [fst snd trace].
  destruct (run_checks_sound Sto (dir_checks strings_eqb dir (Some dir))
                             (Suite.S (ts w))) as [_ Hok].
  fold chk in Hok.
  split; [reflexivity |].
  destruct (expected_sorted dir) as [E2 E5].
  assert (Hret : (if snd (fst chk) then Returned tt else Exited) = Returned tt
                 <-> snd (fst chk) = true)
    by (destruct (snd (fst chk)); split; congruence).
  rewrite Hret, Hok, dir_checks_explicit. unfold val, bytes_of_string.
  split; intros (v1 & v2 & v3 & v4 & v5 & v6 & v7 & v8 & v9 & Hevs & H12 & H345
                 & H6 & H7 & (H8 & L8) & (H9 & L9));
    exists v1, v2, v3, v4, v5, v6, v7, v8, v9;
    (split; [exact Hevs |]); (split; [exact H12 |]); (split; [exact H345 |]);
    (split; [exact H6 |]); (split; [exact H7 |]);
    (split; split; try assumption);
    first [ now apply (sorted_is_iff _ _ E2) | now apply (sorted_is_iff _ _ E5) ].
Qed.

End ListingOrder.

Lemma testStorageDir_order_irrelevant_witness :
  let r := exec MemStorage.storage counter (testStorageDir GoSyntax.Sprintf_v)
                sample_world in
  (forall a b, GoSyntax.Sprintf_v a = GoSyntax.Sprintf_v b -> a = b)
  /\ fst r = Returned tt
  /\ exists evs v8 v9,
       trace (snd r) = trace sample_world ++ tagged 0 evs
       /\ nth_error evs 7 = Some (CList "__test__key__0" false, v8)
       /\ Permutation (strings_of v8) ["__test__key__0/k"; "__test__key__0/k1"]
       /\ nth_error evs 8 = Some (CList "__test__key__0" true, v9)
       /\ Permutation (strings_of v9)
            ["__test__key__0/k"; "__test__key__0/k/a"; "__test__key__0/k/a/b";
             "__test__key__0/k/c"; "__test__key__0/k1"].
Proof.
  intros r. split; [exact GoSyntaxFacts.Sprintf_v_inj |].
  assert (Hout : fst r = Returned tt) by (vm_compute; reflexivity).
  split; [exact Hout |].
  destruct (testStorageDir_order_irrelevant MemStorage.storage counter GoSyntax.Sprintf_v
              GoSyntaxFacts.Sprintf_v_inj sample_world)
    as (evs & Htr & Hiff).
  destruct (proj1 Hiff Hout)
    as (v1 & v2 & v3 & v4 & v5 & v6 & v7 & v8 & v9 & Hevs & _ & _ & _ & _
        & (_ & L8) & (_ & L9)).
  exists evs, v8, v9. subst evs.
  repeat split; [exact Htr | exact L8 | exact L9].
Defined.

(** ** The storage checks and the teardown run by the test goroutine *)

Section Tail.

Context {St G : Type}.
Variable Sto : certmagic.Storage St.
Variable R : RngImpl G.

(** The teardown function from any state. *)
Lemma exec_cleanup_result (w : World St G) :
  exists dels w',
    exec Sto R cleanup w = (Returned tt, w')
    /\ trace w' = trace w ++ tagged 0 dels
    /\ map fst dels = map CDelete (Suite.randKeys (ts w))
    /\ failures w' = failures w
    /\ Suite.randKeys (ts w') = Suite.randKeys (ts w)
    /\ Suite.Rng (ts w') = Suite.Rng (ts w)
    /\ wg w' = wg w
    /\ goroutines w' = goroutines w.
Proof.
  unfold cleanup, readRandKeys. cbn [bind exec do_op strings_of].
  destruct (exec_range_Delete Sto R (Suite.randKeys (ts w)) w) as (dels & Hex & Hm).
  exists dels. eexists. split; [exact Hex |]. now repeat split.
Qed.

Lemma sequential_bind {A B : Type} (p : prog A) (f : A -> prog B) :
  sequential p -> (forall a, sequential (f a)) -> sequential (bind p f).
Proof.
  induction p as [A a | A | A o k IH | A g _ k IH]; intros Hp Hf;
    cbn [bind sequential] in *; auto.
Qed.

Lemma sequential_defer {A : Type} (d : prog unit) (p : prog A) :
  sequential p -> sequential d -> sequential (defer_ d p).
Proof.
  induction p as [A a | A | A o k IH | A g _ k IH]; intros Hp Hd;
    cbn [defer_ sequential] in *; auto;
    apply sequential_bind; auto; now intros.
Qed.

Lemma scripted_sequential (next p : prog unit) (cs : list check) :
  scripted next p cs -> sequential next -> sequential p.
Proof.
  induction 1 as [| c cs k _ IH Hbad]; intros Hnext; [exact Hnext |].
  cbn [sequential]. intros v. destruct (chk_ok c v) eqn:Hv.
  - now apply IH.
  - destruct (Hbad v Hv) as (format & args & ->). now intros.
Qed.

Lemma sequential_range {X : Type} (l : list X) (body : X -> prog unit) :
  (forall x, sequential (body x)) -> sequential (range_ l body).
Proof.
  intros Hb. induction l as [| x l IH]; cbn [range_]; [exact I |].
  apply sequential_bind; auto.
Qed.

Lemma sequential_cleanup : sequential cleanup.
Proof.
  unfold cleanup, readRandKeys. cbn [bind sequential]. intros v.
  apply sequential_range. now intros.
Qed.

Lemma sequential_testStorageSingleKey : sequential testStorageSingleKey.
Proof.
  unfold testStorageSingleKey, randKey, Rng_Int, S_Lock. cbn [bind sequential].
  intros v1 v2. apply sequential_defer; [| now intros].
  apply (scripted_sequential _ _ _ (singleKey_body_scripted _ _)). exact I.
Qed.

Lemma sequential_testStorageDir (Sprintf_v : list string -> string) :
  sequential (testStorageDir Sprintf_v).
Proof.
  unfold testStorageDir, randKey, Rng_Int, appendRandKeys. cbn [bind sequential].
  intros v1 v2.
  apply (scripted_sequential _ _ _ (storageDir_body_scripted _ _ _)). exact I.
Qed.

End Tail.

(** ** The keys the storage checks touch *)

Lemma prefix_common (p a b : string) :
  String.prefix (p ++ a) (p ++ b) = String.prefix a b.
Proof.
  induction p as [| c p IH]; cbn [String.append String.prefix]; [reflexivity |].
  now destruct (ascii_dec c c).
Qed.

Section OwnKeys.

Context {St G : Type}.
Variable Sto : certmagic.Storage St.
Variable R : RngImpl G.
Variable Sprintf_v : list string -> string.

(** X4.  The two storage checks keep to their own generated key.  Every
    call of the single-key check is on its key, but for the one [Store]
    on the empty key that must be refused.  Every call of the listing
    check is a [List], [Store] or [Stat] on its directory key or on a key
    below it: it never deletes, loads or locks anything. *)
Theorem storage_checks_own_keys (w : World St G) :
  let key := (KeyPrefix ++ Itoa (fst (Int R (Suite.Rng (ts w)))))%string in
  (exists evs,
     trace (snd (exec Sto R testStorageSingleKey w)) = trace w ++ tagged 0 evs
     /\ Forall (fun e => key_of (fst e) = key \/ fst e = CStore "" (Some "")) evs)
  /\ (exists evs,
        trace (snd (exec Sto R (testStorageDir Sprintf_v) w)) = trace w ++ tagged 0 evs
        /\ Forall (fun e => list_store_stat (fst e) = true
                            /\ (key_of (fst e) = key
                                \/ String.prefix (key ++ "/") (key_of (fst e)) = true))
                  evs).
Proof.
  intros key. split.
  - destruct (testStorageSingleKey_exec Sto R w) as (fl & Hex & _). fold key in Hex.
    rewrite Hex. cbn [snd trace]. eexists. split; [reflexivity |].
    apply Forall_cons; [now left |].
    apply Forall_app. split; [| apply Forall_cons; [now left | apply Forall_nil]].
    apply Forall_forall. intros e He.
    apply run_checks_calls_in in He. cbn [lifecycle_checks map chk_call] in He.
    repeat (destruct He as [<- | He]; [cbn [key_of]; auto |]). destruct He.
  - destruct (testStorageDir_exec Sto R Sprintf_v w) as (fl & Hex & _). fold key in Hex.
    rewrite Hex. cbn [snd trace]. eexists. split; [reflexivity |].
    apply Forall_forall. intros e He.
    apply run_checks_calls_in in He.
    unfold dir_checks, dir_before, dir_stores, dir_after in He.
    cbn [app map chk_call] in He.
    repeat (destruct He as [<- | He];
            [cbn [key_of list_store_stat]; split; [reflexivity |];
             first [ now left | right; now rewrite prefix_common ] |]).
    destruct He.
Qed.

End OwnKeys.

(** ** Teardown *)

Section Teardown.

Context {St G : Type}.
Variable Sto : certmagic.Storage St.
Variable R : RngImpl G.

(** X5.  Teardown is best effort: whatever [Delete] returns, an error on
    every key included, the teardown function returns, records no
    failure, makes one [Delete] call for each entry of the tracked list
    (repeated entries are deleted again) and nothing else, and leaves the
    tracked list as it was: the list is never emptied. *)
Theorem cleanup_best_effort (w : World St G) :
  let r := exec Sto R cleanup w in
  fst r = Returned tt
  /\ failures (snd r) = failures w
  /\ Suite.randKeys (ts (snd r)) = Suite.randKeys (ts w)
  /\ Suite.Rng (ts (snd r)) = Suite.Rng (ts w)
  /\ wg (snd r) = wg w
  /\ goroutines (snd r) = goroutines w
  /\ exists evs,
       trace (snd r) = trace w ++ tagged 0 evs
       /\ map fst evs = map CDelete (Suite.randKeys (ts w)).
Proof.
  intros r. subst r.
  destruct (exec_cleanup_result Sto R w) as (dels & w' & E & T & M & F & K & Gn & W & GS).
  rewrite E. cbn [fst snd]. repeat split; try assumption.
  exists dels. now split.
Qed.

End Teardown.

(** ** What the single-key check asks of [Load] *)

Lemma bytes_Equal_nonempty (key : string) (b : bytes) :
  key <> "" -> bytes_Equal (Some key) b = true -> b = Some key.
Proof.
  unfold bytes_Equal. intros Hne H. apply String.eqb_eq in H. cbn [content] in H.
  destruct b as [x |]; cbn [content] in H; [now subst | now subst].
Qed.

Lemma mk_key_nonempty (n : Z) : (KeyPrefix ++ Itoa n)%string <> "".
Proof. discriminate. Qed.

Section RoundTrip.

Context {St G : Type}.
Variable Sto : certmagic.Storage St.
Variable R : RngImpl G.

(** X15.  Store then Load must give the value back.  The value the
    single-key check stores is the bytes of its key, which is never
    empty; so when the check returns, the [Load] that follows the stores
    (the tenth call of the check, its [Lock] included) returned no error
    and a non-nil slice holding exactly the bytes of the key: a nil or
    empty slice, which [bytes.Equal] would take for one another, does not
    pass. *)
Theorem testStorageSingleKey_round_trip (w : World St G) :
  let key := (KeyPrefix ++ Itoa (fst (Int R (Suite.Rng (ts w)))))%string in
  fst (exec Sto R testStorageSingleKey w) = Returned tt ->
  exists evs v7 v9,
    trace (snd (exec Sto R testStorageSingleKey w)) = trace w ++ tagged 0 evs
    /\ List.length evs = 13
    /\ nth_error evs 7 = Some (CStore key (Some key), v7)
    /\ err_of v7 = None
    /\ nth_error evs 9 = Some (CLoad key, v9)
    /\ err_of v9 = None
    /\ bytes_of v9 = Some key.
Proof.
  intros key Hret.
  destruct (testStorageSingleKey_exec Sto R w) as (fl & Hex & _).
  fold key in Hex. rewrite Hex in Hret |- *. cbn [fst snd trace] in *.
  set (lk := certmagic.Lock Sto key (Suite.S (ts w))) in *.
  set (chk := run_checks Sto (lifecycle_checks key (Some key)) (snd lk)) in *.
  destruct (snd (fst chk)) eqn:Hok; [| discriminate Hret].
  destruct (run_checks_sound Sto (lifecycle_checks key (Some key)) (snd lk)) as [_ Hiff].
  fold chk in Hiff. apply Hiff in Hok. clear Hiff.
  remember (fst (fst chk)) as evs0 eqn:Hevs0. clear Hevs0.
  unfold lifecycle_checks in Hok.
  repeat match goal with
         | H : Forall2 _ (_ :: _) _ |- _ =>
             let e := fresh "e" in let l := fresh "l" in
             let Hc := fresh "Hc" in let Hk := fresh "Hk" in
             inversion H as [| ? e ? l [Hc Hk] ?]; subst; clear H
         | H : Forall2 _ [] _ |- _ => inversion H; subst; clear H
         end.
  cbn [chk_call chk_ok] in *.
  repeat match goal with
         | H : fst ?e = _ |- _ => destruct e; cbn [fst snd] in *; subst
         end.
  assert (Hsucc : forall x, succeeds x = true -> err_of x = None).
  { intros x. unfold succeeds, fails. now destruct (err_of x). }
  do 3 eexists. split; [reflexivity |]. split; [reflexivity |].
  split; [reflexivity |]. split; [now apply Hsucc |].
  split; [reflexivity |].
  match goal with
  | H : (succeeds ?v && bytes_Equal _ _)%bool = true |- _ =>
      apply andb_true_iff in H; destruct H as [Hs Hb]
  end.
  split; [now apply Hsucc |].
  apply bytes_Equal_nonempty; [apply mk_key_nonempty | exact Hb].
Qed.

End RoundTrip.

Lemma testStorageSingleKey_round_trip_witness :
  let r := exec MemStorage.storage counter testStorageSingleKey sample_world in
  fst r = Returned tt
  /\ exists evs v7 v9,
       trace (snd r) = trace sample_world ++ tagged 0 evs
       /\ List.length evs = 13
       /\ nth_error evs 7 = Some (CStore "__test__key__0" (Some "__test__key__0"), v7)
       /\ err_of v7 = None
       /\ nth_error evs 9 = Some (CLoad "__test__key__0", v9)
       /\ err_of v9 = None
       /\ bytes_of v9 = Some "__test__key__0".
Proof.
  intros r.
  assert (H : fst r = Returned tt) by (vm_compute; reflexivity).
  split; [exact H |].
  exact (testStorageSingleKey_round_trip MemStorage.storage counter sample_world H).
Defined.

(** ** The lock discipline of the workers *)

Lemma holds_after_app (key : string) (held : bool) (h1 h2 : list (call * value)) :
  holds_after key held (h1 ++ h2)
  = match holds_after key held h1 with
    | Some b => holds_after key b h2
    | None => None
    end.
Proof.
  revert held. induction h1 as [| [c v] h1 IH]; intros held; cbn [app holds_after];
    [reflexivity |].
  destruct c; try reflexivity;
    match goal with |- context [if ?b then _ else _] => destruct b end;
    auto.
Qed.

Lemma iteration_released (key : string) (it : list (call * value)) :
  iteration key it -> holds_after key false it = Some false /\ List.length it <= 2.
Proof.
  intros []; cbn [holds_after negb andb]; rewrite !String.eqb_refl;
    cbn [holds_after negb andb succeeds fails err_of List.length];
    rewrite ?String.eqb_refl; cbn; auto.
Qed.

Lemma iterations_released (key : string) (n : nat) (h : list (call * value)) :
  iterations key n h ->
  holds_after key false h = Some false /\ List.length h <= 2 * n.
Proof.
  induction 1 as [| n h it _ [IH1 IH2] Hit]; [cbn; auto |].
  destruct (iteration_released _ _ Hit) as [H1 H2].
  rewrite holds_after_app, IH1, H1, length_app. split; [reflexivity | lia].
Qed.

(** Where a worker stands, what it holds. *)
Lemma worker_at_holds (key : string) (p : prog unit) (h : list (call * value))
  (f : list (string * list fmt_arg)) :
  worker_at key p h f ->
  exists b,
    holds_after key false h = Some b
    /\ List.length h <= 10
    /\ (p = Ret tt -> b = false)
    /\ (finished p = true -> b = true -> exists e, f = [unlock_failure e]).
Proof.
  intros Hat.
  inversion Hat as [n h' Hn Hit | n h' Hn Hit | n h' Hn Hit | n h' e Hn Hit
                    | n h' e Hn Hit | n h' e Hn Hit | h' Hit]; subst;
    destruct (iterations_released _ _ _ Hit) as [Hr Hl];
    rewrite ?holds_after_app, ?Hr, ?length_app;
    cbn [holds_after failed_iteration negb andb List.length];
    rewrite ?String.eqb_refl; cbn [holds_after negb andb succeeds fails err_of].
  all: eexists; (split; [reflexivity |]); repeat split; try lia; try discriminate;
    try (intros _ _; now exists e).
Qed.

Lemma calls_below_nil (n : nat) : calls_below n [] = 0.
Proof.
  unfold calls_below. induction n as [| n IH]; [reflexivity |].
  rewrite seq_S, map_app, list_sum_app, IH. reflexivity.
Qed.

Lemma calls_below_cons (n : nat) (e : nat * call * value) (tr : list (nat * call * value)) :
  calls_below n (e :: tr)
  = (if Nat.ltb (fst (fst e)) n then 1 else 0) + calls_below n tr.
Proof.
  unfold calls_below. induction n as [| n IH]; [reflexivity |].
  rewrite !seq_S, !map_app, !list_sum_app, IH. cbn [map list_sum Nat.add].
  unfold calls_of at 2. cbn [filter].
  destruct (Nat.eqb_spec (fst (fst e)) n) as [E | E]; cbn [map List.length].
  - fold (calls_of n tr). rewrite E.
    destruct (Nat.ltb_spec n n); [lia |].
    destruct (Nat.ltb_spec n (S n)); cbn [list_sum fold_right]; lia.
  - fold (calls_of n tr).
    destruct (Nat.ltb_spec (fst (fst e)) n), (Nat.ltb_spec (fst (fst e)) (S n));
      cbn [list_sum fold_right]; lia.
Qed.

(** A trace whose calls are all made by goroutines below [n]. *)
Lemma calls_below_length (n : nat) (tr : list (nat * call * value)) :
  (forall tid, n <= tid -> calls_of tid tr = []) ->
  List.length tr = calls_below n tr.
Proof.
  induction tr as [| e tr IH]; intros Hn; [now rewrite calls_below_nil |].
  rewrite calls_below_cons. cbn [List.length].
  assert (Hlt : fst (fst e) < n).
  { destruct (Nat.lt_ge_cases (fst (fst e)) n) as [H | H]; [exact H |].
    specialize (Hn _ H). unfold calls_of in Hn. cbn [filter] in Hn.
    rewrite Nat.eqb_refl in Hn. discriminate Hn. }
  destruct (Nat.ltb_spec (fst (fst e)) n); [| lia].
  rewrite IH; [reflexivity |].
  intros tid Ht. specialize (Hn _ Ht). unfold calls_of in Hn |- *. cbn [filter] in Hn.
  destruct (Nat.eqb (fst (fst e)) tid); [discriminate Hn | exact Hn].
Qed.

Lemma calls_below_bound (n : nat) (tr : list (nat * call * value)) (a b : nat) :
  List.length (calls_of 0 tr) <= a ->
  (forall i, S i < n -> List.length (calls_of (S i) tr) <= b) ->
  calls_below n tr <= a + (n - 1) * b.
Proof.
  intros H0 Hi. unfold calls_below.
  destruct n as [| n]; [cbn; lia |].
  cbn [seq map]. replace (S n - 1) with n by lia.
  change (list_sum (?x :: ?l)) with (x + list_sum l).
  assert (H : forall m, m <= n ->
                list_sum (map (fun tid => List.length (calls_of tid tr)) (seq 1 m)) <= m * b).
  { induction m as [| m IH]; intros Hm; [cbn; lia |].
    rewrite seq_S, map_app, list_sum_app. cbn [map Nat.add].
    assert (E1 : forall x, list_sum [x] = x) by (intros x; cbn; lia).
    rewrite E1. specialize (IH ltac:(lia)). specialize (Hi m ltac:(lia)). lia. }
  specialize (H n (le_n n)). lia.
Qed.

Section WorkerFacts.

Context {St G : Type}.
Variable Sto : certmagic.Storage St.
Variable R : RngImpl G.

(** X6.  In every run of the locking check, whatever the storage and the
    schedule, each worker keeps the lock discipline on its key: it calls
    [Lock] only while it does not hold the lock and [Unlock] only right
    after its own successful [Lock]; it makes ten calls at most; a worker
    that returned holds nothing; and a worker that ended while it may
    still hold the lock is one whose [Unlock] returned an error, which it
    recorded. *)
Theorem worker_lock_discipline (s : Suite.t St G) (sched : list nat) :
  let w := run_sched Sto R sched (start s testLocker) in
  let keys := map mk_key (draws R 5 (snd (Int R (Suite.Rng s)))) in
  forall i p,
    nth_error (goroutines w) (S i) = Some p ->
    exists key b,
      nth_error keys (i / 2) = Some key
      /\ holds_after key false (calls_of (S i) (trace w)) = Some b
      /\ List.length (calls_of (S i) (trace w)) <= 10
      /\ (p = Ret tt -> b = false)
      /\ (finished p = true -> b = true ->
          exists e, failures_of (S i) w = [unlock_failure e]).
Proof.
  intros w keys i p Hp.
  destruct (locker_inv_run Sto R (Suite.Rng s) sched _ (locker_inv_start R s))
    as (main & ws & ks & extra & Hgs & Hmain & Hws & Hwg & Hnone & Hret).
  fold w in Hgs, Hmain, Hws, Hwg, Hnone.
  rewrite Hgs in Hp. cbn [nth_error] in Hp.
  destruct (workers_at_nth _ _ _ _ _ _ Hws Hp) as (key & Hkey & Hat).
  cbn [Nat.add] in Hat.
  destruct (worker_at_holds _ _ _ _ Hat) as (b & Hb & Hl & Hr & Hf).
  exists key, b. split; [| now repeat split].
  destruct (main_at_keys R _ _ _ _ _ _ _ Hmain) as (rest & Hrest).
  rewrite <- nth_error_twice. fold keys in Hrest |- *.
  rewrite Hrest, nth_error_app1; [exact Hkey |].
  apply nth_error_Some. congruence.
Qed.

(** X8.  The locking check makes at most 103 storage calls in a run,
    whatever the storage and the schedule: three by the test goroutine and
    ten at most by each of the ten workers. *)
Theorem testLocker_call_bound (s : Suite.t St G) (sched : list nat) :
  let w := run_sched Sto R sched (start s testLocker) in
  List.length (calls_of 0 (trace w)) <= 3
  /\ (forall i, List.length (calls_of (S i) (trace w)) <= 10)
  /\ List.length (trace w) <= 103.
Proof.
  intros w.
  destruct (locker_inv_run Sto R (Suite.Rng s) sched _ (locker_inv_start R s))
    as (main & ws & ks & extra & Hgs & Hmain & Hws & Hwg & Hnone & Hret).
  fold w in Hgs, Hmain, Hws, Hwg, Hnone.
  destruct (main_at_calls R _ _ _ _ _ _ _ Hmain) as (_ & H3 & _).
  assert (H10 : forall i, List.length (calls_of (S i) (trace w)) <= 10).
  { intros i. destruct (nth_error ws i) as [p |] eqn:Hp.
    - destruct (workers_at_nth _ _ _ _ _ _ Hws Hp) as (key & _ & Hat).
      cbn [Nat.add] in Hat.
      now destruct (worker_at_holds _ _ _ _ Hat) as (b & _ & Hl & _).
    - apply nth_error_None in Hp.
      destruct (Hnone (S i)) as [E _]; [rewrite Hgs; cbn; lia |].
      rewrite E. cbn. lia. }
  split; [exact H3 |]. split; [exact H10 |].
  assert (Hlen : List.length (goroutines w) <= 11).
  { destruct (main_at_keys R _ _ _ _ _ _ _ Hmain) as (rest & Hrest).
    apply (f_equal (@List.length string)) in Hrest.
    rewrite twice_length, length_map, draws_length, length_app in Hrest.
    apply workers_at_length in Hws. rewrite Hgs. cbn [List.length]. lia. }
  rewrite (calls_below_length (List.length (goroutines w))).
  - pose proof (calls_below_bound (List.length (goroutines w)) (trace w) 3 10 H3
                  (fun i _ => H10 i)) as Hb.
    nia.
  - intros tid Ht. now destruct (Hnone tid Ht).
Qed.

End WorkerFacts.

Lemma worker_lock_discipline_witness :
  let w := run_sched MemStorage.storage counter workers_in_turn
             (start sample_suite testLocker) in
  nth_error (goroutines w) 1 = Some (Ret tt)
  /\ exists key b,
       nth_error (map mk_key (draws counter 5 (snd (Int counter (Suite.Rng sample_suite)))))
                 (0 / 2) = Some key
       /\ holds_after key false (calls_of 1 (trace w)) = Some b
       /\ List.length (calls_of 1 (trace w)) <= 10
       /\ (Ret tt = Ret tt -> b = false)
       /\ (finished (Ret tt) = true -> b = true ->
           exists e, failures_of 1 w = [unlock_failure e]).
Proof.
  intros w.
  assert (H : nth_error (goroutines w) 1 = Some (Ret tt)) by (vm_compute; reflexivity).
  split; [exact H |].
  exact (worker_lock_discipline MemStorage.storage counter sample_suite workers_in_turn
           0 (Ret tt) H).
Defined.

(** ** What the locking check reports *)

Lemma In_failures_of {St G : Type} (tid : nat) (format : string) (args : list fmt_arg)
  (w : World St G) :
  In (tid, format, args) (failures w) -> In (format, args) (failures_of tid w).
Proof.
  intros Hin. unfold failures_of.
  apply (in_map (fun f => (snd (fst f), snd f)) _ (tid, format, args)).
  apply filter_In. split; [exact Hin |]. cbn. apply Nat.eqb_refl.
Qed.

Section Reports.

Context {St G : Type}.
Variable Sto : certmagic.Storage St.
Variable R : RngImpl G.

(** The test goroutine has recorded a failure: where it stands. *)
Lemma main_at_failed (g0 : G) (p : prog unit) (h : list (call * value))
  (f : list (string * list fmt_arg)) (g : G) (keys : list string) (extra : nat) :
  main_at R g0 p h f g keys extra ->
  f <> [] ->
  p = Goexit /\ keys = [] /\ List.length f = 1
  /\ exists done c rest h' v,
       locker_checks (Itoa (fst (Int R g0))) = done ++ c :: rest
       /\ h = h' ++ [(chk_call c, v)]
       /\ Forall2 passed done h'
       /\ chk_ok c v = false.
Proof.
  intros Hat Hf.
  destruct Hat as [| | | done rest c h v format args Hsplit Hdone Hv | | | |];
    try (now exfalso).
  split; [reflexivity |]. split; [reflexivity |]. split; [reflexivity |].
  exists done, c, rest, h, v. now repeat split.
Qed.

Lemma worker_at_failed (key : string) (p : prog unit) (h : list (call * value))
  (f : list (string * list fmt_arg)) :
  worker_at key p h f ->
  f <> [] ->
  exists h' e, h = h' ++ failed_iteration key e /\ f = [unlock_failure e].
Proof.
  intros Hat Hf.
  destruct Hat as [| | | | n h e Hn Hit | n h e Hn Hit |]; try (now exfalso);
    now exists h, e.
Qed.

(** X7.  The locking check reports nothing but deviations.  A failure
    recorded by the test goroutine means that the last of its own calls
    had a result its check refuses; the check then stopped at once, before
    any worker was started.  A failure recorded by a worker is
    "Storage.Unlock failed" with the error its last [Unlock] returned
    after its own successful [Lock].  An error returned by a worker's
    [Lock] is never reported. *)
Theorem testLocker_failures_justified (s : Suite.t St G) (sched : list nat) :
  let w := run_sched Sto R sched (start s testLocker) in
  let K := Itoa (fst (Int R (Suite.Rng s))) in
  Forall
    (fun f : nat * string * list fmt_arg =>
       let tid := fst (fst f) in
       (tid = 0
        /\ goroutines w = [Goexit]
        /\ failures_of 0 w = [(snd (fst f), snd f)]
        /\ exists done c rest h v,
             locker_checks K = done ++ c :: rest
             /\ calls_of 0 (trace w) = h ++ [(chk_call c, v)]
             /\ Forall2 passed done h
             /\ chk_ok c v = false)
       \/ (exists i key h e,
             tid = S i
             /\ calls_of tid (trace w) = h ++ failed_iteration key e
             /\ (snd (fst f), snd f) = unlock_failure e
             /\ failures_of tid w = [unlock_failure e]))
    (failures w).
Proof.
  intros w K. apply Forall_forall. intros [[tid format] args] Hin. cbn [fst snd].
  destruct (locker_inv_run Sto R (Suite.Rng s) sched _ (locker_inv_start R s))
    as (main & ws & ks & extra & Hgs & Hmain & Hws & Hwg & Hnone & Hret).
  fold w in Hgs, Hmain, Hws, Hwg, Hnone.
  pose proof (In_failures_of _ _ _ _ Hin) as Hf.
  destruct tid as [| i].
  - left. split; [reflexivity |].
    assert (Hne : failures_of 0 w <> []) by (intros E; rewrite E in Hf; destruct Hf).
    destruct (main_at_failed _ _ _ _ _ _ _ Hmain Hne)
      as (-> & -> & Hone & done & c & rest & h & v & H1 & H2 & H3 & H4).
    destruct ws; [| destruct Hws].
    split; [exact Hgs |]. split.
    + destruct (failures_of 0 w) as [| f0 [| f1 fs]]; try discriminate Hone.
      destruct Hf as [<- | []]. reflexivity.
    + exists done, c, rest, h, v. now repeat split.
  - right.
    assert (Hne : failures_of (S i) w <> []) by (intros E; rewrite E in Hf; destruct Hf).
    destruct (nth_error ws i) as [p |] eqn:Hp.
    + destruct (workers_at_nth _ _ _ _ _ _ Hws Hp) as (key & _ & Hat).
      cbn [Nat.add] in Hat.
      destruct (worker_at_failed _ _ _ _ Hat Hne) as (h & e & Hh & Hfe).
      exists i, key, h, e. repeat split; try assumption.
      rewrite Hfe in Hf. destruct Hf as [E | []]. now symmetry.
    + apply nth_error_None in Hp.
      destruct (Hnone (S i)) as [_ E]; [rewrite Hgs; cbn; lia |]. contradiction.
Qed.

End Reports.

(** A lock that does not exclude is caught when two workers of one key
    overlap: the second [Unlock] finds the name released. *)
Example unguarded_lock_reported :
  let w := run_sched unguarded counter both_lock_first (start sample_suite testLocker) in
  failures w = [(2, "Storage.Unlock failed: %s", [AError "not locked"])]
  /\ calls_of 2 (trace w)
     = [(CLock "__test__key__1", VErr None);
        (CUnlock "__test__key__1", VErr (Some "not locked"))]
  /\ nth_error (goroutines w) 2 = Some (defer_ wg_Done Goexit).
Proof. vm_compute. repeat split. Qed.

(** ** The locking check comes to an end *)

Lemma cost_le_mono {A : Type} (p : prog A) (n m : nat) :
  cost_le p n -> n <= m -> cost_le p m.
Proof.
  destruct p as [a | | o k | g k]; cbn [cost_le]; auto.
  - intros (x & Hx & H) Hle. exists x. split; [lia | exact H].
  - intros (a & b & Hab & H) Hle. exists a, b. split; [lia | exact H].
Qed.

Lemma cost_le_bind {A B : Type} (p : prog A) (f : A -> prog B) (n m : nat) :
  cost_le p n -> (forall a, cost_le (f a) m) -> cost_le (bind p f) (n + m).
Proof.
  revert n. induction p as [A a | A | A o k IH | A g _ k IH]; intros n Hp Hf;
    cbn [bind cost_le] in *.
  - apply (cost_le_mono _ m); [apply Hf | lia].
  - exact I.
  - destruct Hp as (x & Hx & H). exists (x + m). split; [lia |].
    intros v. now apply IH.
  - destruct Hp as (a & b & Hab & Hg & Hk). exists a, (b + m).
    split; [lia |]. split; [exact Hg | now apply IH].
Qed.

Lemma cost_le_defer {A : Type} (d : prog unit) (p : prog A) (n m : nat) :
  cost_le p n -> cost_le d m -> cost_le (defer_ d p) (n + m).
Proof.
  revert n. induction p as [A a | A | A o k IH | A g _ k IH]; intros n Hp Hd;
    cbn [defer_ cost_le] in *.
  - apply (cost_le_mono _ (m + 0)); [| lia]. apply cost_le_bind; [exact Hd | now intros].
  - apply (cost_le_mono _ (m + 0)); [| lia]. apply cost_le_bind; [exact Hd | now intros].
  - destruct Hp as (x & Hx & H). exists (x + m). split; [lia |].
    intros v. now apply IH.
  - destruct Hp as (a & b & Hab & Hg & Hk). exists a, (b + m).
    split; [lia |]. split; [exact Hg | now apply IH].
Qed.

Lemma cost_le_call {A : Type} (c : call) (f : value -> A) :
  cost_le (Op (OCall c) (fun v => Ret (f v))) 1.
Proof. cbn. exists 0. split; [lia | now intros]. Qed.

Lemma cost_le_Fatalf {A : Type} (format : string) (args : list fmt_arg) :
  cost_le (@Fatalf A format args) 1.
Proof. cbn. exists 0. split; [lia | now intros]. Qed.

Lemma cost_le_test_loop (key : string) (n : nat) : cost_le (test_loop key n) (4 * n).
Proof.
  induction n as [| n IH]; [exact I |].
  cbn [test_loop]. apply (cost_le_mono _ (1 + (1 + (1 + (1 + 4 * n))))); [| lia].
  apply cost_le_bind; [apply cost_le_call |]. intros [e |].
  - apply (cost_le_mono _ (4 * n)); [exact IH | lia].
  - apply cost_le_bind; [cbn; exists 0; split; [lia | now intros] |]. intros _.
    apply cost_le_bind; [apply cost_le_call |]. intros [e |].
    + apply (cost_le_mono _ 1); [apply cost_le_Fatalf | lia].
    + apply (cost_le_mono _ (4 * n)); [exact IH | lia].
Qed.

Lemma cost_le_worker (key : string) : cost_le (worker key) 21.
Proof.
  unfold worker, test. apply (cost_le_defer _ _ 20 1); [apply cost_le_test_loop |].
  cbn. exists 0. split; [lia | now intros].
Qed.

Lemma cost_le_spawn_workers (key : string) (j : nat) :
  cost_le (spawn_workers key j) (23 * j).
Proof.
  induction j as [| j IH]; [exact I |].
  cbn [spawn_workers wg_Add bind]. cbn [cost_le].
  exists (22 + 23 * j). split; [lia |]. intros _.
  exists 21, (23 * j). split; [lia |]. split; [apply cost_le_worker | exact IH].
Qed.

Lemma cost_le_spawn_keys (i : nat) : cost_le (spawn_keys i) (47 * i).
Proof.
  induction i as [| i IH]; [exact I |].
  cbn [spawn_keys]. apply (cost_le_mono _ (1 + (46 + 47 * i))); [| lia].
  apply cost_le_bind.
  - cbn. exists 0. split; [lia | now intros].
  - intros key. apply cost_le_bind; [apply (cost_le_spawn_workers key 2) |].
    intros _. exact IH.
Qed.

Lemma cost_le_testLocker : cost_le testLocker 243.
Proof.
  unfold testLocker, lock_stress.
  apply (cost_le_mono _ (1 + (1 + (1 + (1 + (1 + (1 + (1 + (235 + 1)))))))));
    [| lia].
  apply cost_le_bind; [cbn; exists 0; split; [lia | now intros] |]. intros n.
  apply cost_le_bind; [apply cost_le_call |]. intros e1.
  apply cost_le_bind; [destruct e1; [exact I | apply cost_le_Fatalf] |]. intros _.
  apply cost_le_bind; [apply cost_le_call |]. intros e2.
  apply cost_le_bind; [destruct e2; [apply cost_le_Fatalf | exact I] |]. intros _.
  apply cost_le_bind; [apply cost_le_call |]. intros e3.
  apply cost_le_bind; [destruct e3; [apply cost_le_Fatalf | exact I] |]. intros _.
  apply cost_le_bind; [apply (cost_le_spawn_keys 5) |]. intros _.
  cbn. exists 0. split; [lia | now intros].
Qed.

Lemma Forall2_nth_error {X Y : Type} (P : X -> Y -> Prop) (xs : list X) (ys : list Y)
  (i : nat) (y : Y) :
  Forall2 P xs ys -> nth_error ys i = Some y ->
  exists x, nth_error xs i = Some x /\ P x y.
Proof.
  intros H. revert i. induction H as [| x0 y0 xs ys H0 _ IH]; intros [| i] Hy;
    try discriminate Hy.
  - injection Hy as <-. now exists x0.
  - now apply IH.
Qed.

Lemma Forall2_set_nth {X Y : Type} (P : X -> Y -> Prop) (xs : list X) (ys : list Y)
  (i : nat) (x : X) (y : Y) :
  Forall2 P xs ys -> P x y -> Forall2 P (set_nth i x xs) (set_nth i y ys).
Proof.
  intros H Hxy. revert i. induction H as [| x0 y0 xs ys H0 H IH]; intros [| i];
    cbn [set_nth]; constructor; auto.
Qed.

Lemma list_sum_set_nth (ns : list nat) (i n m : nat) :
  nth_error ns i = Some n -> list_sum (set_nth i m ns) + n = list_sum ns + m.
Proof.
  revert i. induction ns as [| x ns IH]; intros [| i] H; try discriminate H;
    cbn [set_nth nth_error] in *;
    change (list_sum (?a :: ?l)) with (a + list_sum l).
  - injection H as ->. lia.
  - specialize (IH _ H). lia.
Qed.

Lemma set_nth_app {X : Type} (i : nat) (x y : X) (l : list X) :
  i < List.length l -> set_nth i x (l ++ [y]) = set_nth i x l ++ [y].
Proof.
  revert i. induction l as [| z l IH]; intros [| i] H; cbn in *; try lia;
    [reflexivity |].
  rewrite IH; [reflexivity | lia].
Qed.

Section Termination.

Context {St G : Type}.
Variable Sto : certmagic.Storage St.
Variable R : RngImpl G.

(** Every step uses up some of what is left. *)
Lemma step_cost (tid : nat) (w w' : World St G) (n : nat) :
  world_cost w n -> step Sto R tid w = Some w' ->
  exists n', world_cost w' n' /\ n' < n.
Proof.
  intros (ns & HF & Hsum) Hstep. unfold step in Hstep.
  destruct (nth_error (goroutines w) tid) as [p |] eqn:Hp; [| discriminate Hstep].
  destruct (Forall2_nth_error _ _ _ _ _ HF Hp) as (c & Hc & Hcost).
  destruct p as [a | | o k | g k]; cbn [step_prog] in Hstep; try discriminate Hstep.
  - destruct (do_op Sto R tid o w) as [[v w1] |] eqn:Hop; [| discriminate Hstep].
    injection Hstep as <-. cbn [goroutines with_goroutines].
    destruct (do_op_effect Sto R _ _ _ _ _ Hop) as (Hgs & _).
    destruct Hcost as (m & Hm & Hk).
    exists (list_sum (set_nth tid m ns)). split.
    + exists (set_nth tid m ns). split; [| reflexivity].
      rewrite Hgs. apply Forall2_set_nth; [exact HF | apply Hk].
    + pose proof (list_sum_set_nth ns tid c m Hc). lia.
  - injection Hstep as <-. cbn [goroutines with_goroutines].
    destruct Hcost as (a & b & Hab & Hg & Hk).
    assert (Hlt : tid < List.length (goroutines w))
      by (apply nth_error_Some; congruence).
    rewrite set_nth_app by exact Hlt.
    exists (list_sum (set_nth tid b ns ++ [a])). split.
    + exists (set_nth tid b ns ++ [a]). split; [| reflexivity].
      apply Forall2_app; [now apply Forall2_set_nth | now constructor].
    + rewrite list_sum_app. pose proof (list_sum_set_nth ns tid c b Hc). cbn. lia.
Qed.

Lemma steps_taken_bound (sched : list nat) (w : World St G) (n : nat) :
  world_cost w n -> steps_taken Sto R sched w <= n.
Proof.
  revert w n. induction sched as [| tid sched IH]; intros w n Hw; cbn [steps_taken];
    [lia |].
  destruct (step Sto R tid w) as [w' |] eqn:Hstep; [| now apply IH].
  destruct (step_cost _ _ _ _ Hw Hstep) as (n' & Hw' & Hlt).
  specialize (IH _ _ Hw'). lia.
Qed.

Lemma world_cost_start (s : Suite.t St G) : world_cost (start s testLocker) 243.
Proof.
  exists [243]. split; [| reflexivity].
  constructor; [apply cost_le_testLocker | constructor].
Qed.

Lemma pending_pos (ps : list (prog unit)) (i : nat) (p : prog unit) :
  nth_error ps i = Some p -> finished p = false -> 0 < pending ps.
Proof.
  revert i. induction ps as [| q ps IH]; intros [| i] Hp Hf; try discriminate Hp;
    unfold pending in *; cbn [filter nth_error] in *.
  - injection Hp as ->. rewrite Hf. cbn. lia.
  - specialize (IH _ Hp Hf). destruct (negb (finished q)); cbn; lia.
Qed.

(** A worker that has not ended can take its next step as long as the
    wait group counts it. *)
Lemma worker_enabled (key : string) (tid : nat) (p : prog unit) (w : World St G)
  (h : list (call * value)) (f : list (string * list fmt_arg)) :
  worker_at key p h f -> finished p = false -> 0 < wg w ->
  exists p' w1, step_prog Sto R tid p w = Some (p', w1).
Proof.
  intros Hat Hf Hwg.
  destruct Hat as [n h Hn Hit | n h Hn Hit | n h Hn Hit | n h e Hn Hit
                   | n h e Hn Hit | n h e Hn Hit | h Hit]; try discriminate Hf.
  - destruct n as [| n]; cbn.
    + destruct (wg w); [lia |]. eauto.
    + destruct (certmagic.Lock Sto key (Suite.S (ts w))). eauto.
  - cbn. eauto.
  - cbn. destruct (certmagic.Unlock Sto key (Suite.S (ts w))). eauto.
  - cbn. eauto.
  - cbn. destruct (wg w); [lia |]. eauto.
Qed.

End Termination.

Lemma unfinished_nth (ps : list (prog unit)) :
  forallb finished ps = false ->
  exists i p, nth_error ps i = Some p /\ finished p = false.
Proof.
  induction ps as [| q ps IH]; cbn [forallb]; [discriminate |].
  destruct (finished q) eqn:Hq; cbn [andb].
  - intros H. destruct (IH H) as (i & p & Hp & Hf). now exists (S i), p.
  - intros _. now exists 0, q.
Qed.

Section NoDeadlock.

Context {St G : Type}.
Variable Sto : certmagic.Storage St.
Variable R : RngImpl G.

(** In a state of a run of [testLocker], every worker that has not ended
    can take a step, and so can the test goroutine once no worker is
    left. *)
Lemma locker_inv_progress (g0 : G) (w : World St G) :
  locker_inv R g0 w ->
  (forall i p, nth_error (goroutines w) (S i) = Some p -> finished p = false ->
               exists w', step Sto R (S i) w = Some w')
  /\ (all_finished w = false -> exists tid w', step Sto R tid w = Some w').
Proof.
  intros (main & ws & ks & extra & Hgs & Hmain & Hws & Hwg & Hnone & Hret).
  assert (Hworker : forall i p, nth_error ws i = Some p -> finished p = false ->
                                exists w', step Sto R (S i) w = Some w').
  { intros i p Hp Hf.
    destruct (workers_at_nth _ _ _ _ _ _ Hws Hp) as (key & _ & Hat).
    pose proof (pending_pos _ _ _ Hp Hf) as Hpos.
    destruct (worker_enabled Sto R key (S i) p w _ _ Hat Hf ltac:(lia)) as (p' & w1 & Hs).
    unfold step. rewrite Hgs. cbn [nth_error]. rewrite Hp, Hs. eauto. }
  split.
  - intros i p Hp. rewrite Hgs in Hp. cbn [nth_error] in Hp. now apply Hworker.
  - unfold all_finished. rewrite Hgs. cbn [forallb]. intros Hall.
    destruct (forallb finished ws) eqn:Hfw.
    + rewrite andb_true_r in Hall.
      destruct (step_prog Sto R 0 main w) as [[p' w1] |] eqn:Hs.
      * exists 0. unfold step. rewrite Hgs. cbn [nth_error]. rewrite Hs. eauto.
      * exfalso.
        destruct (main_blocked Sto R _ _ _ _ _ Hmain Hs) as [Hfin | (Hm & Hpos & _)];
          [congruence |].
        apply pending_zero in Hfw.
        assert (extra = 0).
        { subst main. remember wg_Wait as p eqn:Hp.
          destruct Hmain; try discriminate Hp; reflexivity. }
        lia.
    + destruct (unfinished_nth _ Hfw) as (i & p & Hp & Hf).
      destruct (Hworker i p Hp Hf) as (w' & Hw'). eauto.
Qed.

(** X9.  The locking check cannot deadlock.  In every state of a run,
    whatever the storage and the schedule, each worker that has not ended
    can take its next step (in particular [wg.Done()] never finds the
    counter at zero), and unless every goroutine has ended some goroutine
    can take a step: the test goroutine waits at [wg.Wait()] only while a
    worker is still able to run.  (A storage call counts as one step that
    returns.) *)
Theorem testLocker_no_deadlock (s : Suite.t St G) (sched : list nat) :
  let w := run_sched Sto R sched (start s testLocker) in
  (forall i p, nth_error (goroutines w) (S i) = Some p -> finished p = false ->
               exists w', step Sto R (S i) w = Some w')
  /\ (all_finished w = false -> exists tid w', step Sto R tid w = Some w').
Proof.
  intros w. apply (locker_inv_progress (Suite.Rng s)).
  apply locker_inv_run, locker_inv_start.
Qed.

Lemma run_sched_app (a b : list nat) (w : World St G) :
  run_sched Sto R (a ++ b) w = run_sched Sto R b (run_sched Sto R a w).
Proof. unfold run_sched. apply fold_left_app. Qed.

Lemma world_cost_run (sched : list nat) (w : World St G) (n : nat) :
  world_cost w n -> exists n', world_cost (run_sched Sto R sched w) n'.
Proof.
  revert w n. induction sched as [| tid sched IH]; intros w n Hw; [now exists n |].
  cbn [run_sched fold_left]. unfold run_step at 2.
  destruct (step Sto R tid w) as [w' |] eqn:Hs.
  - destruct (step_cost Sto R _ _ _ _ Hw Hs) as (n' & Hw' & _). now apply (IH _ n').
  - now apply (IH _ n).
Qed.

(** From a state of a run of [testLocker], some schedule leads to the
    end. *)
Lemma locker_inv_completes (g0 : G) (n : nat) :
  forall w : World St G,
    locker_inv R g0 w -> world_cost w n ->
    exists more, all_finished (run_sched Sto R more w) = true.
Proof.
  induction n as [n IH] using lt_wf_ind. intros w Hinv Hcost.
  destruct (all_finished w) eqn:Hall; [now exists [] |].
  destruct (proj2 (locker_inv_progress g0 w Hinv) Hall) as (tid & w' & Hs).
  destruct (step_cost Sto R _ _ _ _ Hcost Hs) as (n' & Hcost' & Hlt).
  destruct (IH n' Hlt w' (locker_inv_step Sto R g0 tid w w' Hinv Hs) Hcost')
    as (more & Hmore).
  exists (tid :: more). cbn [run_sched fold_left]. unfold run_step at 2.
  now rewrite Hs.
Qed.

(** X10.  The locking check comes to an end.  Whatever the storage, the
    generator and the schedule, its goroutines take 243 steps at most
    together, however long the schedule; and from every state a run can
    reach, some continuation of the schedule leads to the state in which
    every goroutine has ended. *)
Theorem testLocker_terminates (s : Suite.t St G) (sched : list nat) :
  steps_taken Sto R sched (start s testLocker) <= 243
  /\ exists more,
       all_finished (run_sched Sto R (sched ++ more) (start s testLocker)) = true.
Proof.
  split; [apply steps_taken_bound, world_cost_start |].
  destruct (world_cost_run sched _ _ (world_cost_start s)) as (n & Hn).
  destruct (locker_inv_completes (Suite.Rng s) n _
              (locker_inv_run Sto R _ sched _ (locker_inv_start R s)) Hn)
    as (more & Hmore).
  exists more. now rewrite run_sched_app.
Qed.

End NoDeadlock.

(** ** [Run]: the locking check, then the rest in sequence *)

Section Phases.

Context {St G : Type}.
Variable Sto : certmagic.Storage St.
Variable R : RngImpl G.

(** An operation neither reads nor changes the list of goroutines. *)
Lemma do_op_with_goroutines (tid : nat) (o : op) (w : World St G) (gs : list (prog unit)) :
  do_op Sto R tid o (with_goroutines w gs)
  = match do_op Sto R tid o w with
    | Some (v, w1) => Some (v, with_goroutines w1 gs)
    | None => None
    end.
Proof.
  destruct o; cbn [do_op with_goroutines ts failures wg goroutines trace];
    try reflexivity.
  - now destruct (do_call Sto c (Suite.S (ts w))).
  - now destruct (Int R (Suite.Rng (ts w))).
  - now destruct (wg w).
  - now destruct (wg w).
Qed.

Lemma do_op_goroutines (tid : nat) (o : op) (w w1 : World St G) (v : value) :
  do_op Sto R tid o w = Some (v, w1) -> goroutines w1 = goroutines w.
Proof. intros H. now destruct (do_op_effect Sto R _ _ _ _ _ H). Qed.

Variable F : prog unit -> prog unit.
Hypothesis F_Op : forall o k, F (Op o k) = Op o (fun v => F (k v)).
Hypothesis F_Go : forall g k, F (Go g k) = Go g (F k).

(** While the test goroutine has not ended, a step commutes with [F]. *)
Lemma step_map_main (tid : nat) (w : World St G) :
  main_done w = false ->
  step Sto R tid (map_main F w) = option_map (map_main F) (step Sto R tid w).
Proof.
  unfold main_done, map_main, step. destruct (goroutines w) as [| m ws] eqn:Hgs;
    [discriminate |].
  intros Hm. cbn [goroutines with_goroutines]. destruct tid as [| i]; cbn [nth_error].
  - destruct m as [a | | o k | g k]; try discriminate Hm.
    + rewrite F_Op. cbn [step_prog]. rewrite do_op_with_goroutines.
      destruct (do_op Sto R 0 o w) as [[v w1] |] eqn:Hop; [| reflexivity].
      pose proof (do_op_goroutines _ _ _ _ _ Hop) as Hg1. rewrite Hgs in Hg1.
      cbn [option_map goroutines with_goroutines]. rewrite Hg1. reflexivity.
    + rewrite F_Go. cbn [step_prog option_map goroutines with_goroutines].
      rewrite Hgs. reflexivity.
  - destruct (nth_error ws i) as [p |] eqn:Hp; [| reflexivity].
    destruct p as [a | | o k | g k]; cbn [step_prog]; try reflexivity.
    + rewrite do_op_with_goroutines.
      destruct (do_op Sto R (S i) o w) as [[v w1] |] eqn:Hop; [| reflexivity].
      pose proof (do_op_goroutines _ _ _ _ _ Hop) as Hg1. rewrite Hgs in Hg1.
      cbn [option_map goroutines with_goroutines]. rewrite Hg1. reflexivity.
    + cbn [option_map goroutines with_goroutines]. rewrite Hgs. reflexivity.
Qed.

(** A run of the transformed program follows the run of the program
    itself until the test goroutine ends. *)
Lemma run_map_main (sched : list nat) :
  forall w : World St G,
    exists s1 s2,
      sched = s1 ++ s2
      /\ run_sched Sto R sched (map_main F w)
         = run_sched Sto R s2 (map_main F (run_sched Sto R s1 w))
      /\ (s2 = [] \/ main_done (run_sched Sto R s1 w) = true).
Proof.
  induction sched as [| tid sched IH]; intros w.
  - exists [], []. repeat split. now left.
  - destruct (main_done w) eqn:Hm.
    + exists [], (tid :: sched). repeat split. now right.
    + assert (Hstep : run_step Sto R (map_main F w) tid
                      = map_main F (run_step Sto R w tid)).
      { unfold run_step. rewrite (step_map_main tid w Hm).
        now destruct (step Sto R tid w). }
      destruct (IH (run_step Sto R w tid)) as (s1 & s2 & -> & Hrun & Hdone).
      exists (tid :: s1), s2. split; [reflexivity |].
      cbn [run_sched fold_left app]. rewrite Hstep. split; [exact Hrun | exact Hdone].
Qed.

End Phases.

Section SequentialPhase.

Context {St G : Type}.
Variable Sto : certmagic.Storage St.
Variable R : RngImpl G.

Lemma exec_with_goroutines {A : Type} (p : prog A) :
  sequential p ->
  forall (w : World St G) (gs : list (prog unit)),
    exec Sto R p (with_goroutines w gs)
    = (fst (exec Sto R p w), with_goroutines (snd (exec Sto R p w)) gs).
Proof.
  induction p as [A a | A | A o k IH | A g _ k IH]; intros Hseq w gs;
    cbn [exec sequential] in *; try reflexivity; [| destruct Hseq].
  rewrite do_op_with_goroutines.
  destruct (do_op Sto R 0 o w) as [[v w1] |]; [| reflexivity].
  now apply IH.
Qed.

Lemma exec_steps_with_goroutines {A : Type} (p : prog A) :
  sequential p ->
  forall (w : World St G) (gs : list (prog unit)),
    exec_steps Sto R p (with_goroutines w gs) = exec_steps Sto R p w.
Proof.
  induction p as [A a | A | A o k IH | A g _ k IH]; intros Hseq w gs;
    cbn [exec_steps sequential] in *; try reflexivity; [| destruct Hseq].
  rewrite do_op_with_goroutines.
  destruct (do_op Sto R 0 o w) as [[v w1] |]; [| reflexivity].
  f_equal. now apply IH.
Qed.

Lemma finished_no_step (tid : nat) (p : prog unit) (w : World St G) :
  finished p = true -> step_prog Sto R tid p w = None.
Proof. destruct p; try discriminate; reflexivity. Qed.

Lemma seq_inv_step (ws : list (prog unit)) (out : outcome unit) (wf w : World St G)
  (tid : nat) :
  forallb finished ws = true -> out <> Blocked ->
  seq_inv_of Sto R ws out wf w -> seq_inv_of Sto R ws out wf (run_step Sto R w tid).
Proof.
  intros Hws Hout (p & Hgs & Hseq & Hex). unfold run_step, step. rewrite Hgs.
  destruct tid as [| i]; cbn [nth_error].
  - destruct p as [a | | o k | g k]; cbn [step_prog sequential] in *;
      [now exists (Ret a) | now exists Goexit | | destruct Hseq].
    cbn [exec] in Hex.
    destruct (do_op Sto R 0 o w) as [[v w1] |] eqn:Hop.
    + pose proof (do_op_goroutines Sto R _ _ _ _ _ Hop) as Hg1. rewrite Hgs in Hg1.
      exists (k v). cbn [goroutines with_goroutines]. rewrite Hg1. cbn [set_nth].
      split; [reflexivity |]. split; [apply Hseq |].
      rewrite (exec_with_goroutines _ (Hseq v)), Hex. reflexivity.
    + injection Hex as <- _. now exfalso.
  - destruct (nth_error ws i) as [q |] eqn:Hq.
    + rewrite finished_no_step; [now exists p |].
      rewrite forallb_forall in Hws. apply Hws. eapply nth_error_In; eassumption.
    + now exists p.
Qed.

Lemma seq_inv_run (ws : list (prog unit)) (out : outcome unit) (wf : World St G)
  (sched : list nat) :
  forallb finished ws = true -> out <> Blocked ->
  forall w, seq_inv_of Sto R ws out wf w -> seq_inv_of Sto R ws out wf (run_sched Sto R sched w).
Proof.
  intros Hws Hout. induction sched as [| tid sched IH]; intros w Hinv; [exact Hinv |].
  cbn [run_sched fold_left]. apply IH. now apply seq_inv_step.
Qed.

Lemma seq_inv_done (ws : list (prog unit)) (out : outcome unit) (wf w : World St G) :
  seq_inv_of Sto R ws out wf w -> main_done w = true ->
  ts w = ts wf /\ failures w = failures wf /\ wg w = wg wf /\ trace w = trace wf
  /\ goroutines w = (match out with Returned _ => Ret tt | _ => Goexit end) :: ws.
Proof.
  intros (p & Hgs & Hseq & Hex). unfold main_done. rewrite Hgs.
  destruct p as [[] | | o k | g k]; try discriminate; intros _; cbn [exec] in Hex;
    injection Hex as <- ->; now repeat split.
Qed.

(** The test goroutine alone runs to its end in [exec_steps] steps. *)
Lemma seq_complete (ws : list (prog unit)) :
  forallb finished ws = true ->
  forall (n : nat) (p : prog unit) (w : World St G),
    exec_steps Sto R p w = n ->
    goroutines w = p :: ws -> sequential p -> fst (exec Sto R p w) <> Blocked ->
    all_finished (run_sched Sto R (repeat 0 n) w) = true.
Proof.
  intros Hws. induction n as [| n IH]; intros p w Hn Hgs Hseq Hex.
  - cbn [repeat run_sched fold_left]. unfold all_finished. rewrite Hgs. cbn [forallb].
    rewrite Hws, andb_true_r.
    destruct p as [a | | o k | g k]; try reflexivity; cbn [exec_steps exec] in Hn, Hex.
    + destruct (do_op Sto R 0 o w) as [[v w1] |]; [discriminate Hn | now exfalso].
    + discriminate Hn.
  - cbn [repeat run_sched fold_left].
    destruct p as [a | | o k | g k]; cbn [exec_steps exec sequential] in Hn, Hex, Hseq;
      try discriminate Hn; [| destruct Hseq].
    destruct (do_op Sto R 0 o w) as [[v w1] |] eqn:Hop; [| discriminate Hn].
    injection Hn as Hn.
    pose proof (do_op_goroutines Sto R _ _ _ _ _ Hop) as Hg1. rewrite Hgs in Hg1.
    unfold run_step at 2. unfold step. rewrite Hgs. cbn [nth_error step_prog].
    rewrite Hop, Hg1. cbn [set_nth].
    apply (IH (k v)).
    + now rewrite exec_steps_with_goroutines.
    + reflexivity.
    + apply Hseq.
    + now rewrite exec_with_goroutines.
Qed.

End SequentialPhase.

Section RunTail.

Context {St G : Type}.
Variable Sto : certmagic.Storage St.
Variable R : RngImpl G.
Variable Sprintf_v : list string -> string.

(** The single-key check from any state, in short. *)
Lemma exec_single_result (w : World St G) :
  exists out w' evs fl,
    exec Sto R testStorageSingleKey w = (out, w')
    /\ (out = Returned tt /\ fl = [] \/ out = Exited /\ List.length fl = 1)
    /\ trace w' = trace w ++ tagged 0 evs
    /\ failures w' = failures w ++ map (fun f => (0, fst f, snd f)) fl
    /\ Suite.randKeys (ts w') = Suite.randKeys (ts w)
    /\ Suite.Rng (ts w') = snd (Int R (Suite.Rng (ts w)))
    /\ wg w' = wg w
    /\ goroutines w' = goroutines w
    /\ (out = Returned tt -> List.length evs = 13)
    /\ exists v rest, evs = (CLock (mk_key (fst (Int R (Suite.Rng (ts w))))), v) :: rest.
Proof.
  destruct (testStorageSingleKey_exec Sto R w) as (fl & E & L).
  cbv zeta in E, L.
  match type of L with
  | _ = (if snd (fst (run_checks _ ?cs ?st)) then _ else _) =>
      destruct (run_checks_sound Sto cs st) as [_ Hiff];
      destruct (snd (fst (run_checks Sto cs st)))
  end.
  - destruct fl; [| discriminate L].
    eexists _, _, _, []. split; [exact E |]. split; [now left |].
    repeat split.
    + intros _. apply proj1 in Hiff. specialize (Hiff eq_refl).
      apply Forall2_length in Hiff. cbn [List.length]. rewrite length_app, <- Hiff.
      reflexivity.
    + eexists _, _. reflexivity.
  - eexists _, _, _, fl. split; [exact E |]. split; [now right |].
    repeat split; [discriminate |]. eexists _, _. reflexivity.
Qed.

(** The listing check from any state, in short. *)
Lemma exec_dir_result (w : World St G) :
  exists out w' evs fl,
    exec Sto R (testStorageDir Sprintf_v) w = (out, w')
    /\ (out = Returned tt /\ fl = [] \/ out = Exited /\ List.length fl = 1)
    /\ trace w' = trace w ++ tagged 0 evs
    /\ failures w' = failures w ++ map (fun f => (0, fst f, snd f)) fl
    /\ Suite.randKeys (ts w')
       = Suite.randKeys (ts w) ++ dir_keys (mk_key (fst (Int R (Suite.Rng (ts w)))))
    /\ Suite.Rng (ts w') = snd (Int R (Suite.Rng (ts w)))
    /\ wg w' = wg w
    /\ goroutines w' = goroutines w
    /\ (out = Returned tt -> List.length evs = 9).
Proof.
  destruct (testStorageDir_exec Sto R Sprintf_v w) as (fl & E & L).
  cbv zeta in E, L.
  match type of L with
  | _ = (if snd (fst (run_checks _ ?cs ?st)) then _ else _) =>
      destruct (run_checks_sound Sto cs st) as [_ Hiff];
      destruct (snd (fst (run_checks Sto cs st)))
  end.
  - destruct fl; [| discriminate L].
    eexists _, _, _, []. split; [exact E |]. split; [now left |].
    repeat split.
    intros _. apply proj1 in Hiff. specialize (Hiff eq_refl).
    apply Forall2_length in Hiff. rewrite <- Hiff. reflexivity.
  - eexists _, _, _, fl. split; [exact E |]. split; [now right |].
    repeat split. discriminate.
Qed.

(** What remains of [Run] once [testLocker] has returned: both storage
    checks, the second only if the first returned, then the teardown. *)
Lemma exec_Run_tail (w : World St G) :
  exists out w' evs dels fl extra,
    exec Sto R (Run_from Sprintf_v (Ret tt)) w = (out, w')
    /\ (out = Returned tt /\ fl = [] \/ out = Exited /\ List.length fl = 1)
    /\ trace w' = trace w ++ tagged 0 (evs ++ dels)
    /\ map fst dels = map CDelete (Suite.randKeys (ts w'))
    /\ failures w' = failures w ++ map (fun f => (0, fst f, snd f)) fl
    /\ Suite.randKeys (ts w') = Suite.randKeys (ts w) ++ extra
    /\ (extra = []
        \/ extra = dir_keys (mk_key (fst (Int R (snd (Int R (Suite.Rng (ts w))))))))
    /\ wg w' = wg w
    /\ goroutines w' = goroutines w
    /\ exists v rest, evs = (CLock (mk_key (fst (Int R (Suite.Rng (ts w))))), v) :: rest.
Proof.
  unfold Run_from, t_Cleanup. cbn [bind].
  rewrite exec_defer, exec_bind.
  destruct (exec_single_result w)
    as (o1 & w1 & e1 & f1 & E1 & O1 & T1 & F1 & K1 & G1 & W1 & GS1 & L13 & v0 & rest0
        & He1).
  rewrite E1.
  destruct O1 as [[-> ->] | [-> L1]].
  - destruct (exec_dir_result w1)
      as (o2 & w2 & e2 & f2 & E2 & O2 & T2 & F2 & K2 & G2 & W2 & GS2 & L9).
    rewrite E2.
    destruct (exec_cleanup_result Sto R w2)
      as (dels & w3 & E3 & T3 & M3 & F3 & K3 & G3 & W3 & GS3).
    exists o2, w3, (e1 ++ e2), dels, f2,
           (dir_keys (mk_key (fst (Int R (snd (Int R (Suite.Rng (ts w)))))))).
    assert (Hfacts :
              trace w3 = trace w ++ tagged 0 ((e1 ++ e2) ++ dels)
              /\ map fst dels = map CDelete (Suite.randKeys (ts w3))
              /\ failures w3 = failures w ++ map (fun f => (0, fst f, snd f)) f2
              /\ Suite.randKeys (ts w3)
                 = Suite.randKeys (ts w)
                   ++ dir_keys (mk_key (fst (Int R (snd (Int R (Suite.Rng (ts w)))))))
              /\ wg w3 = wg w /\ goroutines w3 = goroutines w).
    { rewrite T3, T2, T1, M3, K3, F3, F2, F1, K2, K1, G1, W3, W2, W1, GS3, GS2, GS1.
      cbn [map]. rewrite app_nil_r, !tagged_app, <- !app_assoc. now repeat split. }
    destruct Hfacts as (H1 & H2 & H3 & H4 & H5 & H6).
    destruct O2 as [[-> ->] | [-> L2]]; rewrite exec_bind, E3; cbn [exec];
      (split; [reflexivity |]); (split; [now (left + right) |]);
      (split; [exact H1 |]); (split; [exact H2 |]); (split; [exact H3 |]);
      (split; [exact H4 |]); (split; [now right |]); (split; [exact H5 |]);
      (split; [exact H6 |]); exists v0, (rest0 ++ e2); now rewrite He1.
  - destruct (exec_cleanup_result Sto R w1)
      as (dels & w3 & E3 & T3 & M3 & F3 & K3 & G3 & W3 & GS3).
    exists Exited, w3, e1, dels, f1, [].
    rewrite exec_bind, E3. cbn [exec]. split; [reflexivity |]. split; [now right |].
    rewrite T3, T1, M3, K3, F3, F1, K1, W3, W1, GS3, GS1.
    rewrite app_nil_r, !tagged_app, <- !app_assoc. repeat split; [now left |].
    now exists v0, rest0.
Qed.

(** The rest of [Run] returned: both storage checks ran to their end. *)
Lemma exec_Run_tail_returned (w : World St G) :
  fst (exec Sto R (Run_from Sprintf_v (Ret tt)) w) = Returned tt ->
  exists evs dels,
    trace (snd (exec Sto R (Run_from Sprintf_v (Ret tt)) w))
    = trace w ++ tagged 0 (evs ++ dels)
    /\ List.length evs = 22
    /\ List.length dels = List.length (Suite.randKeys (ts w)) + 3
    /\ Suite.randKeys (ts (snd (exec Sto R (Run_from Sprintf_v (Ret tt)) w)))
       = Suite.randKeys (ts w)
         ++ dir_keys (mk_key (fst (Int R (snd (Int R (Suite.Rng (ts w))))))).
Proof.
  unfold Run_from, t_Cleanup. cbn [bind].
  rewrite exec_defer, exec_bind.
  destruct (exec_single_result w)
    as (o1 & w1 & e1 & f1 & E1 & O1 & T1 & F1 & K1 & G1 & W1 & GS1 & L13 & _).
  rewrite E1.
  destruct O1 as [[-> ->] | [-> L1]].
  - destruct (exec_dir_result w1)
      as (o2 & w2 & e2 & f2 & E2 & O2 & T2 & F2 & K2 & G2 & W2 & GS2 & L9).
    rewrite E2.
    destruct (exec_cleanup_result Sto R w2)
      as (dels & w3 & E3 & T3 & M3 & F3 & K3 & G3 & W3 & GS3).
    destruct O2 as [[-> ->] | [-> L2]]; rewrite exec_bind, E3; cbn [exec fst snd];
      [| discriminate].
    intros _. exists (e1 ++ e2), dels.
    rewrite T3, T2, T1, K3, K2, K1, G1, !tagged_app, <- !app_assoc.
    split; [reflexivity |]. split; [rewrite length_app, L13, L9; reflexivity |].
    split; [| reflexivity].
    apply (f_equal (@List.length call)) in M3.
    rewrite !length_map, K2, K1, length_app in M3. exact M3.
  - destruct (exec_cleanup_result Sto R w1)
      as (dels & w3 & E3 & T3 & M3 & F3 & K3 & G3 & W3 & GS3).
    rewrite exec_bind, E3. cbn [exec fst]. discriminate.
Qed.

(** What remains of [Run] once [testLocker] has stopped through
    [t.Fatalf]: the teardown alone. *)
Lemma exec_Run_exit (w : World St G) :
  exists w' dels,
    exec Sto R (Run_from Sprintf_v Goexit) w = (Exited, w')
    /\ trace w' = trace w ++ tagged 0 dels
    /\ map fst dels = map CDelete (Suite.randKeys (ts w'))
    /\ failures w' = failures w
    /\ Suite.randKeys (ts w') = Suite.randKeys (ts w)
    /\ wg w' = wg w
    /\ goroutines w' = goroutines w.
Proof.
  unfold Run_from, t_Cleanup. cbn [bind defer_].
  destruct (exec_cleanup_result Sto R w)
    as (dels & w3 & E3 & T3 & M3 & F3 & K3 & G3 & W3 & GS3).
  exists w3, dels. rewrite exec_bind, E3. cbn [exec]. rewrite K3. now repeat split.
Qed.

Lemma sequential_Run_tail : sequential (Run_from Sprintf_v (Ret tt)).
Proof.
  unfold Run_from, t_Cleanup. cbn [bind].
  apply sequential_defer; [| apply sequential_cleanup].
  apply sequential_bind; [apply sequential_testStorageSingleKey |].
  intros _. apply sequential_testStorageDir.
Qed.

Lemma sequential_Run_exit : sequential (Run_from Sprintf_v Goexit).
Proof.
  unfold Run_from, t_Cleanup. cbn [bind defer_].
  apply sequential_bind; [apply sequential_cleanup | now intros].
Qed.

End RunTail.

Section RunStates.

Context {St G : Type}.
Variable Sto : certmagic.Storage St.
Variable R : RngImpl G.
Variable Sprintf_v : list string -> string.

Lemma Run_from_Op (o : op) (k : value -> prog unit) :
  Run_from Sprintf_v (Op o k) = Op o (fun v => Run_from Sprintf_v (k v)).
Proof. reflexivity. Qed.

Lemma Run_from_Go (g k : prog unit) :
  Run_from Sprintf_v (Go g k) = Go g (Run_from Sprintf_v k).
Proof. reflexivity. Qed.

Lemma start_Run (s : Suite.t St G) :
  start s (Run Sprintf_v) = map_main (Run_from Sprintf_v) (start s testLocker).
Proof. reflexivity. Qed.

Lemma all_finished_main_done (w : World St G) :
  all_finished w = true -> main_done w = true.
Proof.
  unfold all_finished, main_done. destruct (goroutines w); [reflexivity |].
  cbn [forallb]. now intros [H _]%andb_true_iff.
Qed.

Lemma trace_of_main (tr : list (nat * call * value)) :
  (forall tid, 1 <= tid -> calls_of tid tr = []) -> tr = tagged 0 (calls_of 0 tr).
Proof.
  induction tr as [| [[tid c] v] tr IH]; intros H; [reflexivity |].
  destruct tid as [| i].
  - unfold calls_of. cbn [filter fst snd Nat.eqb map tagged]. fold (calls_of 0 tr).
    fold (tagged 0 (calls_of 0 tr)). rewrite <- IH; [reflexivity |].
    intros tid Ht. specialize (H tid Ht). unfold calls_of in H |- *.
    cbn [filter fst] in H. destruct tid; [lia |]. exact H.
  - specialize (H (S i) ltac:(lia)). unfold calls_of in H. cbn [filter fst] in H.
    rewrite Nat.eqb_refl in H. discriminate H.
Qed.

(** [testLocker] has ended: how. *)
Lemma locker_inv_done (g0 : G) (w : World St G) :
  locker_inv R g0 w -> main_done w = true ->
  exists main ws,
    goroutines w = main :: ws
    /\ forallb finished ws = true
    /\ wg w = 0
    /\ map fst (calls_of 0 (trace w))
       = firstn (List.length (calls_of 0 (trace w)))
                (map chk_call (locker_checks (Itoa (fst (Int R g0)))))
    /\ List.length (calls_of 0 (trace w)) <= 3
    /\ (main = Ret tt /\ failures_of 0 w = [] /\ List.length ws = 10
        /\ Suite.Rng (ts w) = after_draws R 5 (snd (Int R g0))
        /\ List.length (calls_of 0 (trace w)) = 3
        \/ main = Goexit /\ ws = [] /\ List.length (failures_of 0 w) = 1
           /\ trace w = tagged 0 (calls_of 0 (trace w))
           /\ calls_of 0 (trace w) <> []).
Proof.
  intros (main & ws & ks & extra & Hgs & Hmain & Hws & Hwg & Hnone & Hret).
  unfold main_done. rewrite Hgs. intros Hfin.
  exists main, ws. split; [reflexivity |].
  destruct (main_at_calls R _ _ _ _ _ _ _ Hmain) as (Hcalls & Hlen & _).
  assert (Hrest : forallb finished ws = true /\ wg w = 0
                  /\ (main = Ret tt /\ failures_of 0 w = [] /\ List.length ws = 10
                      /\ Suite.Rng (ts w) = after_draws R 5 (snd (Int R g0))
                      /\ List.length (calls_of 0 (trace w)) = 3
                      \/ main = Goexit /\ ws = [] /\ List.length (failures_of 0 w) = 1
                         /\ trace w = tagged 0 (calls_of 0 (trace w))
                         /\ calls_of 0 (trace w) <> [])).
  { remember (failures_of 0 w) as f0 eqn:Hf0. remember (calls_of 0 (trace w)) as h0 eqn:Hh0.
    remember (Suite.Rng (ts w)) as gw eqn:Hgw.
    destruct Hmain as [| done rest c q h Hsplit Hscr Hdone | | | c i h keys Hci Hpass Hks
                       | | | h keys Hpass Hks]; try discriminate Hfin.
    - inversion Hscr; subst; discriminate Hfin.
    - destruct ws; [| destruct Hws]. cbn in Hwg.
      split; [reflexivity |]. split; [lia |]. right.
      split; [reflexivity |]. split; [reflexivity |]. split; [reflexivity |].
      split.
      + rewrite Hh0. apply trace_of_main. intros tid Ht.
        apply Hnone. rewrite Hgs. cbn. lia.
      + now destruct h.
    - destruct i; discriminate Hfin.
    - specialize (Hret eq_refl). split; [now apply pending_zero |].
      split; [lia |]. left.
      split; [reflexivity |]. split; [reflexivity |]. split.
      + apply workers_at_length in Hws. rewrite <- Hws, Hks.
        now rewrite twice_length, length_map, draws_length.
      + split; [reflexivity |].
        apply Forall2_length in Hpass. now rewrite <- Hpass. }
  destruct Hrest as (H1 & H2 & H3). now repeat split.
Qed.

(** The state in which the rest of [Run] starts. *)
Lemma seq_phase_start (g0 : G) (w1 : World St G) :
  locker_inv R g0 w1 -> main_done w1 = true ->
  exists main1 ws out wf,
    goroutines w1 = main1 :: ws
    /\ forallb finished ws = true
    /\ exec Sto R (Run_from Sprintf_v main1) w1 = (out, wf)
    /\ (out = Returned tt \/ out = Exited)
    /\ seq_inv_of Sto R ws out wf (map_main (Run_from Sprintf_v) w1).
Proof.
  intros Hinv Hdone.
  destruct (locker_inv_done g0 w1 Hinv Hdone)
    as (main1 & ws & Hgs & Hws & Hwg & _ & _ & Hcase).
  exists main1, ws.
  assert (Hseq : sequential (Run_from Sprintf_v main1)).
  { destruct Hcase as [[-> _] | [-> _]];
      [apply sequential_Run_tail | apply sequential_Run_exit]. }
  assert (Hout : fst (exec Sto R (Run_from Sprintf_v main1) w1) = Returned tt
                 \/ fst (exec Sto R (Run_from Sprintf_v main1) w1) = Exited).
  { destruct Hcase as [[-> _] | [-> _]].
    - destruct (exec_Run_tail Sto R Sprintf_v w1)
        as (out & w' & evs & dels & fl & extra & E & [[-> _] | [-> _]] & _);
        rewrite E; auto.
    - destruct (exec_Run_exit Sto R Sprintf_v w1) as (w' & dels & E & _).
      rewrite E. auto. }
  destruct (exec Sto R (Run_from Sprintf_v main1) w1) as [out wf] eqn:Hex.
  exists out, wf. repeat split; try assumption.
  exists (Run_from Sprintf_v main1). unfold map_main. rewrite Hgs.
  split; [reflexivity |]. split; [exact Hseq |].
  rewrite (exec_with_goroutines Sto R _ Hseq), Hex. reflexivity.
Qed.

(** Every state of a run of [Run] belongs to one of two phases: the
    locking check is under way, or it has ended and the test goroutine
    goes on alone. *)
Lemma Run_state (s : Suite.t St G) (sched : list nat) :
  let w := run_sched Sto R sched (start s (Run Sprintf_v)) in
  (main_done (run_sched Sto R sched (start s testLocker)) = false
   /\ w = map_main (Run_from Sprintf_v) (run_sched Sto R sched (start s testLocker)))
  \/ (exists s1 s2 main1 ws out wf,
        sched = s1 ++ s2
        /\ main_done (run_sched Sto R s1 (start s testLocker)) = true
        /\ goroutines (run_sched Sto R s1 (start s testLocker)) = main1 :: ws
        /\ forallb finished ws = true
        /\ exec Sto R (Run_from Sprintf_v main1) (run_sched Sto R s1 (start s testLocker))
           = (out, wf)
        /\ (out = Returned tt \/ out = Exited)
        /\ seq_inv_of Sto R ws out wf w).
Proof.
  intros w. subst w. rewrite start_Run.
  destruct (run_map_main Sto R (Run_from Sprintf_v) Run_from_Op Run_from_Go sched
              (start s testLocker)) as (s1 & s2 & Hs & Hrun & Hcase).
  rewrite Hrun.
  pose proof (locker_inv_run Sto R (Suite.Rng s) s1 _ (locker_inv_start R s)) as Hinv.
  destruct (main_done (run_sched Sto R s1 (start s testLocker))) eqn:Hdone.
  - right.
    destruct (seq_phase_start (Suite.Rng s) _ Hinv Hdone)
      as (main1 & ws & out & wf & Hgs & Hws & Hex & Hout & Hseq).
    exists s1, s2, main1, ws, out, wf. repeat split; try assumption.
    apply seq_inv_run; try assumption. destruct Hout; congruence.
  - left. destruct Hcase as [-> | Hc]; [| discriminate Hc].
    rewrite app_nil_r in Hs. subst s1. now split.
Qed.

End RunStates.

Section RunTheorems.

Context {St G : Type}.
Variable Sto : certmagic.Storage St.
Variable R : RngImpl G.
Variable Sprintf_v : list string -> string.

Lemma map_main_running (w : World St G) :
  main_done w = false -> main_done (map_main (Run_from Sprintf_v) w) = false.
Proof.
  unfold main_done, map_main. destruct (goroutines w) as [| m ws]; [discriminate |].
  cbn [goroutines with_goroutines]. intros H.
  destruct m; try discriminate H; reflexivity.
Qed.

Lemma failures_of_tagged (w : World St G) (a : list (nat * string * list fmt_arg))
  (fl : list (string * list fmt_arg)) :
  failures w = a ++ map (fun f => (0, fst f, snd f)) fl ->
  failures_of 0 w
  = map (fun f => (snd (fst f), snd f)) (filter (fun f => Nat.eqb (fst (fst f)) 0) a) ++ fl.
Proof.
  intros H. unfold failures_of. rewrite H, filter_app, map_app. f_equal. clear H.
  induction fl as [| [x y] fl IH]; [reflexivity |].
  cbn [map filter fst snd Nat.eqb]. f_equal. exact IH.
Qed.

(** A completed run of [Run], taken apart. *)
Lemma Run_completed_parts (s : Suite.t St G) (sched : list nat) :
  let w := run_sched Sto R sched (start s (Run Sprintf_v)) in
  all_finished w = true ->
  exists s1 s2 main1 ws out wf,
    sched = s1 ++ s2
    /\ main_done (run_sched Sto R s1 (start s testLocker)) = true
    /\ goroutines (run_sched Sto R s1 (start s testLocker)) = main1 :: ws
    /\ exec Sto R (Run_from Sprintf_v main1) (run_sched Sto R s1 (start s testLocker))
       = (out, wf)
    /\ (out = Returned tt \/ out = Exited)
    /\ ts w = ts wf /\ failures w = failures wf /\ wg w = wg wf /\ trace w = trace wf
    /\ goroutines w = (match out with Returned _ => Ret tt | _ => Goexit end) :: ws.
Proof.
  intros w Hall.
  destruct (Run_state Sto R Sprintf_v s sched)
    as [[Hrun Hw] | (s1 & s2 & main1 & ws & out & wf & Hs & Hdone & Hgs & Hws & Hex & Hout
                     & Hseq)].
  - exfalso. apply all_finished_main_done in Hall. fold w in Hw. rewrite Hw in Hall.
    rewrite (map_main_running _ Hrun) in Hall. discriminate Hall.
  - exists s1, s2, main1, ws, out, wf.
    destruct (seq_inv_done Sto R _ _ _ _ Hseq (all_finished_main_done _ Hall))
      as (H1 & H2 & H3 & H4 & H5).
    now repeat split.
Qed.

End RunTheorems.

(** ** The locking check leaves the tracked keys alone *)

Lemma ops_in_bind {A B : Type} (P : op -> Prop) (p : prog A) (f : A -> prog B) :
  ops_in P p -> (forall a, ops_in P (f a)) -> ops_in P (bind p f).
Proof.
  induction p as [A a | A | A o k IH | A g _ k IH]; intros Hp Hf;
    cbn [bind ops_in] in *; auto.
  - destruct Hp as [Ho Hk]. split; [exact Ho |]. intros v. now apply IH.
  - destruct Hp as [Hg Hk]. split; [exact Hg |]. now apply IH.
Qed.

Lemma ops_in_defer {A : Type} (P : op -> Prop) (d : prog unit) (p : prog A) :
  ops_in P p -> ops_in P d -> ops_in P (defer_ d p).
Proof.
  induction p as [A a | A | A o k IH | A g _ k IH]; intros Hp Hd;
    cbn [defer_ ops_in] in *.
  - apply ops_in_bind; [exact Hd | now intros].
  - apply ops_in_bind; [exact Hd | now intros].
  - destruct Hp as [Ho Hk]. split; [exact Ho |]. intros v. now apply IH.
  - destruct Hp as [Hg Hk]. split; [exact Hg |]. now apply IH.
Qed.

Lemma lock_op_test_loop (key : string) (n : nat) : ops_in lock_op (test_loop key n).
Proof.
  induction n as [| n IH]; [exact I |].
  cbn [test_loop S_Lock bind ops_in lock_op]. split; [exact I |].
  intros v. destruct (err_of v); [exact IH |].
  cbn [Gosched S_Unlock bind ops_in lock_op]. split; [exact I |]. intros _.
  split; [exact I |]. intros v'. destruct (err_of v'); [| exact IH].
  cbn. split; [exact I | now intros].
Qed.

Lemma lock_op_worker (key : string) : ops_in lock_op (worker key).
Proof.
  apply ops_in_defer; [apply lock_op_test_loop |]. cbn. split; [exact I | now intros].
Qed.

Lemma lock_op_spawn_workers (key : string) (j : nat) :
  ops_in lock_op (spawn_workers key j).
Proof.
  induction j as [| j IH]; [exact I |].
  cbn [spawn_workers wg_Add bind ops_in lock_op]. split; [exact I |]. intros _.
  split; [apply lock_op_worker | exact IH].
Qed.

Lemma lock_op_spawn_keys (i : nat) : ops_in lock_op (spawn_keys i).
Proof.
  induction i as [| i IH]; [exact I |].
  cbn [spawn_keys randKey Rng_Int bind ops_in lock_op]. split; [exact I |]. intros v.
  apply ops_in_bind; [apply lock_op_spawn_workers | now intros].
Qed.

Lemma lock_op_testLocker : ops_in lock_op testLocker.
Proof.
  unfold testLocker, lock_stress, Rng_Int, S_Unlock, S_Lock, Fatalf.
  cbn [bind ops_in lock_op]. split; [exact I |]. intros n.
  split; [exact I |]. intros v1. destruct (err_of v1); cbn [bind ops_in lock_op];
    [| split; [exact I | now intros]].
  split; [exact I |]. intros v2. destruct (err_of v2); cbn [bind ops_in lock_op];
    [split; [exact I | now intros] |].
  split; [exact I |]. intros v3. destruct (err_of v3); cbn [bind ops_in lock_op];
    [split; [exact I | now intros] |].
  apply ops_in_bind; [apply lock_op_spawn_keys |]. intros _.
  cbn. split; [exact I | now intros].
Qed.

Section LockOps.

Context {St G : Type}.
Variable Sto : certmagic.Storage St.
Variable R : RngImpl G.

Lemma Forall_set_nth {X : Type} (P : X -> Prop) (l : list X) (i : nat) (x : X) :
  Forall P l -> P x -> Forall P (set_nth i x l).
Proof.
  intros H Hx. revert i. induction H as [| y l Hy H IH]; intros [| i]; cbn [set_nth];
    constructor; auto.
Qed.

Lemma do_op_randKeys (tid : nat) (o : op) (w w1 : World St G) (v : value) :
  lock_op o -> do_op Sto R tid o w = Some (v, w1) ->
  Suite.randKeys (ts w1) = Suite.randKeys (ts w).
Proof.
  destruct o; cbn [lock_op do_op]; intros Hl Hop; try destruct Hl.
  - destruct (do_call Sto c (Suite.S (ts w))). now injection Hop as _ <-.
  - destruct (Int R (Suite.Rng (ts w))). now injection Hop as _ <-.
  - now injection Hop as _ <-.
  - now injection Hop as _ <-.
  - now injection Hop as _ <-.
  - destruct (wg w); [discriminate |]. now injection Hop as _ <-.
  - destruct (wg w); [| discriminate]. now injection Hop as _ <-.
Qed.

Lemma step_lock_ops (tid : nat) (w w' : World St G) :
  Forall (ops_in lock_op) (goroutines w) -> step Sto R tid w = Some w' ->
  Forall (ops_in lock_op) (goroutines w')
  /\ Suite.randKeys (ts w') = Suite.randKeys (ts w).
Proof.
  intros HF Hstep. unfold step in Hstep.
  destruct (nth_error (goroutines w) tid) as [p |] eqn:Hp; [| discriminate Hstep].
  pose proof (proj1 (Forall_forall _ _) HF p (nth_error_In _ _ Hp)) as Hops.
  destruct p as [a | | o k | g k]; cbn [step_prog ops_in] in *; try discriminate Hstep.
  - destruct (do_op Sto R tid o w) as [[v w1] |] eqn:Hop; [| discriminate Hstep].
    injection Hstep as <-. cbn [goroutines with_goroutines ts].
    rewrite (do_op_goroutines Sto R _ _ _ _ _ Hop). destruct Hops as [Ho Hk].
    split; [apply Forall_set_nth; auto |].
    now apply (do_op_randKeys tid o w w1 v).
  - injection Hstep as <-. cbn [goroutines with_goroutines ts]. destruct Hops as [Hg Hk].
    split; [| reflexivity].
    apply Forall_set_nth; [| exact Hk]. apply Forall_app. split; [exact HF |].
    now constructor.
Qed.

(** A run of [testLocker] never touches the tracked keys. *)
Lemma testLocker_randKeys (s : Suite.t St G) (sched : list nat) :
  Suite.randKeys (ts (run_sched Sto R sched (start s testLocker))) = Suite.randKeys s.
Proof.
  assert (H : forall w : World St G,
             Forall (ops_in lock_op) (goroutines w) ->
             Suite.randKeys (ts (run_sched Sto R sched w)) = Suite.randKeys (ts w)).
  { induction sched as [| tid sched IH]; intros w HF; [reflexivity |].
    cbn [run_sched fold_left]. unfold run_step at 2.
    destruct (step Sto R tid w) as [w' |] eqn:Hs; [| now apply IH].
    destruct (step_lock_ops _ _ _ HF Hs) as [HF' Hk].
    change (Suite.randKeys (ts (run_sched Sto R sched w')) = Suite.randKeys (ts w)).
    rewrite IH; assumption. }
  apply (H (start s testLocker)). constructor; [apply lock_op_testLocker | constructor].
Qed.

End LockOps.

Section RunFacts.

Context {St G : Type}.
Variable Sto : certmagic.Storage St.
Variable R : RngImpl G.
Variable Sprintf_v : list string -> string.

(** X11.  [Run] is the locking check followed by the rest in sequence.
    Whatever the storage, the generator and the schedule, a run of [Run]
    in which every goroutine has ended splits in two: a run of
    [testLocker] to the point where all its goroutines have ended, and
    then the test goroutine alone, which runs the two storage checks if
    [testLocker] returned, and in any case the teardown.  The suite, the
    recorded failures and the calls at the end are those of that
    sequential rest, and the wait group is back at zero. *)
Theorem Run_completed (s : Suite.t St G) (sched : list nat) :
  let w := run_sched Sto R sched (start s (Run Sprintf_v)) in
  all_finished w = true ->
  exists s1 s2 main1,
    sched = s1 ++ s2
    /\ let w1 := run_sched Sto R s1 (start s testLocker) in
       let r := exec Sto R (Run_from Sprintf_v main1) w1 in
       hd_error (goroutines w1) = Some main1
       /\ all_finished w1 = true
       /\ (fst r = Returned tt \/ fst r = Exited)
       /\ ts w = ts (snd r)
       /\ failures w = failures (snd r)
       /\ trace w = trace (snd r)
       /\ wg w = 0
       /\ tl (goroutines w) = tl (goroutines w1).
Proof.
  intros w Hall.
  destruct (Run_completed_parts Sto R Sprintf_v s sched Hall)
    as (s1 & s2 & main1 & ws & out & wf & Hs & Hdone & Hgs & Hex & Hout
        & H1 & H2 & H3 & H4 & H5).
  fold w in H1, H2, H3, H4, H5.
  exists s1, s2, main1. split; [exact Hs |]. cbv zeta.
  pose proof (locker_inv_run Sto R (Suite.Rng s) s1 _ (locker_inv_start R s)) as Hinv.
  destruct (locker_inv_done R (Suite.Rng s) _ Hinv Hdone)
    as (m & ws' & Hgs' & Hws & Hwg & _ & _ & Hcase).
  rewrite Hgs in Hgs'. injection Hgs' as <- <-.
  rewrite Hex, Hgs, H5. cbn [fst snd hd_error tl].
  split; [reflexivity |]. split.
  { unfold all_finished. rewrite Hgs. cbn [forallb]. rewrite Hws.
    destruct Hcase as [[-> _] | [-> _]]; reflexivity. }
  repeat split; try assumption.
  rewrite H3. destruct Hcase as [[-> _] | [-> _]].
  - destruct (exec_Run_tail Sto R Sprintf_v (run_sched Sto R s1 (start s testLocker)))
      as (o & w' & evs & dels & fl & extra & E & _ & _ & _ & _ & _ & _ & W & _).
    rewrite Hex in E. injection E as _ <-. congruence.
  - destruct (exec_Run_exit Sto R Sprintf_v (run_sched Sto R s1 (start s testLocker)))
      as (w' & dels & E & _ & _ & _ & _ & W & _).
    rewrite Hex in E. injection E as _ <-. congruence.
Qed.

(** X12.  Teardown comes last and covers the tracked keys.  In a run of
    [Run] in which every goroutine has ended, whether the checks passed
    or not, the last calls are the teardown's: one [Delete] for each
    tracked key, in order.  The tracked keys are those the suite had
    before and, if the listing check was reached, its three keys. *)
Theorem Run_teardown_last (s : Suite.t St G) (sched : list nat) :
  let w := run_sched Sto R sched (start s (Run Sprintf_v)) in
  all_finished w = true ->
  exists tr dels extra,
    trace w = tr ++ tagged 0 dels
    /\ map fst dels = map CDelete (Suite.randKeys (ts w))
    /\ Suite.randKeys (ts w) = Suite.randKeys s ++ extra
    /\ (extra = [] \/ exists n, extra = dir_keys (mk_key n)).
Proof.
  intros w Hall.
  destruct (Run_completed_parts Sto R Sprintf_v s sched Hall)
    as (s1 & s2 & main1 & ws & out & wf & Hs & Hdone & Hgs & Hex & Hout
        & H1 & H2 & H3 & H4 & H5).
  fold w in H1, H2, H3, H4, H5.
  pose proof (locker_inv_run Sto R (Suite.Rng s) s1 _ (locker_inv_start R s)) as Hinv.
  destruct (locker_inv_done R (Suite.Rng s) _ Hinv Hdone)
    as (m & ws' & Hgs' & Hws & Hwg & _ & _ & Hcase).
  rewrite Hgs in Hgs'. injection Hgs' as <- <-.
  pose proof (testLocker_randKeys Sto R s s1) as Hkeys.
  rewrite H1, H4. destruct Hcase as [[-> _] | [-> _]].
  - destruct (exec_Run_tail Sto R Sprintf_v (run_sched Sto R s1 (start s testLocker)))
      as (o & w' & evs & dels & fl & extra & E & _ & T & M & _ & K & X & _).
    rewrite Hex in E. injection E as _ <-.
    exists (trace (run_sched Sto R s1 (start s testLocker)) ++ tagged 0 evs), dels, extra.
    rewrite T, tagged_app, app_assoc, K, Hkeys. repeat split;
      [now rewrite M, K, Hkeys |].
    destruct X as [-> | ->]; [now left | right; eauto].
  - destruct (exec_Run_exit Sto R Sprintf_v (run_sched Sto R s1 (start s testLocker)))
      as (w' & dels & E & T & M & _ & K & _).
    rewrite Hex in E. injection E as _ <-.
    exists (trace (run_sched Sto R s1 (start s testLocker))), dels, [].
    rewrite T, K, Hkeys, app_nil_r. repeat split; [| now left].
    now rewrite M, K, Hkeys.
Qed.

(** X13.  The first failure of the test goroutine ends the test
    function.  In a run of [Run] in which every goroutine has ended the
    test goroutine has recorded one failure at most; and if it was in the
    locking check's own three calls (no worker was started, so the test
    goroutine is the only goroutine), neither storage check was run: the
    calls of the run are the one to three calls of the locking check
    followed by the teardown's [Delete] calls on the keys the suite
    tracked before, and none were added. *)
Theorem Run_fail_fast (s : Suite.t St G) (sched : list nat) :
  let w := run_sched Sto R sched (start s (Run Sprintf_v)) in
  let K := Itoa (fst (Int R (Suite.Rng s))) in
  all_finished w = true ->
  List.length (failures_of 0 w) <= 1
  /\ (List.length (goroutines w) = 1 ->
      exists h dels,
        trace w = tagged 0 (h ++ dels)
        /\ 1 <= List.length h <= 3
        /\ map fst h = firstn (List.length h) [CUnlock K; CLock K; CUnlock K]
        /\ map fst dels = map CDelete (Suite.randKeys s)
        /\ Suite.randKeys (ts w) = Suite.randKeys s
        /\ List.length (failures_of 0 w) = 1).
Proof.
  intros w K Hall.
  destruct (Run_completed_parts Sto R Sprintf_v s sched Hall)
    as (s1 & s2 & main1 & ws & out & wf & Hs & Hdone & Hgs & Hex & Hout
        & H1 & H2 & H3 & H4 & H5).
  fold w in H1, H2, H3, H4, H5.
  pose proof (locker_inv_run Sto R (Suite.Rng s) s1 _ (locker_inv_start R s)) as Hinv.
  destruct (locker_inv_done R (Suite.Rng s) _ Hinv Hdone)
    as (m & ws' & Hgs' & Hws & Hwg & Hcalls & Hlen & Hcase).
  rewrite Hgs in Hgs'. injection Hgs' as <- <-.
  pose proof (testLocker_randKeys Sto R s s1) as Hkeys.
  set (w1 := run_sched Sto R s1 (start s testLocker)) in *.
  destruct Hcase as [(-> & Hf0 & Hten) | (-> & -> & Hf1 & Htr & Hne)].
  - destruct (exec_Run_tail Sto R Sprintf_v w1)
      as (o & w' & evs & dels & fl & extra & E & Hfl & _ & _ & F & _).
    rewrite Hex in E. injection E as _ <-.
    assert (Hfw : failures_of 0 w = failures_of 0 w1 ++ fl).
    { apply failures_of_tagged. now rewrite H2. }
    rewrite Hfw, Hf0. cbn [app]. split.
    + destruct Hfl as [[_ ->] | [_ ->]]; cbn; lia.
    + rewrite H5. cbn [List.length]. lia.
  - destruct (exec_Run_exit Sto R Sprintf_v w1) as (w' & dels & E & T & M & F & Kk & _).
    rewrite Hex in E. injection E as _ <-.
    assert (Hfw : failures_of 0 w = failures_of 0 w1)
      by (unfold failures_of; now rewrite H2, F).
    rewrite Hfw, Hf1. split; [lia |]. intros _.
    exists (calls_of 0 (trace w1)), dels.
    rewrite H4, T, tagged_app, <- Htr, H1, Kk, Hkeys.
    split; [reflexivity |]. split.
    + split; [| exact Hlen].
      destruct (calls_of 0 (trace w1)); [now exfalso | cbn; lia].
    + split; [exact Hcalls |]. split; [| now split].
      now rewrite M, Kk, Hkeys.
Qed.

(** X14.  [Run] cannot deadlock.  From every state a run of [Run] can
    reach, whatever the storage, the generator and the schedule so far,
    some continuation of the schedule leads to the state in which every
    goroutine has ended.  (A storage call counts as one step that
    returns.) *)
Theorem Run_can_complete (s : Suite.t St G) (sched : list nat) :
  exists more,
    all_finished (run_sched Sto R (sched ++ more) (start s (Run Sprintf_v))) = true.
Proof.
  assert (Hseq : forall ws out wf (w : World St G),
             forallb finished ws = true -> out = Returned tt \/ out = Exited ->
             seq_inv_of Sto R ws out wf w ->
             exists more, all_finished (run_sched Sto R more w) = true).
  { intros ws out wf w Hws Hout (p & Hgs & Hsq & Hex).
    exists (repeat 0 (exec_steps Sto R p w)).
    apply (seq_complete Sto R ws Hws _ p w eq_refl Hgs Hsq).
    rewrite Hex. cbn [fst]. destruct Hout; congruence. }
  destruct (Run_state Sto R Sprintf_v s sched)
    as [[Hrun Hw] | (s1 & s2 & main1 & ws & out & wf & Hs & Hdone & Hgs & Hws & Hex & Hout
                     & Hinv)].
  - set (w1 := run_sched Sto R sched (start s testLocker)) in *.
    pose proof (locker_inv_run Sto R (Suite.Rng s) sched _ (locker_inv_start R s)) as Hi.
    fold w1 in Hi.
    destruct (world_cost_run Sto R sched _ _ (world_cost_start s)) as (n & Hn).
    fold w1 in Hn.
    destruct (locker_inv_completes Sto R (Suite.Rng s) n w1 Hi Hn) as (more1 & Hm1).
    destruct (run_map_main Sto R (Run_from Sprintf_v) (Run_from_Op Sprintf_v)
                (Run_from_Go Sprintf_v) more1 w1) as (a & b & Hab & Hrun1 & Hcase).
    assert (Hd : main_done (run_sched Sto R a w1) = true).
    { destruct Hcase as [-> | Hc]; [| exact Hc].
      rewrite app_nil_r in Hab. subst a. now apply all_finished_main_done. }
    destruct (seq_phase_start Sto R Sprintf_v (Suite.Rng s) _
                (locker_inv_run Sto R _ a _ Hi) Hd)
      as (m1 & ws1 & out1 & wf1 & Hg1 & Hws1 & Hex1 & Hout1 & Hsq1).
    assert (Hsq2 : seq_inv_of Sto R ws1 out1 wf1
                     (run_sched Sto R more1 (map_main (Run_from Sprintf_v) w1))).
    { rewrite Hrun1. apply seq_inv_run; try assumption. destruct Hout1; congruence. }
    destruct (Hseq _ _ _ _ Hws1 Hout1 Hsq2) as (more2 & Hm2).
    exists (more1 ++ more2). rewrite !run_sched_app. rewrite Hw.
    exact Hm2.
  - destruct (Hseq _ _ _ _ Hws Hout Hinv) as (more & Hm).
    exists more. now rewrite run_sched_app.
Qed.

End RunFacts.

Lemma Run_completed_witness :
  let w := run_sched MemStorage.storage counter workers_in_turn
             (start sample_suite (Run GoSyntax.Sprintf_v)) in
  all_finished w = true
  /\ exists s1 s2 main1,
       workers_in_turn = s1 ++ s2
       /\ hd_error (goroutines (run_sched MemStorage.storage counter s1
                                  (start sample_suite testLocker))) = Some main1
       /\ trace w
          = trace (snd (exec MemStorage.storage counter
                          (Run_from GoSyntax.Sprintf_v main1)
                          (run_sched MemStorage.storage counter s1
                             (start sample_suite testLocker))))
       /\ wg w = 0.
Proof.
  intros w.
  assert (H : all_finished w = true) by (vm_compute; reflexivity).
  split; [exact H |].
  destruct (Run_completed MemStorage.storage counter GoSyntax.Sprintf_v sample_suite
              workers_in_turn H)
    as (s1 & s2 & main1 & Hs & Hhd & _ & _ & _ & _ & Htr & Hwg & _).
  exists s1, s2, main1. repeat split; assumption.
Defined.

Lemma Run_teardown_last_witness :
  let w := run_sched MemStorage.storage counter workers_in_turn
             (start sample_suite (Run GoSyntax.Sprintf_v)) in
  all_finished w = true
  /\ exists tr dels extra,
       trace w = tr ++ tagged 0 dels
       /\ map fst dels = map CDelete (Suite.randKeys (ts w))
       /\ Suite.randKeys (ts w) = Suite.randKeys sample_suite ++ extra
       /\ (extra = [] \/ exists n, extra = dir_keys (mk_key n)).
Proof.
  intros w.
  assert (H : all_finished w = true) by (vm_compute; reflexivity).
  split; [exact H |].
  exact (Run_teardown_last MemStorage.storage counter GoSyntax.Sprintf_v sample_suite
           workers_in_turn H).
Defined.

Lemma Run_fail_fast_witness :
  let w := run_sched always_unlocks counter (repeat 0 5)
             (start sample_suite (Run GoSyntax.Sprintf_v)) in
  all_finished w = true
  /\ List.length (goroutines w) = 1
  /\ List.length (failures_of 0 w) <= 1
  /\ exists h dels,
       trace w = tagged 0 (h ++ dels)
       /\ 1 <= List.length h <= 3
       /\ map fst dels = map CDelete (Suite.randKeys sample_suite).
Proof.
  intros w.
  assert (H : all_finished w = true) by (vm_compute; reflexivity).
  assert (H1 : List.length (goroutines w) = 1) by (vm_compute; reflexivity).
  split; [exact H |]. split; [exact H1 |].
  destruct (Run_fail_fast always_unlocks counter GoSyntax.Sprintf_v sample_suite
              (repeat 0 5) H) as (Hle & Hskip).
  split; [exact Hle |].
  destruct (Hskip H1) as (h & dels & Htr & Hlen & _ & Hdel & _).
  exists h, dels. repeat split; try assumption; apply Hlen.
Defined.

(** With an [Unlock] that never complains the suite stops at its first
    call: one failure, no worker, no storage check. *)
Example Run_stops_at_first_check :
  let w := run_sched always_unlocks counter (repeat 0 5)
             (start sample_suite (Run GoSyntax.Sprintf_v)) in
  goroutines w = [Goexit]
  /\ trace w = [(0, CUnlock "0", VErr None)]
  /\ failures w = [(0, "Storage successfully unlocks unlocked key", [])].
Proof. vm_compute. repeat split. Qed.

(** ** The keys of a run come from the generator alone *)

Lemma draws_nth {G : Type} (R : RngImpl G) (m n : nat) (g : G) :
  n < m -> nth n (draws R m g) 0%Z = fst (Int R (after_draws R n g)).
Proof.
  revert n g. induction m as [| m IH]; intros n g Hn; [lia |].
  cbn [draws]. destruct (Int R g) as [x g'] eqn:Hg.
  destruct n as [| n]; cbn [nth after_draws]; [now rewrite Hg |].
  rewrite Hg. cbn [snd]. apply IH. lia.
Qed.

Lemma calls_of_tagged (l : list (call * value)) : calls_of 0 (tagged 0 l) = l.
Proof.
  unfold calls_of, tagged. induction l as [| [c v] l IH]; [reflexivity |].
  cbn [map filter fst snd Nat.eqb]. now rewrite IH.
Qed.

Section GeneratedKeys.

Context {St G : Type}.
Variable Sto : certmagic.Storage St.
Variable R : RngImpl G.
Variable Sprintf_v : list string -> string.

(** X16.  The keys of a run depend on the generator alone, not on the
    storage or on the schedule.  With d0, d1, ... the successive results
    of the generator: in a run of [Run] in which every goroutine has
    ended the first call of the test goroutine is [Unlock] on the decimal
    rendering of d0; and if the locking check returned (its ten workers
    exist), the fourth call of the test goroutine is the single-key
    check's [Lock] on [KeyPrefix] followed by d6, and the keys tracked for
    teardown are those the suite had before and, if the listing check was
    reached, the three keys below [KeyPrefix] followed by d7. *)
Theorem Run_keys_from_generator (s : Suite.t St G) (sched : list nat) :
  let w := run_sched Sto R sched (start s (Run Sprintf_v)) in
  let d := fun i => nth i (draws R 8 (Suite.Rng s)) 0%Z in
  all_finished w = true ->
  (exists v, nth_error (calls_of 0 (trace w)) 0 = Some (CUnlock (Itoa (d 0)), v))
  /\ (List.length (goroutines w) = 11 ->
      (exists v, nth_error (calls_of 0 (trace w)) 3 = Some (CLock (mk_key (d 6)), v))
      /\ (Suite.randKeys (ts w) = Suite.randKeys s
          \/ Suite.randKeys (ts w) = Suite.randKeys s ++ dir_keys (mk_key (d 7)))).
Proof.
  intros w d Hall.
  destruct (Run_completed_parts Sto R Sprintf_v s sched Hall)
    as (s1 & s2 & main1 & ws & out & wf & Hs & Hdone & Hgs & Hex & Hout
        & H1 & H2 & H3 & H4 & H5).
  fold w in H1, H2, H3, H4, H5.
  pose proof (locker_inv_run Sto R (Suite.Rng s) s1 _ (locker_inv_start R s)) as Hinv.
  destruct (locker_inv_done R (Suite.Rng s) _ Hinv Hdone)
    as (m & ws' & Hgs' & Hws & Hwg & Hcalls & Hlen & Hcase).
  rewrite Hgs in Hgs'. injection Hgs' as <- <-.
  pose proof (testLocker_randKeys Sto R s s1) as Hkeys.
  set (w1 := run_sched Sto R s1 (start s testLocker)) in *.
  assert (Hd : forall i, i < 8 -> d i = fst (Int R (after_draws R i (Suite.Rng s))))
    by (intros i Hi; now apply draws_nth).
  assert (Hfirst : forall tl0,
             calls_of 0 (trace w1) <> [] ->
             exists v, nth_error (calls_of 0 (trace w1) ++ tl0) 0
                       = Some (CUnlock (Itoa (d 0)), v)).
  { intros tl0 Hne. rewrite (Hd 0) by lia. cbn [after_draws].
    destruct (calls_of 0 (trace w1)) as [| [c v] h] eqn:Hc; [now exfalso |].
    cbn [map fst List.length firstn locker_checks chk_call] in Hcalls.
    injection Hcalls as -> _. now exists v. }
  destruct Hcase as [(-> & Hf0 & Hten & Hrng & Hthree) | (-> & -> & Hf1 & Htr & Hne)].
  - destruct (exec_Run_tail Sto R Sprintf_v w1)
      as (o & w' & evs & dels & fl & extra & E & _ & T & _ & _ & K & X & _ & _
          & v0 & rest0 & Hevs).
    rewrite Hex in E. injection E as _ <-.
    rewrite H4, T, calls_of_app, calls_of_tagged, H1, K, Hkeys.
    split.
    + apply Hfirst. intros E0. rewrite E0 in Hthree. discriminate Hthree.
    + intros _. split.
      * exists v0. rewrite nth_error_app2 by lia. rewrite Hthree, Nat.sub_diag, Hevs.
        cbn [app nth_error]. rewrite Hrng, (Hd 6) by lia. reflexivity.
      * destruct X as [-> | ->]; [left; now rewrite app_nil_r | right].
        rewrite Hrng, (Hd 7) by lia. cbn [after_draws]. reflexivity.
  - destruct (exec_Run_exit Sto R Sprintf_v w1) as (w' & dels & E & T & _).
    rewrite Hex in E. injection E as _ <-.
    rewrite H4, T, calls_of_app, calls_of_tagged.
    split; [now apply Hfirst |].
    rewrite H5. cbn [List.length]. intros Hl. discriminate Hl.
Qed.

End GeneratedKeys.

Lemma Run_keys_from_generator_witness :
  let w := run_sched MemStorage.storage counter workers_in_turn
             (start sample_suite (Run GoSyntax.Sprintf_v)) in
  all_finished w = true
  /\ List.length (goroutines w) = 11
  /\ (exists v, nth_error (calls_of 0 (trace w)) 0 = Some (CUnlock "0", v))
  /\ (exists v, nth_error (calls_of 0 (trace w)) 3 = Some (CLock "__test__key__6", v))
  /\ (Suite.randKeys (ts w) = []
      \/ Suite.randKeys (ts w)
         = ["__test__key__7/k1"; "__test__key__7/k/a/b"; "__test__key__7/k/c"]).
Proof.
  intros w.
  assert (H : all_finished w = true) by (vm_compute; reflexivity).
  assert (H11 : List.length (goroutines w) = 11) by (vm_compute; reflexivity).
  split; [exact H |]. split; [exact H11 |].
  destruct (Run_keys_from_generator MemStorage.storage counter GoSyntax.Sprintf_v
              sample_suite workers_in_turn H) as (Hk & Hrest).
  destruct (Hrest H11) as (H6 & H7).
  split; [exact Hk |]. split; [exact H6 | exact H7].
Defined.

(** ** A run without failure has run every check *)

Lemma calls_of_tagged_other (i : nat) (l : list (call * value)) :
  calls_of (S i) (tagged 0 l) = [].
Proof.
  unfold calls_of, tagged. induction l as [| [c v] l IH]; [reflexivity |].
  cbn [map filter fst snd Nat.eqb]. exact IH.
Qed.

Lemma all_Ret (ps : list (prog unit)) :
  (forall i p, nth_error ps i = Some p -> p = Ret tt) ->
  ps = repeat (Ret tt) (List.length ps).
Proof.
  induction ps as [| q ps IH]; intros H; [reflexivity |].
  cbn [List.length repeat]. rewrite (H 0 q eq_refl). f_equal.
  apply IH. intros i p Hp. exact (H (S i) p Hp).
Qed.

Lemma worker_at_returned (key : string) (p : prog unit) (h : list (call * value)) :
  worker_at key p h [] -> finished p = true -> p = Ret tt /\ iterations key 5 h.
Proof.
  intros Hat Hfin. remember (@nil (string * list fmt_arg)) as f eqn:Hf.
  destruct Hat as [n h Hn Hit | n h Hn Hit | n h Hn Hit | n h e Hn Hit
                   | n h e Hn Hit | n h e Hn Hit | h Hit];
    try discriminate Hfin; try discriminate Hf.
  - destruct n; discriminate Hfin.
  - now split.
Qed.

Lemma failures_of_nil {St G : Type} (tid : nat) (w : World St G) :
  failures w = [] -> failures_of tid w = [].
Proof. unfold failures_of. now intros ->. Qed.

Section Passed.

Context {St G : Type}.
Variable Sto : certmagic.Storage St.
Variable R : RngImpl G.
Variable Sprintf_v : list string -> string.

(** X17.  A run of [Run] that ends without a recorded failure has skipped
    nothing.  Whatever the storage and the schedule, with d0, d1, ... the
    successive results of the generator: the test function returned and
    so did all ten workers, worker number i after five complete
    iterations on the key made from d(1 + i/2); the test goroutine made
    the 3 calls of the locking check, the 13 of the single-key check, the
    9 of the listing check and one [Delete] for each tracked key; and the
    tracked keys are those the suite had before and the three keys of the
    listing check below the key made from d7. *)
Theorem Run_passed_ran_everything (s : Suite.t St G) (sched : list nat) :
  let w := run_sched Sto R sched (start s (Run Sprintf_v)) in
  let d := fun i => nth i (draws R 8 (Suite.Rng s)) 0%Z in
  all_finished w = true ->
  failures w = [] ->
  goroutines w = repeat (Ret tt) 11
  /\ List.length (calls_of 0 (trace w)) = 3 + 13 + 9 + (List.length (Suite.randKeys s) + 3)
  /\ Suite.randKeys (ts w) = Suite.randKeys s ++ dir_keys (mk_key (d 7))
  /\ (forall i, i < 10 ->
        iterations (mk_key (d (1 + i / 2))) 5 (calls_of (S i) (trace w))).
Proof.
  intros w d Hall Hnone.
  destruct (Run_completed_parts Sto R Sprintf_v s sched Hall)
    as (s1 & s2 & main1 & ws & out & wf & Hs & Hdone & Hgs & Hex & Hout
        & H1 & H2 & H3 & H4 & H5).
  fold w in H1, H2, H3, H4, H5.
  pose proof (locker_inv_run Sto R (Suite.Rng s) s1 _ (locker_inv_start R s)) as Hinv.
  destruct (locker_inv_done R (Suite.Rng s) _ Hinv Hdone)
    as (m & ws' & Hgs' & Hws & Hwg & Hcalls & Hlen & Hcase).
  rewrite Hgs in Hgs'. injection Hgs' as <- <-.
  pose proof (testLocker_randKeys Sto R s s1) as Hkeys.
  set (w1 := run_sched Sto R s1 (start s testLocker)) in *.
  assert (Hd : forall i, i < 8 -> d i = fst (Int R (after_draws R i (Suite.Rng s))))
    by (intros i Hi; now apply draws_nth).
  rewrite H2 in Hnone.
  destruct Hcase as [(-> & Hf0 & Hten & Hrng & Hthree) | (-> & -> & Hf1 & Htr & Hne)].
  2:{ exfalso.
      destruct (exec_Run_exit Sto R Sprintf_v w1) as (w' & dels & E & _ & _ & F & _).
      rewrite Hex in E. injection E as _ <-. rewrite F in Hnone.
      rewrite (failures_of_nil 0 w1 Hnone) in Hf1. discriminate Hf1. }
  destruct (exec_Run_tail Sto R Sprintf_v w1)
    as (o & w' & evs0 & dels0 & fl & extra & E & Hfl & _ & _ & F & _).
  rewrite Hex in E. injection E as <- <-. rewrite F in Hnone.
  apply app_eq_nil in Hnone. destruct Hnone as [Hnone1 Hfl0].
  assert (Hret : out = Returned tt).
  { destruct Hfl as [[-> _] | [_ Hl]]; [reflexivity |].
    destruct fl; [discriminate Hl | discriminate Hfl0]. }
  subst out.
  pose proof (exec_Run_tail_returned Sto R Sprintf_v w1) as Htail.
  rewrite Hex in Htail. cbn [fst snd] in Htail.
  destruct (Htail eq_refl) as (evs & dels & T & L22 & Ldel & K).
  destruct Hinv as (main & ws0 & ks & extra0 & Hg0 & Hmain & Hws0 & _).
  rewrite Hgs in Hg0. injection Hg0 as <- <-.
  assert (Hworker : forall i p, nth_error ws i = Some p ->
                                p = Ret tt
                                /\ iterations (mk_key (d (1 + i / 2))) 5
                                              (calls_of (S i) (trace w1))).
  { intros i p Hp.
    destruct (workers_at_nth _ _ _ _ _ _ Hws0 Hp) as (key & Hkey & Hat).
    cbn [Nat.add] in Hat. rewrite (failures_of_nil (S i) w1 Hnone1) in Hat.
    assert (Hfin : finished p = true).
    { rewrite forallb_forall in Hws. apply Hws. eapply nth_error_In; eassumption. }
    destruct (worker_at_returned _ _ _ Hat Hfin) as [-> Hit]. split; [reflexivity |].
    pose proof (worker_key_generated R _ _ _ _ _ _ _ _ _ Hmain Hkey) as Hgen.
    assert (Hi : i < 10) by (rewrite <- Hten; apply nth_error_Some; congruence).
    assert (Hi2 : i / 2 < 5) by (apply Nat.Div0.div_lt_upper_bound; lia).
    rewrite nth_error_map in Hgen.
    destruct (nth_error (draws R 5 (snd (Int R (Suite.Rng s)))) (i / 2)) as [x |] eqn:Hx;
      [| discriminate Hgen].
    injection Hgen as <-.
    apply (nth_error_nth _ _ 0%Z) in Hx. rewrite draws_nth in Hx by exact Hi2.
    rewrite (Hd (1 + i / 2)) by lia. cbn [Nat.add after_draws]. now rewrite Hx. }
  split.
  { rewrite H5. change (repeat (@Ret unit tt) 11) with (@Ret unit tt :: repeat (Ret tt) 10).
    f_equal. rewrite <- Hten. apply all_Ret.
    intros i p Hp. now destruct (Hworker i p Hp). }
  split.
  { rewrite H4, T, calls_of_app, calls_of_tagged, !length_app, Hthree, L22, Ldel, Hkeys.
    lia. }
  split.
  { rewrite H1, K, Hkeys, Hrng, (Hd 7) by lia. reflexivity. }
  intros i Hi.
  destruct (nth_error ws i) as [p |] eqn:Hp.
  - destruct (Hworker i p Hp) as [_ Hit].
    now rewrite H4, T, calls_of_app, calls_of_tagged_other, app_nil_r.
  - apply nth_error_None in Hp. lia.
Qed.

End Passed.

Lemma Run_passed_ran_everything_witness :
  let w := run_sched MemStorage.storage counter workers_in_turn
             (start sample_suite (Run GoSyntax.Sprintf_v)) in
  all_finished w = true
  /\ failures w = []
  /\ goroutines w = repeat (Ret tt) 11
  /\ List.length (calls_of 0 (trace w)) = 28
  /\ Suite.randKeys (ts w)
     = ["__test__key__7/k1"; "__test__key__7/k/a/b"; "__test__key__7/k/c"].
Proof.
  intros w.
  assert (H : all_finished w = true) by (vm_compute; reflexivity).
  assert (Hf : failures w = []) by (vm_compute; reflexivity).
  split; [exact H |]. split; [exact Hf |].
  destruct (Run_passed_ran_everything MemStorage.storage counter GoSyntax.Sprintf_v
              sample_suite workers_in_turn H Hf) as (Hg & Hc & Hk & _).
  split; [exact Hg |]. split; [exact Hc | exact Hk].
Defined.
